(** * Session control and diagnostics (pkg/sql/session.go)

    A shallow embedding of the session-trace reduction
    ([generateSessionTraceVTable] and its helpers), of the session
    tracing controller ([SessionTracing]), of the session registry
    ([SessionRegistry]) and of the schema-change runner
    ([schemaChangerCollection.execSchemaChanges]), with the properties
    established about them. *)

From Stdlib Require Import ZArith Ascii String List Lia DecimalString.
From stdpp Require Import base decidable option list gmap strings sorting.

#[local] Set Warnings "-clear-no-such-hyp".

Open Scope string_scope.
Open Scope list_scope.
Open Scope Z_scope.

(** ** Outcomes of a Go function that can fail

    [Ok] is a normal return with a nil error, [Err] a return with a non-nil
    error, [Panic] a run-time panic (slice index out of range) and
    [OutOfFuel] the exhaustion of the recursion budget of the embedding
    (shown unreachable for the budget the top level function uses). *)

Inductive error : Type :=
  | ErrDuplicateSpan (spanID : N)
  | ErrUnableToSplit (msg : string)
  | ErrNoTxnSpan.

Inductive outcome (A : Type) : Type :=
  | Ok (a : A)
  | Err (e : error)
  | Panic
  | OutOfFuel.

Arguments Ok {A} a.
Arguments Err {A} e.
Arguments Panic {A}.
Arguments OutOfFuel {A}.

#[global] Instance outcome_ret : MRet outcome := fun A a => Ok a.

#[global] Instance outcome_bind : MBind outcome := fun A B f o =>
  match o with
  | Ok a => f a
  | Err e => Err e
  | Panic => Panic
  | OutOfFuel => OutOfFuel
  end.

(** ** Regular expressions (the fragment of Go's regexp syntax used by
    [logMessageRE])

    Matching is leftmost-first with backtracking: [Alt] prefers its left
    branch and [Star] is greedy, which is the preference order of Go's
    regexp package for a non-POSIX expression.  The engine works on the
    bytes of the string; every character class of [logMessageRE] is either
    a set of ASCII characters or the complement of one, so that a
    multi-byte rune (and an invalid byte, which Go reads as U+FFFD) is
    matched byte by byte by exactly the classes that match the rune. *)

Module Regexp.

Inductive regex : Type :=
  | Eps
  | Bot                                  (* ^ : beginning of text *)
  | Chr (p : ascii -> bool)              (* one character of a class *)
  | Cat (r1 r2 : regex)
  | Alt (r1 r2 : regex)                  (* r1|r2, r1 preferred *)
  | Star (r : regex)                     (* r*, greedy *)
  | Group (n : nat) (r : regex).         (* n-th capturing group *)

Definition Plus (r : regex) : regex := Cat r (Star r).
Definition Opt (r : regex) : regex := Alt r Eps.

(** Submatch positions: one [start, end) pair per group, group 0 being the
    whole match. *)
Definition caps : Type := list (option (nat * nat)).

Definition setCap (n : nat) (v : nat * nat) (c : caps) : caps :=
  <[n := Some v]> c.

Definition cont : Type := nat -> list ascii -> caps -> option caps.

(** [rmatch r pos s c k]: match [r] against the text [s] that starts at
    offset [pos], then continue with [k].  An iteration of a star has to
    consume input, which bounds the number of iterations by the length of
    the remaining text. *)
Fixpoint rmatch (r : regex) (pos : nat) (s : list ascii) (c : caps) (k : cont)
  {struct r} : option caps :=
  match r with
  | Eps => k pos s c
  | Bot => if Nat.eqb pos 0 then k pos s c else None
  | Chr p =>
      match s with
      | a :: s' => if p a then k (S pos) s' c else None
      | [] => None
      end
  | Cat r1 r2 => rmatch r1 pos s c (fun pos' s' c' => rmatch r2 pos' s' c' k)
  | Alt r1 r2 =>
      match rmatch r1 pos s c k with
      | Some res => Some res
      | None => rmatch r2 pos s c k
      end
  | Star r1 =>
      (fix loop (n : nat) (pos : nat) (s : list ascii) (c : caps) {struct n}
         : option caps :=
         match n with
         | O => k pos s c
         | S n' =>
             match rmatch r1 pos s c
                     (fun pos' s' c' =>
                        if Nat.ltb (List.length s') (List.length s)
                        then loop n' pos' s' c' else None) with
             | Some res => Some res
             | None => k pos s c
             end
         end) (List.length s) pos s c
  | Group n r1 =>
      rmatch r1 pos s c (fun pos' s' c' => k pos' s' (setCap n (pos, pos') c'))
  end.

(** The match of [r] at offset [pos], group 0 recording the whole match. *)
Definition matchAt (ngroups : nat) (r : regex) (pos : nat) (s : list ascii)
  : option caps :=
  rmatch (Group 0 r) pos s (replicate (S ngroups) None) (fun _ _ c => Some c).

(** The leftmost match: the start offsets are tried from left to right. *)
Fixpoint findFrom (ngroups : nat) (r : regex) (pos : nat) (s : list ascii)
  : option caps :=
  match matchAt ngroups r pos s with
  | Some c => Some c
  | None =>
      match s with
      | [] => None
      | _ :: s' => findFrom ngroups r (S pos) s'
      end
  end.

(** [FindStringSubmatchIndex]: [None] is Go's nil result. *)
Definition FindStringSubmatchIndex (ngroups : nat) (r : regex) (s : string)
  : option caps :=
  findFrom ngroups r 0 (list_ascii_of_string s).

End Regexp.

Import Regexp.

(** Character classes of [logMessageRE]. *)
Definition isOneOf (cs : list ascii) (a : ascii) : bool :=
  existsb (Ascii.eqb a) cs.

(** The class "[^][ :]". *)
Definition locChar (a : ascii) : bool := negb (isOneOf ["]"; "["; " "; ":"]%char a).
(** The class "[^][]". *)
Definition notBracket (a : ascii) : bool := negb (isOneOf ["]"; "["]%char a).
(** The class "[^]]". *)
Definition notClose (a : ascii) : bool := negb (isOneOf ["]"]%char a).
(** The class "[0-9]". *)
Definition digit (a : ascii) : bool :=
  let n := nat_of_ascii a in (Nat.leb 48 n && Nat.leb n 57)%bool.
Definition lit (x : ascii) : regex := Chr (Ascii.eqb x).
(** [.] under the [s] flag: any character, the newline included. *)
Definition anyChar : regex := Chr (fun _ => true).

(** The code location, "(?:[^][ :]+/[^][ :]+\.[^][ :]+:[0-9]+)": a path with
    at least one slash, a period in the file name, and a line number. *)
Definition locationRE : regex :=
  Cat (Plus (Chr locChar))
   (Cat (lit "/")
    (Cat (Plus (Chr locChar))
     (Cat (lit ".")
      (Cat (Plus (Chr locChar))
       (Cat (lit ":") (Plus (Chr digit))))))).

(** The tag, "(?:\[(?:[^][]|\[[^]]*\])*\])": a bracketed text in which
    brackets nest one level deep. *)
Definition tagRE : regex :=
  Cat (lit "[")
   (Cat (Star (Alt (Chr notBracket)
                   (Cat (lit "[") (Cat (Star (Chr notClose)) (lit "]")))))
        (lit "]")).

(** The whole expression, under the [s] flag: at the beginning of the text,
    group 1 is the optional location, group 2 the optional tag and group 3
    the rest of the text; spaces separate the three. *)
Definition logMessageRE : regex :=
  Cat Bot
   (Cat (Group 1 (Opt locationRE))
    (Cat (Star (lit " "))
     (Cat (Group 2 (Opt tagRE))
      (Cat (Star (lit " "))
           (Group 3 (Star anyChar)))))).

Definition logMessageGroups : nat := 3.

(** [s[lo:hi]] for the positions of submatch [n]. *)
Definition submatch (s : string) (loc : caps) (n : nat) : string :=
  match loc !! n with
  | Some (Some (lo, hi)) => substring lo (hi - lo)%nat s
  | _ => ""
  end.

(** ** Recorded spans (tracing.RecordedSpan) and trace rows

    A [time.Time] is an instant, counted in nanoseconds since the Unix
    epoch; a [time.Duration] is a count of nanoseconds; a span identifier
    is a [uint64], used only through equality. *)

Record LogRecord_Field : Type := mkField { Key : string; Value : string }.

Record RecordedSpan_LogRecord : Type := mkLogRecord {
  Time : Z;
  Fields : list LogRecord_Field
}.

Record RecordedSpan : Type := mkSpan {
  SpanID : N;
  ParentSpanID : N;
  Operation : string;
  StartTime : Z;
  Duration : Z;
  Logs : list RecordedSpan_LogRecord
}.

(** [spanWithIndex]: a span of the input together with its position. *)
Record spanWithIndex : Type := mkSpanWithIndex {
  sw_span : RecordedSpan;
  sw_index : nat
}.

(** [logRecordRow]: a log message and its metadata while flattening. *)
Record logRecordRow : Type := mkLogRecordRow {
  lrr_timestamp : Z;
  lrr_msg : string;
  lrr_span : spanWithIndex;
  lrr_index : nat
}.

(** The SQL datums that occur in a trace row. *)
Inductive Datum : Type :=
  | DNull
  | DInt (z : Z)
  | DString (s : string)
  | DTimestampTZ (t : Z)
  | DInterval (nanos : Z).

(** [traceRow], an array of eight datums, one field per column. *)
Record traceRow : Type := mkTraceRow {
  span_idx : Datum;
  message_idx : Datum;
  timestamp : Datum;
  duration : Datum;
  operation : Datum;
  location : Datum;
  tag : Datum;
  message : Datum
}.

(** [extractMsgFromRecord]: the value of the first field whose key is
    "event" or "error". *)
Fixpoint extractMsgFromFields (fs : list LogRecord_Field) : string :=
  match fs with
  | [] => "<event missing in trace message>"
  | f :: fs' =>
      if String.eqb (Key f) "event" then Value f
      else if String.eqb (Key f) "error" then "error:" ++ Value f
      else extractMsgFromFields fs'
  end.

Definition extractMsgFromRecord (rec : RecordedSpan_LogRecord) : string :=
  extractMsgFromFields (Fields rec).

(** [time.Date(6000, 0, 0, 0, 0, 0, 0, time.UTC)]: month 0 and day 0
    normalise to 30 November 5999, which is 1471895 days after the epoch. *)
Definition maxTime : Z := 1471895 * 86400 * 1000000000.

(** [getOrderedChildSpans]: the spans of [allSpans] whose parent is
    [spanID], in the order of [allSpans], each with its position. *)
Fixpoint childSpansFrom (spanID : N) (i : nat) (spans : list RecordedSpan)
  : list spanWithIndex :=
  match spans with
  | [] => []
  | sp :: rest =>
      if N.eqb (ParentSpanID sp) spanID
      then mkSpanWithIndex sp i :: childSpansFrom spanID (S i) rest
      else childSpansFrom spanID (S i) rest
  end.

Definition getOrderedChildSpans (spanID : N) (allSpans : list RecordedSpan)
  : list spanWithIndex :=
  childSpansFrom spanID 0 allSpans.

Definition spanStartMsg (op : string) : string :=
  "=== SPAN START: " ++ op ++ " ===".

Definition spanStartRow (span : spanWithIndex) : logRecordRow :=
  {| lrr_timestamp := StartTime (sw_span span);
     lrr_msg := spanStartMsg (Operation (sw_span span));
     lrr_span := span;
     lrr_index := 0 |}.

(** The row of the log entry [Logs[i]] of [span]. *)
Definition logRow (span : spanWithIndex) (i : nat) (l : RecordedSpan_LogRecord)
  : logRecordRow :=
  {| lrr_timestamp := Time l;
     lrr_msg := extractMsgFromRecord l;
     lrr_span := span;
     lrr_index := (i + 1)%nat |}.

(** A call of [getMessagesForSubtrace] returns its rows together with the
    set [seenSpans] as the call leaves it (the Go map is shared). *)
Definition subtrace : Type := (list logRecordRow * gset N)%type.

(** The merge loop of [getMessagesForSubtrace]: [i] and [j] are the cursors
    into [span.Logs] and [childSpans], [allLogs] holds the rows appended so
    far and [recur] is the recursive call.  A cursor that is exhausted reads
    as [maxTime]; the branch that is taken indexes its slice, which panics
    when the index is out of range.  An iteration advances one cursor: [n]
    bounds the number of iterations. *)
Fixpoint mergeLoop (recur : spanWithIndex -> gset N -> outcome subtrace)
    (span : spanWithIndex) (childSpans : list spanWithIndex)
    (n : nat) (i j : nat) (allLogs : list logRecordRow) (seenSpans : gset N)
  : outcome subtrace :=
  let logs := Logs (sw_span span) in
  if (Nat.ltb i (length logs) || Nat.ltb j (length childSpans))%bool then
    match n with
    | O => OutOfFuel
    | S n' =>
        let logTime := match logs !! i with Some l => Time l | None => maxTime end in
        let childTime :=
          match childSpans !! j with
          | Some c => StartTime (sw_span c)
          | None => maxTime
          end in
        if logTime <? childTime then
          match logs !! i with
          | Some l =>
              mergeLoop recur span childSpans n' (S i) j
                (allLogs ++ [logRow span i l]) seenSpans
          | None => Panic
          end
        else
          match childSpans !! j with
          | Some c =>
              '(childMsgs, seen1) ← recur c seenSpans;
              mergeLoop recur span childSpans n' i (S j) (allLogs ++ childMsgs) seen1
          | None => Panic
          end
    end
  else Ok (allLogs, seenSpans).

(** [getMessagesForSubtrace].  [fuel] bounds the depth of the recursion; the
    loop makes as many iterations as the span has log entries and
    children. *)
Fixpoint getMessagesForSubtrace (fuel : nat) (allSpans : list RecordedSpan)
    (span : spanWithIndex) (seenSpans : gset N) : outcome subtrace :=
  match fuel with
  | O => OutOfFuel
  | S fuel' =>
      if decide (SpanID (sw_span span) ∈ seenSpans)
      then Err (ErrDuplicateSpan (SpanID (sw_span span)))
      else
        let allLogs := [spanStartRow span] in
        let seen1 := {[SpanID (sw_span span)]} ∪ seenSpans in
        let childSpans := getOrderedChildSpans (SpanID (sw_span span)) allSpans in
        mergeLoop (getMessagesForSubtrace fuel' allSpans) span childSpans
          (length (Logs (sw_span span)) + length childSpans) 0 0 allLogs seen1
  end.

(** The first loop of [generateSessionTraceVTable], over [spans[spanIdx:]]. *)
Fixpoint collectLogs (fuel : nat) (allSpans : list RecordedSpan)
    (spans : list RecordedSpan) (spanIdx : nat) (seenSpans : gset N)
  : outcome (list logRecordRow) :=
  match spans with
  | [] => Ok []
  | span :: rest =>
      if decide (SpanID span ∈ seenSpans)
      then collectLogs fuel allSpans rest (S spanIdx) seenSpans
      else
        '(msgs, seen) ← getMessagesForSubtrace fuel allSpans
                          (mkSpanWithIndex span spanIdx) seenSpans;
        rows ← collectLogs fuel allSpans rest (S spanIdx) seen;
        Ok (msgs ++ rows)
  end.

(** The body of the second loop: one log message to one table row. *)
Definition toTraceRow (lrr : logRecordRow) : outcome traceRow :=
  let operation :=
    if Nat.eqb (lrr_index lrr) 0
    then DString (Operation (sw_span (lrr_span lrr))) else DNull in
  let dur :=
    if (Nat.eqb (lrr_index lrr) 0
        && negb (Duration (sw_span (lrr_span lrr)) =? 0))%bool
    then DInterval (Duration (sw_span (lrr_span lrr))) else DNull in
  match FindStringSubmatchIndex logMessageGroups logMessageRE (lrr_msg lrr) with
  | None => Err (ErrUnableToSplit (lrr_msg lrr))
  | Some loc =>
      Ok {| span_idx := DInt (Z.of_nat (sw_index (lrr_span lrr)));
            message_idx := DInt (Z.of_nat (lrr_index lrr));
            timestamp := DTimestampTZ (lrr_timestamp lrr);
            duration := dur;
            operation := operation;
            location := DString (submatch (lrr_msg lrr) loc 1);
            tag := DString (submatch (lrr_msg lrr) loc 2);
            message := DString (submatch (lrr_msg lrr) loc 3) |}
  end.

Fixpoint toTraceRows (allLogs : list logRecordRow) : outcome (list traceRow) :=
  match allLogs with
  | [] => Ok []
  | lrr :: rest =>
      row ← toTraceRow lrr;
      res ← toTraceRows rest;
      Ok (row :: res)
  end.

(** [generateSessionTraceVTable] with an explicit recursion budget. *)
Definition generateWithFuel (fuel : nat) (spans : list RecordedSpan)
  : outcome (list traceRow) :=
  allLogs ← collectLogs fuel spans spans 0 ∅;
  toTraceRows allLogs.

(** [generateSessionTraceVTable]: the nesting of the calls of
    [getMessagesForSubtrace] is at most the number of spans, plus one for a
    call that finds its span already seen. *)
Definition generateSessionTraceVTable (spans : list RecordedSpan)
  : outcome (list traceRow) :=
  generateWithFuel (S (length spans)) spans.


(** ** The session registry ([SessionRegistry]) *)

Module Registry.

Inductive regError (ID : Type) : Type :=
  | ErrQueryIDMalformed (queryID : ID) (cause : string)
  | ErrQueryNotFound (queryID : ID)
  | ErrSessionNotFound (sessionID : ID).

Arguments ErrQueryIDMalformed {ID} queryID cause.
Arguments ErrQueryNotFound {ID} queryID.
Arguments ErrSessionNotFound {ID} sessionID.

(** What the registry uses of the rest of the package.  [ClusterWideID] and
    the conversions to it are declared elsewhere; the registry uses
    identifiers as map keys and compares them.  [RootUser] is
    [security.RootUser].  [registrySession] is the interface of a registered
    session: the store holds references, [cancelQuery] reports whether the
    session had the query and leaves the session in a new state, as
    [cancelSession] does. *)
Class Env : Type := {
  ClusterWideID : Type;
  ClusterWideID_eq_dec :: EqDecision ClusterWideID;
  ClusterWideID_countable :: Countable ClusterWideID;
  StringToClusterWideID : string -> ClusterWideID * option string;
  BytesToClusterWideID : list Byte.byte -> ClusterWideID;
  RootUser : string;
  registrySession : Type;
  user : registrySession -> string;
  cancelQuery : registrySession -> ClusterWideID -> bool * registrySession;
  cancelSession : registrySession -> registrySession
}.

Section registry.
Context `{Env}.

(** [SessionRegistry.store]. *)
Abbreviation store := (gmap ClusterWideID registrySession).

(** [MakeSessionRegistry]: a registry with an empty set of sessions. *)
Definition MakeSessionRegistry : store := ∅.

Definition register (id : ClusterWideID) (s : registrySession) (r : store) : store :=
  <[id := s]> r.

Definition deregister (id : ClusterWideID) (r : store) : store := delete id r.

(** [username == security.RootUser || username == session.user()] *)
Definition authorized (username : string) (session : registrySession) : bool :=
  (String.eqb username RootUser || String.eqb username (user session))%bool.

(** The loop of [CancelQuery] over the entries of the store.  Go ranges over
    a map in an unspecified order: [entries] is the order of one run. *)
Fixpoint cancelQueryLoop (entries : list (ClusterWideID * registrySession))
    (queryID : ClusterWideID) (username : string) (r : store) : bool * store :=
  match entries with
  | [] => (false, r)
  | (id, session) :: rest =>
      if negb (authorized username session)
      then cancelQueryLoop rest queryID username r
      else
        let '(found, session') := cancelQuery session queryID in
        if found then (true, <[id := session']> r)
        else cancelQueryLoop rest queryID username (<[id := session']> r)
  end.

(** [CancelQuery]: the returned pair, and the sessions after the call. *)
Definition CancelQuery (entries : list (ClusterWideID * registrySession))
    (r : store) (queryIDStr : string) (username : string)
  : (bool * option (regError ClusterWideID)) * store :=
  match StringToClusterWideID queryIDStr with
  | (queryID, Some err) => ((false, Some (ErrQueryIDMalformed queryID err)), r)
  | (queryID, None) =>
      match cancelQueryLoop entries queryID username r with
      | (true, r') => ((true, None), r')
      | (false, r') => ((false, Some (ErrQueryNotFound queryID)), r')
      end
  end.

Fixpoint cancelSessionLoop (entries : list (ClusterWideID * registrySession))
    (sessionID : ClusterWideID) (username : string) (r : store) : bool * store :=
  match entries with
  | [] => (false, r)
  | (id, session) :: rest =>
      if negb (authorized username session)
      then cancelSessionLoop rest sessionID username r
      else if decide (id = sessionID)
           then (true, <[id := cancelSession session]> r)
           else cancelSessionLoop rest sessionID username r
  end.

(** [CancelSession]. *)
Definition CancelSession (entries : list (ClusterWideID * registrySession))
    (r : store) (sessionIDBytes : list Byte.byte) (username : string)
  : (bool * option (regError ClusterWideID)) * store :=
  let sessionID := BytesToClusterWideID sessionIDBytes in
  match cancelSessionLoop entries sessionID username r with
  | (true, r') => ((true, None), r')
  | (false, r') => ((false, Some (ErrSessionNotFound sessionID)), r')
  end.

(** The session holds the query: asked to cancel it, it reports success. *)
Definition holdsQuery (session : registrySession) (queryID : ClusterWideID) : Prop :=
  (cancelQuery session queryID).1 = true.

End registry.
End Registry.

(** ** The session tracing controller ([SessionTracing]) *)

Module Tracing.

(** [tracing.RecordingType]. *)
Inductive RecordingType : Type := NoRecording | SnowballRecording | SingleNodeRecording.

(** The tracing package: spans are references into the state [tracer] of
    the tracing library, which the operations read and update.  [StartSpan]
    is the creation of the span "session recording", as a child of the given
    span or as a root span of the ambient tracer. *)
Class Lib : Type := {
  Span : Type;
  tracer : Type;
  StartRecording : Span -> RecordingType -> tracer -> tracer;
  StopRecording : Span -> tracer -> tracer;
  GetRecording : Span -> tracer -> list RecordedSpan;
  Finish : Span -> tracer -> tracer;
  StartSpan : option Span -> tracer -> Span * tracer
}.

Section tracing.
Context `{Lib}.

(** What [SessionTracing] reads and writes of its [connExecutor]. *)
Record connExecutor : Type := mkConnExecutor {
  (** [ex.machine.CurState()] is not [stateNoTxn] *)
  inTxn : bool;
  (** [opentracing.SpanFromContext(ex.state.Ctx)] *)
  txnCtxSpan : option Span;
  (** [opentracing.SpanFromContext(ex.ctxHolder.connCtx)] *)
  connCtxSpan : option Span;
  (** the span of the context that [ctxHolder.hijack] installed, if any *)
  hijacked : option Span
}.

Record SessionTracing : Type := mkSessionTracing {
  enabled : bool;
  kvTracingEnabled : bool;
  recordingType : RecordingType;
  firstTxnSpan : option Span;
  connSpan : option Span;
  lastRecording : list traceRow
}.

(** The state after a call, with what the call returned. *)
Record after (A : Type) : Type := mkAfter {
  ret : outcome A;
  st : SessionTracing;
  ex : connExecutor;
  tr : tracer
}.
Arguments mkAfter {A} ret st ex tr.
Arguments ret {A} a.
Arguments st {A} a.
Arguments ex {A} a.
Arguments tr {A} a.

(** [getRecording].  While tracing is enabled [connSpan] is set; a nil
    [connSpan] would make the tracing package panic. *)
Definition getRecording (s : SessionTracing) (t : tracer) : outcome (list traceRow) :=
  if negb (enabled s) then Ok (lastRecording s)
  else
    let spans :=
      match firstTxnSpan s with
      | Some sp => GetRecording sp t
      | None => []
      end in
    match connSpan s with
    | Some conn => generateSessionTraceVTable (spans ++ GetRecording conn t)
    | None => Panic
    end.

(** [StartTracing]. *)
Definition StartTracing (s : SessionTracing) (e : connExecutor) (t : tracer)
    (recType : RecordingType) (kv : bool) : after unit :=
  if enabled s then mkAfter (Ok ()) s e t
  else
    let txn : outcome (option Span * tracer) :=
      if inTxn e then
        match txnCtxSpan e with
        | None => Err ErrNoTxnSpan
        | Some sp => Ok (Some sp, StartRecording sp recType t)
        end
      else Ok (firstTxnSpan s, t) in
    match txn with
    | Ok (first, t1) =>
        let '(sp, t2) := StartSpan (connCtxSpan e) t1 in
        let t3 := StartRecording sp recType t2 in
        mkAfter (Ok ())
          {| enabled := true; kvTracingEnabled := kv; recordingType := recType;
             firstTxnSpan := first; connSpan := Some sp;
             lastRecording := lastRecording s |}
          {| inTxn := inTxn e; txnCtxSpan := txnCtxSpan e;
             connCtxSpan := connCtxSpan e; hijacked := Some sp |}
          t3
    | Err err => mkAfter (Err err) s e t
    | Panic => mkAfter Panic s e t
    | OutOfFuel => mkAfter OutOfFuel s e t
    end.

(** [StopTracing]. *)
Definition StopTracing (s : SessionTracing) (e : connExecutor) (t : tracer)
  : after unit :=
  if negb (enabled s) then mkAfter (Ok ()) s e t
  else
    let s1 := {| enabled := false; kvTracingEnabled := kvTracingEnabled s;
                 recordingType := recordingType s;
                 firstTxnSpan := firstTxnSpan s; connSpan := connSpan s;
                 lastRecording := lastRecording s |} in
    let '(spans, t1) :=
      match firstTxnSpan s with
      | Some sp => (GetRecording sp t, StopRecording sp t)
      | None => ([], t)
      end in
    match connSpan s with
    | None => mkAfter Panic s1 e t1
    | Some conn =>
        let t2 := Finish conn t1 in
        let spans' := spans ++ GetRecording conn t2 in
        let t3 := StopRecording conn t2 in
        let e' := {| inTxn := inTxn e; txnCtxSpan := txnCtxSpan e;
                     connCtxSpan := connCtxSpan e; hijacked := None |} in
        let res := generateSessionTraceVTable spans' in
        mkAfter (_ ← res; Ok ())
          {| enabled := false; kvTracingEnabled := kvTracingEnabled s;
             recordingType := recordingType s;
             firstTxnSpan := firstTxnSpan s; connSpan := connSpan s;
             lastRecording :=
               match res with
               | Ok rows => rows
               | Err _ => []
               | _ => lastRecording s
               end |}
          e' t3
    end.

End tracing.

Arguments mkAfter {_ A} ret st ex tr.
Arguments ret {_ A} a.
Arguments st {_ A} a.
Arguments ex {_ A} a.
Arguments tr {_ A} a.

End Tracing.

(** ** The schema-change runner ([schemaChangerCollection]) *)

Module SchemaChange.

(** Modelled from the spec: [r.Next()] of the retry loop started with
    [retry.Start(base.DefaultRetryOptions())].  The retry package and the
    options are not part of the source at hand; the runner retries "with
    backoff, indefinitely", so the loop condition never ends the loop. *)
Definition retryNext : bool := true.

(** What the runner uses of the rest of the package: a schema changer, an
    error value, and the state of the world that an execution of a schema
    changer reads and changes (the database, the clock and the jobs of the
    configuration).  [ErrDescriptorNotFound] is
    [sqlbase.ErrDescriptorNotFound]; [exec] is
    [sc.exec(ctx, true, &evalCtx)], [None] being a nil error; [SyncFilter]
    is [cfg.SchemaChangerTestingKnobs.SyncFilter], which may change the
    queue. *)
Class Env : Type := {
  SchemaChanger : Type;
  Err : Type;
  World : Type;
  Err_eq_dec :: EqDecision Err;
  ErrDescriptorNotFound : Err;
  isPermanentSchemaChangeError : Err -> bool;
  exec : SchemaChanger -> World -> option Err * World;
  SyncFilter : option (list SchemaChanger -> list SchemaChanger)
}.

Section schema.
Context `{Env}.

(** [queueSchemaChanger]: the schema changer is appended to the collection. *)
Definition queueSchemaChanger (schemaChanger : SchemaChanger)
    (schemaChangers : list SchemaChanger) : list SchemaChanger :=
  schemaChangers ++ [schemaChanger].

(** [reset]: the collection is emptied. *)
Definition reset (schemaChangers : list SchemaChanger) : list SchemaChanger := [].

(** One attempt: the schema changer and the error of its execution. *)
Definition attempt : Type := (SchemaChanger * option Err)%type.

(** The retry loop of one schema changer.  [fuel] bounds the number of
    attempts of the embedding; [log] records the attempts in order. *)
Fixpoint retryLoop (fuel : nat) (sc : SchemaChanger) (w : World)
    (firstError : option Err) (log : list attempt)
  : option (option Err * World * list attempt) :=
  match fuel with
  | O => None
  | S fuel' =>
      if retryNext then
        let '(err, w') := exec sc w in
        let log' := log ++ [(sc, err)] in
        match err with
        | Some e =>
            if decide (e = ErrDescriptorNotFound) then Some (firstError, w', log')
            else if isPermanentSchemaChangeError e then
              Some (match firstError with
                    | None => Some e
                    | Some _ => firstError
                    end, w', log')
            else retryLoop fuel' sc w' firstError log'
        | None => Some (firstError, w', log')
        end
      else Some (firstError, w, log)
  end.

(** The loop over the queue. *)
Fixpoint runQueue (fuel : nat) (queue : list SchemaChanger) (w : World)
    (firstError : option Err) (log : list attempt)
  : option (option Err * World * list attempt) :=
  match queue with
  | [] => Some (firstError, w, log)
  | sc :: rest =>
      '(firstError', w', log') ← retryLoop fuel sc w firstError log;
      runQueue fuel rest w' firstError' log'
  end.

(** The queue after the testing filter, which is called on a non-empty
    queue when it is set. *)
Definition filteredQueue (schemaChangers : list SchemaChanger) : list SchemaChanger :=
  match SyncFilter with
  | Some f => if Nat.ltb 0 (length schemaChangers) then f schemaChangers
              else schemaChangers
  | None => schemaChangers
  end.

(** [execSchemaChanges]: the returned error, the queue as the call leaves
    it, the world and the attempts made. *)
Definition execSchemaChanges (fuel : nat) (schemaChangers : list SchemaChanger)
    (w : World)
  : option (option Err * list SchemaChanger * World * list attempt) :=
  '(firstError, w', log) ← runQueue fuel (filteredQueue schemaChangers) w None [];
  Some (firstError, [], w', log).

(** The error of an attempt makes the loop try again. *)
Definition retryable (e : Err) : Prop :=
  e <> ErrDescriptorNotFound /\ isPermanentSchemaChangeError e = false.

(** The result of an attempt ends the loop. *)
Definition terminal (r : option Err) : Prop :=
  match r with
  | None => True
  | Some e => e = ErrDescriptorNotFound \/ isPermanentSchemaChangeError e = true
  end.

(** The permanent error of a last attempt, if it has one. *)
Definition permanentOf (r : option Err) : option Err :=
  match r with
  | Some e =>
      if decide (e = ErrDescriptorNotFound) then None
      else if isPermanentSchemaChangeError e then Some e else None
  | None => None
  end.

Fixpoint firstPermanent (finals : list (option Err)) : option Err :=
  match finals with
  | [] => None
  | r :: rest =>
      match permanentOf r with
      | Some e => Some e
      | None => firstPermanent rest
      end
  end.

(** The attempts of one schema changer: failures that are retried, then one
    last attempt, which is not. *)
Definition jobRun (sc : SchemaChanger) (run : list attempt) (final : option Err)
  : Prop :=
  exists retries : list Err,
    run = ((λ e, (sc, Some e)) <$> retries) ++ [(sc, final)] /\
    Forall retryable retries /\ terminal final.




End schema.
End SchemaChange.

(** ** Reports of panics ([AnonymizeStatementsForReporting]) *)

Module Reporting.

(** What the function uses of the parser and of the syntax tree: [Parse] is
    [parser.Parse], with [None] for an error, and [AsStringWithFlags] is
    [tree.AsStringWithFlags] at the flags [FmtAnonymize|FmtHideConstants]. *)
Class Parser : Type := {
  Statement : Type;
  Parse : string -> option (list Statement);
  AsStringWithFlags : Statement -> string
}.

(** [log.Safe(...).WithCause(r)]: the text that may be reported and the
    value that caused the report. *)
Record SafeError (R : Type) : Type := mkSafeError {
  message : string;
  cause : R
}.
Arguments mkSafeError {R} message cause.
Arguments message {R} s.
Arguments cause {R} s.

Definition panicLogOutputCutoffChars : nat := 500%nat.

(** The verb [%d] of [fmt.Sprintf] on a length. *)
Definition decimal (n : nat) : string := NilZero.string_of_uint (Nat.to_uint n).

Section reporting.
Context `{Parser}.

Definition anonymizeStmtAndConstants (stmt : Statement) : string :=
  AsStringWithFlags stmt.

(** The slice [anonymized] after the block that parses the statements. *)
Definition anonymizedStatements (sqlStmts : string) : list string :=
  match Parse sqlStmts with
  | Some stmts => anonymizeStmtAndConstants <$> stmts
  | None => []
  end.

(** The text [anonStmtsStr] after the cut. *)
Definition cutOff (anonStmtsStr : string) : string :=
  if Nat.ltb panicLogOutputCutoffChars (String.length anonStmtsStr)
  then (substring 0 panicLogOutputCutoffChars anonStmtsStr ++ " [...]")%string
  else anonStmtsStr.

Definition AnonymizeStatementsForReporting {R : Type}
    (action sqlStmts : string) (r : R) : SafeError R :=
  let anonymized := anonymizedStatements sqlStmts in
  let anonStmtsStr := cutOff (String.concat "; " anonymized) in
  mkSafeError
    ("panic while " ++ action ++ " " ++ decimal (length anonymized)
       ++ " statements: " ++ anonStmtsStr)%string
    r.

End reporting.
End Reporting.

(** * Vocabulary of the statements, and example inputs *)

(** ** The shape of a successful merge

    The rows that a span contributes besides its start row are its own log
    rows, in the order of the log, and between them the complete blocks of
    its children, in the order of [getOrderedChildSpans]. *)

(** The rows of the log entries [logs = span.Logs[i:]]. *)
Fixpoint logRows (span : spanWithIndex) (i : nat)
    (logs : list RecordedSpan_LogRecord) : list logRecordRow :=
  match logs with
  | [] => []
  | l :: logs' => logRow span i l :: logRows span (S i) logs'
  end.

(** The merge as a function of what remains of the two slices: [logs] is
    [span.Logs[i:]] and [childSpans] is [childSpans[j:]]; the result holds
    the rows that the loop appends from there on. *)
Fixpoint mergeLogs (recur : spanWithIndex -> gset N -> outcome subtrace)
    (span : spanWithIndex) (logs : list RecordedSpan_LogRecord) (i : nat)
  : list spanWithIndex -> gset N -> outcome subtrace :=
  fix mergeChildren (childSpans : list spanWithIndex) (seenSpans : gset N)
    : outcome subtrace :=
    match logs, childSpans with
    | [], [] => Ok ([], seenSpans)
    | l :: logs', [] =>
        if Time l <? maxTime
        then '(rows, seen) ← mergeLogs recur span logs' (S i) [] seenSpans;
             Ok (logRow span i l :: rows, seen)
        else Panic
    | [], c :: cs =>
        if maxTime <? StartTime (sw_span c)
        then Panic
        else '(childMsgs, seen1) ← recur c seenSpans;
             '(rows, seen) ← mergeChildren cs seen1;
             Ok (childMsgs ++ rows, seen)
    | l :: logs', c :: cs =>
        if Time l <? StartTime (sw_span c)
        then '(rows, seen) ← mergeLogs recur span logs' (S i) childSpans seenSpans;
             Ok (logRow span i l :: rows, seen)
        else '(childMsgs, seen1) ← recur c seenSpans;
             '(rows, seen) ← mergeChildren cs seen1;
             Ok (childMsgs ++ rows, seen)
    end.

Arguments mergeLogs : simpl never.
Arguments mergeLoop : simpl never.

(** [out] is made of the rows [own], in their order, and of the [blocks],
    in their order and each in one piece. *)
Inductive Interleave {A : Type} : list A -> list (list A) -> list A -> Prop :=
  | Interleave_nil : Interleave [] [] []
  | Interleave_own x own blocks out :
      Interleave own blocks out -> Interleave (x :: own) blocks (x :: out)
  | Interleave_block own b blocks out :
      Interleave own blocks out -> Interleave own (b :: blocks) (b ++ out).

(** The calls on the children, one after the other, threading [seenSpans]. *)
Inductive RunChildren (recur : spanWithIndex -> gset N -> outcome subtrace)
  : list spanWithIndex -> gset N -> list (list logRecordRow) -> gset N -> Prop :=
  | RunChildren_nil seen : RunChildren recur [] seen [] seen
  | RunChildren_cons c cs seen b seen1 blocks seen' :
      recur c seen = Ok (b, seen1) ->
      RunChildren recur cs seen1 blocks seen' ->
      RunChildren recur (c :: cs) seen (b :: blocks) seen'.

(** ** Invariants of a successful expansion *)

(** [sw] is a span of the input with its position. *)
Definition wf_span (allSpans : list RecordedSpan) (sw : spanWithIndex) : Prop :=
  allSpans !! sw_index sw = Some (sw_span sw).

(** The identifier of the span of a row. *)
Definition rowID (r : logRecordRow) : N := SpanID (sw_span (lrr_span r)).

(** The row is a start row: its message index is 0. *)
Definition isStart (r : logRecordRow) : Prop := lrr_index r = 0%nat.

#[global] Instance isStart_dec r : Decision (isStart r).
Proof. unfold isStart. apply _. Defined.

(** The identifiers of the spans that have their start row in [rows], in the
    order of the rows. *)
Definition startedIDs (rows : list logRecordRow) : list N :=
  rowID <$> filter isStart rows.

(** What a successful call that started with [seen] and ended with [seen']
    has produced: the identifiers of its rows are what it added to [seen];
    every row belongs to a span of the input and comes with the start row of
    that span; only start rows have index 0; and no two start rows carry the
    same identifier. *)
Record Good (allSpans : list RecordedSpan) (seen : gset N)
    (rows : list logRecordRow) (seen' : gset N) : Prop := mkGood {
  good_seen : forall x, x ∈ seen' <-> x ∈ seen \/ exists r, r ∈ rows /\ rowID r = x;
  good_fresh : forall r, r ∈ rows -> rowID r ∉ seen;
  good_wf : forall r, r ∈ rows -> wf_span allSpans (lrr_span r);
  good_start : forall r, r ∈ rows -> spanStartRow (lrr_span r) ∈ rows;
  good_index0 : forall r, r ∈ rows -> isStart r -> r = spanStartRow (lrr_span r);
  good_nodup : NoDup (startedIDs rows)
}.

(** Every child of a span that has a row has its start row. *)
Definition ChildrenStarted (allSpans : list RecordedSpan)
    (rows : list logRecordRow) : Prop :=
  forall r c, r ∈ rows -> c ∈ getOrderedChildSpans (rowID r) allSpans ->
              spanStartRow c ∈ rows.

(** No span has a row in both lists. *)
Definition idsDisjoint (rows1 rows2 : list logRecordRow) : Prop :=
  forall x y, x ∈ rows1 -> y ∈ rows2 -> rowID x <> rowID y.

(** The identifiers of the input. *)
Definition allIDs (allSpans : list RecordedSpan) : gset N :=
  list_to_set (SpanID <$> allSpans).

Definition isDuplicateSpan (e : error) : Prop := exists id, e = ErrDuplicateSpan id.

(** ** Matching *)

(** The continuation accepts whatever it is given. *)
Definition total (k : cont) : Prop := forall pos s c, is_Some (k pos s c).

(** [r] cannot make a match fail: whatever follows it, if that always
    succeeds then so does [r] followed by it. *)
Definition unfailing (r : regex) : Prop :=
  forall k, total k -> total (λ pos s c, rmatch r pos s c k).

(** ** Duplicate identifiers *)

Definition hasDuplicateSpanID (spans : list RecordedSpan) : Prop :=
  exists i j si sj,
    i <> j /\ spans !! i = Some si /\ spans !! j = Some sj /\ SpanID si = SpanID sj.

(** The specification on duplicates: an input with a duplicate identifier is
    answered with an error. *)
Definition duplicatesRejected (spans : list RecordedSpan) : Prop :=
  hasDuplicateSpanID spans -> exists e, generateSessionTraceVTable spans = Err e.

(** Two root spans that carry the same identifier 1. *)
Definition dupRoots : list RecordedSpan :=
  [ mkSpan 1 0 "first" 10 5 []; mkSpan 1 0 "second" 20 5 [] ].

(** A span with two children that carry the same identifier 2. *)
Definition dupChildren : list RecordedSpan :=
  [ mkSpan 1 0 "root" 10 50 [];
    mkSpan 2 1 "child" 20 5 [];
    mkSpan 2 1 "child again" 30 5 [] ].

(** ** Ties *)

(** The specification on ties, on the output: a log entry of a span whose
    time equals the start time of a child of the span has its row before
    the start row of the child. *)
Definition logBeforeChildOnTie (spans : list RecordedSpan) : Prop :=
  forall res p c sp sc i l,
    generateSessionTraceVTable spans = Ok res ->
    spans !! p = Some sp -> spans !! c = Some sc ->
    ParentSpanID sc = SpanID sp ->
    Logs sp !! i = Some l -> Time l = StartTime sc ->
    exists k1 k2 r1 r2,
      (k1 < k2)%nat /\ res !! k1 = Some r1 /\ res !! k2 = Some r2 /\
      span_idx r1 = DInt (Z.of_nat p) /\ message_idx r1 = DInt (Z.of_nat (i + 1)) /\
      span_idx r2 = DInt (Z.of_nat c) /\ message_idx r2 = DInt 0.

(** A span with one log entry at time 20 and one child that starts at 20:
    the entry and the child are the heads of the two cursors of the merge. *)
Definition tieRoot : RecordedSpan :=
  mkSpan 1 0 "root" 10 50 [mkLogRecord 20 [mkField "event" "tick"]].
Definition tieChild : RecordedSpan := mkSpan 2 1 "child" 20 5 [].
Definition tieSpans : list RecordedSpan := [tieRoot; tieChild].

(** ** Start rows *)

#[global] Instance Datum_eq_dec : EqDecision Datum.
Proof. solve_decision. Defined.

(** [row] is the row with message index 0 of the span with index [idx]. *)
Definition isStartRowOf (idx : Datum) (row : traceRow) : Prop :=
  span_idx row = idx /\ message_idx row = DInt 0.

#[global] Instance isStartRowOf_dec idx row : Decision (isStartRowOf idx row).
Proof. unfold isStartRowOf. apply _. Defined.

(** The specification on start rows, for every span of the input: in a
    successful output each span has exactly one row with message index 0. *)
Definition everySpanHasStartRow (spans : list RecordedSpan) : Prop :=
  forall res i sp,
    generateSessionTraceVTable spans = Ok res -> spans !! i = Some sp ->
    length (filter (isStartRowOf (DInt (Z.of_nat i))) res) = 1%nat.

(** A span that is still open (duration 0), with one log entry and a child
    that has finished. *)
Definition openSpans : list RecordedSpan :=
  [ mkSpan 7 0 "open" 10 0 [mkLogRecord 40 [mkField "event" "sql/exec.go:12 [n1] done"]];
    mkSpan 8 7 "finished" 20 5 [] ].

Definition openRows : list traceRow :=
  [ {| span_idx := DInt 0; message_idx := DInt 0;
       timestamp := DTimestampTZ 10; duration := DNull;
       operation := DString "open"; location := DString "";
       tag := DString ""; message := DString "=== SPAN START: open ===" |};
    {| span_idx := DInt 1; message_idx := DInt 0;
       timestamp := DTimestampTZ 20; duration := DInterval 5;
       operation := DString "finished"; location := DString "";
       tag := DString ""; message := DString "=== SPAN START: finished ===" |};
    {| span_idx := DInt 0; message_idx := DInt 1;
       timestamp := DTimestampTZ 40; duration := DNull;
       operation := DNull; location := DString "sql/exec.go:12";
       tag := DString "[n1]"; message := DString "done" |} ].

(** ** Sibling subtrees *)

(** [rs] are the table rows of the subtree rooted at [c]: the rows of a
    successful expansion of [c]. *)
Definition subtreeRows (spans : list RecordedSpan) (c : spanWithIndex)
    (rs : list traceRow) : Prop :=
  exists fuel seen blk seen',
    getMessagesForSubtrace fuel spans c seen = Ok (blk, seen') /\
    toTraceRows blk = Ok rs.

(** The specification on siblings, for the rows of the two children
    themselves: the rows of the child that starts earlier come first. *)
Definition earlierStartFirst (spans : list RecordedSpan) : Prop :=
  forall res a b sa sb k1 k2 r1 r2,
    generateSessionTraceVTable spans = Ok res ->
    spans !! a = Some sa -> spans !! b = Some sb ->
    ParentSpanID sa = ParentSpanID sb -> StartTime sa < StartTime sb ->
    res !! k1 = Some r1 -> res !! k2 = Some r2 ->
    span_idx r1 = DInt (Z.of_nat a) -> span_idx r2 = DInt (Z.of_nat b) ->
    (k1 < k2)%nat.

(** A span with two children; the one recorded first starts later. *)
Definition unorderedSpans : list RecordedSpan :=
  [ mkSpan 1 0 "root" 10 50 [];
    mkSpan 2 1 "late" 30 5 [];
    mkSpan 3 1 "early" 20 5 [] ].

Definition unorderedRows : list traceRow :=
  [ {| span_idx := DInt 0; message_idx := DInt 0;
       timestamp := DTimestampTZ 10; duration := DInterval 50;
       operation := DString "root"; location := DString "";
       tag := DString ""; message := DString "=== SPAN START: root ===" |};
    {| span_idx := DInt 1; message_idx := DInt 0;
       timestamp := DTimestampTZ 30; duration := DInterval 5;
       operation := DString "late"; location := DString "";
       tag := DString ""; message := DString "=== SPAN START: late ===" |};
    {| span_idx := DInt 2; message_idx := DInt 0;
       timestamp := DTimestampTZ 20; duration := DInterval 5;
       operation := DString "early"; location := DString "";
       tag := DString ""; message := DString "=== SPAN START: early ===" |} ].

(** ** Instances for the registry, the tracer and the runner *)

(** A registry with a session of alice that runs query 7 and a session of
    bob that runs query 9; alice asks for query 9 and for the session of
    bob. *)
Record demoSession : Type := mkDemoSession {
  owner : string;
  queries : list N;
  cancelled : bool
}.

Definition demoCancelQuery (s : demoSession) (q : N) : bool * demoSession :=
  if bool_decide (q ∈ queries s)
  then (true, mkDemoSession (owner s) (filter (λ q', q' <> q) (queries s)) (cancelled s))
  else (false, s).

Definition demoCancelSession (s : demoSession) : demoSession :=
  mkDemoSession (owner s) (queries s) true.

Definition demoParse (s : string) : N * option string :=
  if String.eqb s "9" then (9%N, None)
  else if String.eqb s "7" then (7%N, None)
  else (0%N, Some "invalid").

Definition demoBytes (b : list Byte.byte) : N := N.of_nat (length b).

Definition demoRegistry : Registry.Env :=
  {| Registry.ClusterWideID := N;
     Registry.StringToClusterWideID := demoParse;
     Registry.BytesToClusterWideID := demoBytes;
     Registry.RootUser := "root";
     Registry.registrySession := demoSession;
     Registry.user := owner;
     Registry.cancelQuery := demoCancelQuery;
     Registry.cancelSession := demoCancelSession |}.

Definition demoStore : gmap N demoSession :=
  {[ 1%N := mkDemoSession "alice" [7%N] false;
     2%N := mkDemoSession "bob" [9%N] false ]}.

(** A small tracer for examples: a span is a number, the tracer state counts
    the spans created so far, and the recording of a span is the span
    itself. *)
Definition demoTracer : Tracing.Lib :=
  {| Tracing.Span := nat;
     Tracing.tracer := nat;
     Tracing.StartRecording := λ _ _ t, t;
     Tracing.StopRecording := λ _ t, t;
     Tracing.GetRecording := λ sp _, [mkSpan (N.of_nat sp) 0 "op" (Z.of_nat sp) 1 []];
     Tracing.Finish := λ _ t, t;
     Tracing.StartSpan := λ _ t, (t, S t) |}.

Definition idle : Tracing.SessionTracing (H := demoTracer) :=
  Tracing.mkSessionTracing (H := demoTracer) false false Tracing.NoRecording None None [].
Definition inTransaction : Tracing.connExecutor (H := demoTracer) :=
  Tracing.mkConnExecutor (H := demoTracer) true (Some 100%nat) None None.
Definition noTransaction : Tracing.connExecutor (H := demoTracer) :=
  Tracing.mkConnExecutor (H := demoTracer) false None None None.

(** The tracing state after a trace was started inside the transaction. *)
Definition started : Tracing.SessionTracing (H := demoTracer) :=
  Tracing.st (Tracing.StartTracing (H := demoTracer) idle inTransaction 1%nat
                Tracing.SnowballRecording true).

(** Three queued jobs: job 1 succeeds, job 2 fails for good, job 3 fails
    twice in a way that is retried and then succeeds.  The world counts the
    attempts made. *)
Definition demoExec (sc : nat) (w : nat) : option string * nat :=
  match sc with
  | 2%nat => (Some "constraint violation", S w)
  | 3%nat => if Nat.ltb w 4 then (Some "transient", S w) else (None, S w)
  | _ => (None, S w)
  end.

Definition demoSchema : SchemaChange.Env :=
  {| SchemaChange.SchemaChanger := nat;
     SchemaChange.Err := string;
     SchemaChange.World := nat;
     SchemaChange.ErrDescriptorNotFound := "descriptor not found";
     SchemaChange.isPermanentSchemaChangeError := λ e, String.eqb e "constraint violation";
     SchemaChange.exec := demoExec;
     SchemaChange.SyncFilter := None |}.

Definition demoQueue : list nat := [1%nat; 2%nat; 3%nat].




(** ** Words of a regular expression *)

(** The expression has no anchor and no group. *)
Fixpoint plain (r : regex) : bool :=
  match r with
  | Eps | Chr _ => true
  | Bot | Group _ _ => false
  | Cat r1 r2 | Alt r1 r2 => plain r1 && plain r2
  | Star r1 => plain r1
  end.

(** The words of a plain expression. *)
Inductive Lang : regex -> list ascii -> Prop :=
  | Lang_Eps : Lang Eps []
  | Lang_Chr p a : p a = true -> Lang (Chr p) [a]
  | Lang_Cat r1 r2 w1 w2 : Lang r1 w1 -> Lang r2 w2 -> Lang (Cat r1 r2) (w1 ++ w2)
  | Lang_Alt_l r1 r2 w : Lang r1 w -> Lang (Alt r1 r2) w
  | Lang_Alt_r r1 r2 w : Lang r2 w -> Lang (Alt r1 r2) w
  | Lang_Star_nil r : Lang (Star r) []
  | Lang_Star_cons r w1 w2 :
      Lang r w1 -> w1 <> [] -> Lang (Star r) w2 -> Lang (Star r) (w1 ++ w2).

Definition isSpace (a : ascii) : Prop := a = " "%char.

(** The iteration of [Star r] followed by [k], with [n] iterations left. *)
Definition starLoop (r : regex) (k : cont) : nat -> cont :=
  fix loop (n : nat) (pos : nat) (s : list ascii) (c : caps) {struct n}
    : option caps :=
    match n with
    | O => k pos s c
    | S n' =>
        match rmatch r pos s c
                (fun pos' s' c' =>
                   if Nat.ltb (List.length s') (List.length s)
                   then loop n' pos' s' c' else None) with
        | Some res => Some res
        | None => k pos s c
        end
    end.

(** The text consists of spaces. *)
Definition allSpaces (s : string) : Prop := Forall isSpace (list_ascii_of_string s).

(** The form of a code location: "dir/base.ext:line", the three names non
    empty and without space, bracket or colon, the line number a non empty
    sequence of digits. *)
Definition isLocation (l : string) : Prop :=
  exists dir base ext line : list ascii,
    list_ascii_of_string l =
      dir ++ "/"%char :: base ++ "."%char :: ext ++ ":"%char :: line /\
    dir <> [] /\ base <> [] /\ ext <> [] /\ line <> [] /\
    Forall (λ a, locChar a = true) (dir ++ base ++ ext) /\
    Forall (λ a, digit a = true) line.

(** The form of a tag: a text between brackets. *)
Definition isTag (t : string) : Prop :=
  exists body : list ascii, list_ascii_of_string t = "["%char :: body ++ ["]"%char].

(** A tag without brackets inside. *)
Definition isSimpleTag (t : string) : Prop :=
  exists body : list ascii,
    list_ascii_of_string t = "["%char :: body ++ ["]"%char] /\
    Forall (λ a, notBracket a = true) body.

(** ** Well-formed recordings *)

(** The times of the input are below the sentinel of the merge: no span
    starts after [maxTime] and every log entry is before it. *)
Definition timesBounded (spans : list RecordedSpan) : Prop :=
  forall sp, sp ∈ spans ->
    StartTime sp <= maxTime /\ forall l, l ∈ Logs sp -> Time l < maxTime.

(** Every span comes after its parent in the input, as in a recording that
    lists the spans in the order in which they were started. *)
Definition parentsFirst (spans : list RecordedSpan) : Prop :=
  forall i j si sj,
    spans !! i = Some si -> spans !! j = Some sj ->
    ParentSpanID sj = SpanID si -> (i < j)%nat.

(** [Reach spans a x]: [x] is [a] or the identifier of a span of the input
    that descends from [a] through parent identifiers. *)
Inductive Reach (spans : list RecordedSpan) (a : N) : N -> Prop :=
  | Reach_refl : Reach spans a a
  | Reach_child d :
      d ∈ spans -> Reach spans a (ParentSpanID d) -> Reach spans a (SpanID d).

(** The order of the spans, and of the spans with their positions, by
    start time. *)
Definition byStartTime (a b : RecordedSpan) : Prop := StartTime a <= StartTime b.
Definition byStart (a b : spanWithIndex) : Prop := byStartTime (sw_span a) (sw_span b).
(** The order of log entries by time. *)
Definition byTime (a b : RecordedSpan_LogRecord) : Prop := Time a <= Time b.

(** The error names a span that has its parent in the input. *)
Definition namesChild (allSpans : list RecordedSpan) (e : error) : Prop :=
  exists c p, c ∈ allSpans /\ p ∈ allSpans /\ ParentSpanID c = SpanID p /\
              e = ErrDuplicateSpan (SpanID c).

(** The number of rows that the span of a row has in the table. *)
Definition rowsOfSpan (r : logRecordRow) : nat :=
  S (length (Logs (sw_span (lrr_span r)))).

(** A root span with a log entry at the sentinel time. *)
Definition lateSpans : list RecordedSpan :=
  [ mkSpan 1 0 "root" 10 5 [mkLogRecord maxTime [mkField "event" "late"]] ].

(** A span that is recorded before its parent, a root. *)
Definition childFirst : list RecordedSpan :=
  [ mkSpan 2 1 "child" 20 5 []; mkSpan 1 0 "root" 10 50 [] ].


(** The rows of the open span and of its child, before they are split. *)
Definition openRoot : spanWithIndex :=
  mkSpanWithIndex
    (mkSpan 7 0 "open" 10 0 [mkLogRecord 40 [mkField "event" "sql/exec.go:12 [n1] done"]]) 0.
Definition openChild : spanWithIndex := mkSpanWithIndex (mkSpan 8 7 "finished" 20 5 []) 1.
Definition openLogRows : list logRecordRow :=
  [ mkLogRecordRow 10 "=== SPAN START: open ===" openRoot 0;
    mkLogRecordRow 20 "=== SPAN START: finished ===" openChild 0;
    mkLogRecordRow 40 "sql/exec.go:12 [n1] done" openRoot 1 ].

(** ** Messages and first errors *)

(** The field carries the message of the event. *)
Definition isMessageField (f : LogRecord_Field) : Prop :=
  Key f = "event" \/ Key f = "error".

(** The first error of a run that starts with [firstError]. *)
Definition orElse {E : Type} (firstError r : option E) : option E :=
  match firstError with
  | Some e => Some e
  | None => r
  end.

(** * Properties of the reduction *)

(** ** Successful computations *)

Lemma bind_Ok {A B} (o : outcome A) (f : A -> outcome B) (b : B) :
  o ≫= f = Ok b -> exists a, o = Ok a /\ f a = Ok b.
Proof. destruct o; simpl; intros H; try discriminate. eauto. Qed.

Lemma bind_pair_Ok {A S B} (o : outcome (A * S)) (f : A -> S -> outcome B) (b : B) :
  o ≫= (λ '(a, s), f a s) = Ok b -> exists a s, o = Ok (a, s) /\ f a s = Ok b.
Proof. destruct o as [[a s]| | |]; simpl; intros H; try discriminate. eauto. Qed.

(** ** The merge loop, equation by equation *)

Section merge_equations.
Context (recur : spanWithIndex -> gset N -> outcome subtrace)
        (span : spanWithIndex).

Lemma mergeLogs_done i seen :
  mergeLogs recur span [] i [] seen = Ok ([], seen).
Proof. reflexivity. Qed.

Lemma mergeLogs_only_logs l logs i seen :
  mergeLogs recur span (l :: logs) i [] seen =
  if Time l <? maxTime
  then '(rows, seen') ← mergeLogs recur span logs (S i) [] seen;
       Ok (logRow span i l :: rows, seen')
  else Panic.
Proof. reflexivity. Qed.

Lemma mergeLogs_only_children i c cs seen :
  mergeLogs recur span [] i (c :: cs) seen =
  if maxTime <? StartTime (sw_span c)
  then Panic
  else '(childMsgs, seen1) ← recur c seen;
       '(rows, seen') ← mergeLogs recur span [] i cs seen1;
       Ok (childMsgs ++ rows, seen').
Proof. reflexivity. Qed.

Lemma mergeLogs_both l logs i c cs seen :
  mergeLogs recur span (l :: logs) i (c :: cs) seen =
  if Time l <? StartTime (sw_span c)
  then '(rows, seen') ← mergeLogs recur span logs (S i) (c :: cs) seen;
       Ok (logRow span i l :: rows, seen')
  else '(childMsgs, seen1) ← recur c seen;
       '(rows, seen') ← mergeLogs recur span (l :: logs) i cs seen1;
       Ok (childMsgs ++ rows, seen').
Proof. reflexivity. Qed.
End merge_equations.

(** ** The loop and the merge agree *)

Lemma mergeLoop_O recur span childSpans i j allLogs seen :
  mergeLoop recur span childSpans 0 i j allLogs seen =
  if (Nat.ltb i (length (Logs (sw_span span))) || Nat.ltb j (length childSpans))%bool
  then OutOfFuel else Ok (allLogs, seen).
Proof. reflexivity. Qed.

Lemma mergeLoop_S recur span childSpans n i j allLogs seen :
  mergeLoop recur span childSpans (S n) i j allLogs seen =
  if (Nat.ltb i (length (Logs (sw_span span))) || Nat.ltb j (length childSpans))%bool
  then
    let logTime :=
      match Logs (sw_span span) !! i with Some l => Time l | None => maxTime end in
    let childTime :=
      match childSpans !! j with Some c => StartTime (sw_span c) | None => maxTime end in
    if logTime <? childTime then
      match Logs (sw_span span) !! i with
      | Some l =>
          mergeLoop recur span childSpans n (S i) j (allLogs ++ [logRow span i l]) seen
      | None => Panic
      end
    else
      match childSpans !! j with
      | Some c =>
          '(childMsgs, seen1) ← recur c seen;
          mergeLoop recur span childSpans n i (S j) (allLogs ++ childMsgs) seen1
      | None => Panic
      end
  else Ok (allLogs, seen).
Proof. reflexivity. Qed.

Lemma cursor_in_range {A} (l : list A) (i : nat) (x : A) :
  l !! i = Some x -> Nat.ltb i (length l) = true /\ drop i l = x :: drop (S i) l.
Proof.
  intros Hx. split; [by apply Nat.ltb_lt, lookup_lt_is_Some|].
  by apply drop_S.
Qed.

Lemma cursor_exhausted {A} (l : list A) (i : nat) :
  l !! i = None -> Nat.ltb i (length l) = false /\ drop i l = [].
Proof.
  intros Hx%lookup_ge_None. split; [by apply Nat.ltb_ge | by apply drop_ge].
Qed.

(** With a budget of at least what remains of the two slices, the loop
    appends to [allLogs] the rows of the merge of what remains. *)
Lemma mergeLoop_mergeLogs recur span childSpans : forall n i j allLogs seen,
  (length (Logs (sw_span span)) - i + (length childSpans - j) <= n)%nat ->
  mergeLoop recur span childSpans n i j allLogs seen =
  '(rows, seen') ← mergeLogs recur span (drop i (Logs (sw_span span))) i
                     (drop j childSpans) seen;
  Ok (allLogs ++ rows, seen').
Proof.
  induction n as [|n IH]; intros i j allLogs seen Hn.
  - rewrite mergeLoop_O.
    destruct (cursor_exhausted (Logs (sw_span span)) i) as [-> ->];
      [apply lookup_ge_None; lia|].
    destruct (cursor_exhausted childSpans j) as [-> ->];
      [apply lookup_ge_None; lia|].
    rewrite mergeLogs_done. simpl. by rewrite app_nil_r.
  - rewrite mergeLoop_S.
    destruct (Logs (sw_span span) !! i) as [l|] eqn:Hl;
      destruct (childSpans !! j) as [c|] eqn:Hc.
    + destruct (cursor_in_range _ _ _ Hl) as [-> Hdl].
      destruct (cursor_in_range _ _ _ Hc) as [-> Hdc].
      apply lookup_lt_Some in Hl as Hli. apply lookup_lt_Some in Hc as Hcj.
      rewrite Hdl, Hdc, mergeLogs_both. cbn zeta.
      destruct (Time l <? StartTime (sw_span c)).
      * rewrite IH by lia. rewrite Hdc.
        destruct (mergeLogs recur span (drop (S i) (Logs (sw_span span))) (S i)
                    (c :: drop (S j) childSpans) seen) as [[rows s]| | |];
          simpl; [|done..]. by rewrite <- (assoc app).
      * destruct (recur c seen) as [[b s1]| | |]; simpl; [|done..].
        rewrite IH by lia. rewrite Hdl.
        destruct (mergeLogs recur span (l :: drop (S i) (Logs (sw_span span))) i
                    (drop (S j) childSpans) s1) as [[rows s]| | |];
          simpl; [|done..]. by rewrite <- (assoc app).
    + destruct (cursor_in_range _ _ _ Hl) as [-> Hdl].
      destruct (cursor_exhausted _ _ Hc) as [-> Hdc].
      apply lookup_lt_Some in Hl as Hli.
      rewrite Hdl, Hdc, mergeLogs_only_logs. cbn zeta. simpl orb. cbn iota.
      destruct (Time l <? maxTime); [|done].
      rewrite IH by lia. rewrite Hdc.
      destruct (mergeLogs recur span (drop (S i) (Logs (sw_span span))) (S i) [] seen)
        as [[rows s]| | |]; simpl; [|done..]. by rewrite <- (assoc app).
    + destruct (cursor_exhausted _ _ Hl) as [-> Hdl].
      destruct (cursor_in_range _ _ _ Hc) as [-> Hdc].
      apply lookup_lt_Some in Hc as Hcj.
      rewrite Hdl, Hdc, mergeLogs_only_children. cbn zeta. simpl orb. cbn iota.
      destruct (maxTime <? StartTime (sw_span c)); [done|].
      destruct (recur c seen) as [[b s1]| | |]; simpl; [|done..].
      rewrite IH by lia. rewrite Hdl.
      destruct (mergeLogs recur span [] i (drop (S j) childSpans) s1)
        as [[rows s]| | |]; simpl; [|done..]. by rewrite <- (assoc app).
    + destruct (cursor_exhausted _ _ Hl) as [-> ->].
      destruct (cursor_exhausted _ _ Hc) as [-> ->].
      rewrite mergeLogs_done. simpl. by rewrite app_nil_r.
Qed.

(** A loop that returns rows had the budget for what remained. *)
Lemma mergeLoop_budget recur span childSpans : forall n i j allLogs seen res,
  mergeLoop recur span childSpans n i j allLogs seen = Ok res ->
  (length (Logs (sw_span span)) - i + (length childSpans - j) <= n)%nat.
Proof.
  induction n as [|n IH]; intros i j allLogs seen res H.
  - rewrite mergeLoop_O in H.
    destruct (Nat.ltb_spec i (length (Logs (sw_span span))));
      destruct (Nat.ltb_spec j (length childSpans)); simpl in H;
      try discriminate; lia.
  - rewrite mergeLoop_S in H.
    destruct (Logs (sw_span span) !! i) as [l|] eqn:Hl;
      destruct (childSpans !! j) as [c|] eqn:Hc.
    + destruct (cursor_in_range _ _ _ Hl) as [Hi _]. rewrite Hi in H.
      simpl orb in H. cbn iota zeta in H.
      apply lookup_lt_Some in Hl, Hc.
      destruct (Time l <? StartTime (sw_span c)).
      * apply IH in H. lia.
      * apply bind_pair_Ok in H as (b & s1 & _ & H). apply IH in H. lia.
    + destruct (cursor_in_range _ _ _ Hl) as [Hi _]. rewrite Hi in H.
      simpl orb in H. cbn iota zeta in H.
      apply lookup_lt_Some in Hl. apply lookup_ge_None in Hc.
      destruct (Time l <? maxTime); [|discriminate].
      apply IH in H. lia.
    + destruct (cursor_exhausted _ _ Hl) as [Hi _].
      destruct (cursor_in_range _ _ _ Hc) as [Hj _]. rewrite Hi, Hj in H.
      simpl orb in H. cbn iota zeta in H.
      apply lookup_ge_None in Hl. apply lookup_lt_Some in Hc.
      destruct (maxTime <? StartTime (sw_span c)); [discriminate|].
      apply bind_pair_Ok in H as (b & s1 & _ & H). apply IH in H. lia.
    + apply lookup_ge_None in Hl, Hc. lia.
Qed.

(** [getMessagesForSubtrace], with the loop as a merge. *)
Lemma getMessagesForSubtrace_unfold fuel allSpans span seen :
  getMessagesForSubtrace (S fuel) allSpans span seen =
  if decide (SpanID (sw_span span) ∈ seen)
  then Err (ErrDuplicateSpan (SpanID (sw_span span)))
  else
    '(rows, seen') ← mergeLogs (getMessagesForSubtrace fuel allSpans) span
                       (Logs (sw_span span)) 0
                       (getOrderedChildSpans (SpanID (sw_span span)) allSpans)
                       ({[SpanID (sw_span span)]} ∪ seen);
    Ok (spanStartRow span :: rows, seen').
Proof.
  cbn [getMessagesForSubtrace].
  destruct (decide (SpanID (sw_span span) ∈ seen)); [done|].
  cbn zeta. rewrite mergeLoop_mergeLogs by lia. by rewrite !drop_0.
Qed.

(** ** The shape of a successful merge *)

Lemma mergeLogs_Ok recur span logs : forall i childSpans seen rows seen',
  mergeLogs recur span logs i childSpans seen = Ok (rows, seen') ->
  exists blocks,
    RunChildren recur childSpans seen blocks seen' /\
    Interleave (logRows span i logs) blocks rows.
Proof.
  induction logs as [|l logs IHlogs]; intros i childSpans;
    induction childSpans as [|c cs IHcs]; intros seen rows seen' H.
  - rewrite mergeLogs_done in H. injection H as <- <-.
    exists []. split; constructor.
  - rewrite mergeLogs_only_children in H.
    destruct (maxTime <? StartTime (sw_span c)); [discriminate|].
    apply bind_pair_Ok in H as (b & seen1 & Hrec & H).
    apply bind_pair_Ok in H as (rest & seen2 & Hrest & H).
    injection H as <- <-.
    destruct (IHcs _ _ _ Hrest) as (blocks & Hrun & Hint).
    exists (b :: blocks). split; econstructor; eauto.
  - rewrite mergeLogs_only_logs in H.
    destruct (Time l <? maxTime); [|discriminate].
    apply bind_pair_Ok in H as (rest & seen2 & Hrest & H).
    injection H as <- <-.
    destruct (IHlogs _ _ _ _ _ Hrest) as (blocks & Hrun & Hint).
    exists blocks. split; [exact Hrun|]. simpl. by constructor.
  - rewrite mergeLogs_both in H.
    destruct (Time l <? StartTime (sw_span c)).
    + apply bind_pair_Ok in H as (rest & seen2 & Hrest & H).
      injection H as <- <-.
      destruct (IHlogs _ _ _ _ _ Hrest) as (blocks & Hrun & Hint).
      exists blocks. split; [exact Hrun|]. simpl. by constructor.
    + apply bind_pair_Ok in H as (b & seen1 & Hrec & H).
      apply bind_pair_Ok in H as (rest & seen2 & Hrest & H).
      injection H as <- <-.
      destruct (IHcs _ _ _ Hrest) as (blocks & Hrun & Hint).
      exists (b :: blocks). split; econstructor; eauto.
Qed.

Lemma Interleave_Permutation {A} (own : list A) blocks out :
  Interleave own blocks out -> out ≡ₚ own ++ concat blocks.
Proof.
  induction 1 as [|x own blocks out _ IH|own b blocks out _ IH]; simpl.
  - done.
  - by rewrite IH.
  - rewrite IH. rewrite !(assoc app). f_equiv. apply Permutation_app_comm.
Qed.

Lemma elem_of_concat {A} (x : A) (ls : list (list A)) :
  x ∈ concat ls <-> exists l, l ∈ ls /\ x ∈ l.
Proof.
  induction ls as [|l ls IH]; simpl.
  - split; [by intros ?%elem_of_nil | by intros (l & ?%elem_of_nil & _)].
  - rewrite elem_of_app, IH. split.
    + intros [Hx | (l' & Hl' & Hx)].
      * exists l. split; [apply list_elem_of_here | done].
      * exists l'. split; [by apply list_elem_of_further | done].
    + intros (l' & [-> | Hl']%elem_of_cons & Hx); [by left|].
      right. by exists l'.
Qed.

(** A block stays in one piece in the merged output. *)
Lemma Interleave_block_contiguous {A} (own : list A) blocks out b :
  Interleave own blocks out -> b ∈ blocks ->
  exists pre post, out = pre ++ b ++ post.
Proof.
  induction 1 as [|x own blocks out _ IH|own b' blocks out _ IH]; intros Hb.
  - by apply elem_of_nil in Hb.
  - destruct (IH Hb) as (pre & post & ->). by exists (x :: pre), post.
  - apply elem_of_cons in Hb as [-> | Hb].
    + by exists [], out.
    + destruct (IH Hb) as (pre & post & ->).
      exists (b' ++ pre), post. by rewrite (assoc app).
Qed.

(** Two blocks keep their order and do not overlap. *)
Lemma Interleave_blocks_ordered {A} (own : list A) blocks out bs1 ba bs2 bb bs3 :
  Interleave own blocks out ->
  blocks = bs1 ++ ba :: bs2 ++ bb :: bs3 ->
  exists pre mid post, out = pre ++ ba ++ mid ++ bb ++ post.
Proof.
  intros H. revert bs1.
  induction H as [|x own blocks out _ IH|own b' blocks out Hint IH];
    intros bs1 Heq.
  - by destruct bs1.
  - destruct (IH _ Heq) as (pre & mid & post & ->).
    by exists (x :: pre), mid, post.
  - destruct bs1 as [|b1 bs1]; simpl in Heq; injection Heq as -> ->.
    + destruct (Interleave_block_contiguous _ _ _ bb Hint) as (mid & post & ->).
      { apply elem_of_app. right. apply list_elem_of_here. }
      by exists [], mid, post.
    + destruct (IH _ eq_refl) as (pre & mid & post & ->).
      exists (b1 ++ pre), mid, post. by rewrite (assoc app).
Qed.

(** ** Invariants of a successful expansion *)

Lemma startedIDs_app rows1 rows2 :
  startedIDs (rows1 ++ rows2) = startedIDs rows1 ++ startedIDs rows2.
Proof. unfold startedIDs. by rewrite filter_app, fmap_app. Qed.

Lemma elem_of_startedIDs x rows :
  x ∈ startedIDs rows -> exists r, r ∈ rows /\ rowID r = x.
Proof.
  unfold startedIDs. intros (r & -> & Hr)%list_elem_of_fmap.
  apply list_elem_of_filter in Hr as [_ Hr]. by exists r.
Qed.

Lemma Good_nil allSpans seen : Good allSpans seen [] seen.
Proof.
  split; try (by intros r ?%elem_of_nil).
  - intros x. split; [by left|]. by intros [?|(r & ?%elem_of_nil & _)].
  - constructor.
Qed.

Lemma Good_app allSpans s0 rows1 s1 rows2 s2 :
  Good allSpans s0 rows1 s1 -> Good allSpans s1 rows2 s2 ->
  Good allSpans s0 (rows1 ++ rows2) s2.
Proof.
  intros G1 G2. split.
  - intros x. rewrite (good_seen _ _ _ _ G2), (good_seen _ _ _ _ G1). split.
    + intros [[?|(r & ? & ?)]|(r & ? & ?)]; [by left| |];
        right; exists r; (split; [apply elem_of_app; auto | done]).
    + intros [?|(r & [?|?]%elem_of_app & ?)]; [by left; left| |]; eauto.
  - intros r [Hr|Hr]%elem_of_app; [by apply (good_fresh _ _ _ _ G1)|].
    intros Hs. apply (good_fresh _ _ _ _ G2 r Hr).
    apply (good_seen _ _ _ _ G1). by left.
  - intros r [Hr|Hr]%elem_of_app;
      [by apply (good_wf _ _ _ _ G1) | by apply (good_wf _ _ _ _ G2)].
  - intros r [Hr|Hr]%elem_of_app; apply elem_of_app;
      [left; by apply (good_start _ _ _ _ G1)
      |right; by apply (good_start _ _ _ _ G2)].
  - intros r [Hr|Hr]%elem_of_app;
      [by apply (good_index0 _ _ _ _ G1) | by apply (good_index0 _ _ _ _ G2)].
  - rewrite startedIDs_app. apply NoDup_app. split; [apply G1|].
    split; [|apply G2].
    intros x (r1 & Hr1 & <-)%elem_of_startedIDs (r2 & Hr2 & Heq)%elem_of_startedIDs.
    apply (good_fresh _ _ _ _ G2 r2 Hr2). rewrite Heq.
    apply (good_seen _ _ _ _ G1). right. by exists r1.
Qed.

Lemma Good_perm allSpans seen rows rows' seen' :
  rows ≡ₚ rows' -> Good allSpans seen rows seen' -> Good allSpans seen rows' seen'.
Proof.
  intros Hp G. split.
  - intros x. rewrite (good_seen _ _ _ _ G).
    by setoid_rewrite Hp.
  - intros r Hr. rewrite <- Hp in Hr. by apply (good_fresh _ _ _ _ G).
  - intros r Hr. rewrite <- Hp in Hr. by apply (good_wf _ _ _ _ G).
  - intros r Hr. rewrite <- Hp in Hr |- *. by apply (good_start _ _ _ _ G).
  - intros r Hr. rewrite <- Hp in Hr. by apply (good_index0 _ _ _ _ G).
  - unfold startedIDs. rewrite <- Hp. apply G.
Qed.

Lemma Good_subseteq allSpans seen rows seen' :
  Good allSpans seen rows seen' -> seen ⊆ seen'.
Proof. intros G x Hx. apply (good_seen _ _ _ _ G). by left. Qed.

Lemma elem_of_logRows r span logs : forall i,
  r ∈ logRows span i logs ->
  exists k l, r = logRow span k l /\ (i <= k)%nat /\ logs !! (k - i)%nat = Some l.
Proof.
  induction logs as [|l logs IH]; intros i Hr; simpl in Hr.
  - by apply elem_of_nil in Hr.
  - apply elem_of_cons in Hr as [-> | Hr].
    + exists i, l. split; [done|]. split; [lia|]. by rewrite Nat.sub_diag.
    + destruct (IH _ Hr) as (k & l' & -> & Hle & Hk).
      exists k, l'. split; [done|]. split; [lia|].
      replace (k - i)%nat with (S (k - S i)) by lia. done.
Qed.

Lemma filter_isStart_logRows span logs i : filter isStart (logRows span i logs) = [].
Proof.
  revert i. induction logs as [|l logs IH]; intros i; simpl; [done|].
  rewrite filter_cons_False; [apply IH|]. unfold isStart. simpl. lia.
Qed.

Lemma elem_of_childSpansFrom c spanID spans : forall i,
  c ∈ childSpansFrom spanID i spans ->
  (i <= sw_index c)%nat /\ spans !! (sw_index c - i)%nat = Some (sw_span c) /\
  ParentSpanID (sw_span c) = spanID.
Proof.
  induction spans as [|sp spans IH]; intros i Hc; simpl in Hc.
  - by apply elem_of_nil in Hc.
  - assert (c ∈ childSpansFrom spanID (S i) spans ->
            (i <= sw_index c)%nat /\
            (sp :: spans) !! (sw_index c - i)%nat = Some (sw_span c) /\
            ParentSpanID (sw_span c) = spanID) as Hrest.
    { intros (Hle & Hl & Hp)%IH. split; [lia|]. split; [|done].
      replace (sw_index c - i)%nat with (S (sw_index c - S i)) by lia. done. }
    destruct (N.eqb_spec (ParentSpanID sp) spanID) as [Heq|Hne]; [|auto].
    apply elem_of_cons in Hc as [-> | Hc]; [|auto].
    simpl. split; [lia|]. by rewrite Nat.sub_diag.
Qed.

Lemma childSpansFrom_complete spanID spans : forall i k sp,
  spans !! k = Some sp -> ParentSpanID sp = spanID ->
  mkSpanWithIndex sp (i + k) ∈ childSpansFrom spanID i spans.
Proof.
  induction spans as [|sp0 spans IH]; intros i k sp Hk Hp; [done|].
  simpl. destruct k as [|k]; simpl in Hk.
  - injection Hk as ->. rewrite Nat.add_0_r.
    apply N.eqb_eq in Hp. rewrite Hp. apply list_elem_of_here.
  - replace (i + S k)%nat with (S i + k)%nat by lia.
    destruct (N.eqb (ParentSpanID sp0) spanID);
      [apply list_elem_of_further|]; by apply IH.
Qed.

Lemma getOrderedChildSpans_spec c spanID allSpans :
  c ∈ getOrderedChildSpans spanID allSpans <->
  wf_span allSpans c /\ ParentSpanID (sw_span c) = spanID.
Proof.
  unfold getOrderedChildSpans, wf_span. split.
  - intros (_ & Hl & Hp)%elem_of_childSpansFrom.
    by rewrite Nat.sub_0_r in Hl.
  - intros [Hl Hp]. destruct c as [sp k]; simpl in *.
    by apply (childSpansFrom_complete spanID allSpans 0 k sp).
Qed.

Lemma getMessagesForSubtrace_Ok fuel allSpans span seen rows seen' :
  getMessagesForSubtrace fuel allSpans span seen = Ok (rows, seen') ->
  exists fuel' rows0,
    fuel = S fuel' /\ (SpanID (sw_span span) ∉ seen) /\
    rows = spanStartRow span :: rows0 /\
    mergeLogs (getMessagesForSubtrace fuel' allSpans) span (Logs (sw_span span)) 0
      (getOrderedChildSpans (SpanID (sw_span span)) allSpans)
      ({[SpanID (sw_span span)]} ∪ seen) = Ok (rows0, seen').
Proof.
  destruct fuel as [|fuel']; [discriminate|].
  rewrite getMessagesForSubtrace_unfold.
  destruct (decide (SpanID (sw_span span) ∈ seen)) as [|Hnot]; [discriminate|].
  intros H. apply bind_pair_Ok in H as (rows0 & s & Hm & H).
  injection H as <- <-. by exists fuel', rows0.
Qed.

Lemma RunChildren_Good allSpans recur cs seen blocks seen' :
  (forall c s b s', wf_span allSpans c -> recur c s = Ok (b, s') ->
                    Good allSpans s b s') ->
  Forall (wf_span allSpans) cs ->
  RunChildren recur cs seen blocks seen' ->
  Good allSpans seen (concat blocks) seen'.
Proof.
  intros Hrec Hwf Hrun.
  induction Hrun as [seen|c cs seen b seen1 blocks seen' Hc _ IH]; simpl.
  - apply Good_nil.
  - apply Forall_cons in Hwf as [Hc_wf Hcs_wf].
    eapply Good_app; [by eapply Hrec | by apply IH].
Qed.

(** The rows of the span itself: the start row and the rows of its log. *)
Lemma Good_own allSpans span seen :
  wf_span allSpans span -> SpanID (sw_span span) ∉ seen ->
  Good allSpans seen (spanStartRow span :: logRows span 0 (Logs (sw_span span)))
       ({[SpanID (sw_span span)]} ∪ seen).
Proof.
  intros Hwf Hfresh.
  assert (forall r, r ∈ spanStartRow span :: logRows span 0 (Logs (sw_span span)) ->
                    lrr_span r = span) as Hspan.
  { intros r [-> | Hr]%elem_of_cons; [done|].
    by destruct (elem_of_logRows _ _ _ _ Hr) as (k & l & -> & _). }
  split.
  - intros x. rewrite elem_of_union, elem_of_singleton. split.
    + intros [-> | ?]; [right | by left].
      exists (spanStartRow span). split; [apply list_elem_of_here | done].
    + intros [? | (r & Hr & <-)]; [by right | left].
      unfold rowID. by rewrite (Hspan r Hr).
  - intros r Hr. unfold rowID. by rewrite (Hspan r Hr).
  - intros r Hr. by rewrite (Hspan r Hr).
  - intros r Hr. rewrite (Hspan r Hr). apply list_elem_of_here.
  - intros r [-> | Hr]%elem_of_cons Hstart; [done|].
    destruct (elem_of_logRows _ _ _ _ Hr) as (k & l & -> & _).
    unfold isStart in Hstart. simpl in Hstart. lia.
  - unfold startedIDs.
    rewrite filter_cons_True by done.
    rewrite filter_isStart_logRows. simpl. apply NoDup_singleton.
Qed.

Theorem getMessagesForSubtrace_Good fuel : forall allSpans span seen rows seen',
  wf_span allSpans span ->
  getMessagesForSubtrace fuel allSpans span seen = Ok (rows, seen') ->
  Good allSpans seen rows seen'.
Proof.
  induction fuel as [|fuel IH]; intros allSpans span seen rows seen' Hwf H;
    apply getMessagesForSubtrace_Ok in H
      as (fuel' & rows0 & Hfuel & Hfresh & -> & Hmerge); [discriminate|].
  injection Hfuel as <-.
  apply mergeLogs_Ok in Hmerge as (blocks & Hrun & Hint).
  eapply Good_perm.
  { apply Permutation_cons; [done|]. symmetry. by apply Interleave_Permutation. }
  apply (Good_app _ _ (_ :: _) ({[SpanID (sw_span span)]} ∪ seen)).
  - by apply Good_own.
  - eapply RunChildren_Good; [|  |exact Hrun].
    + intros c s b s' Hc Hb. by eapply IH.
    + apply Forall_forall. by intros c [? _]%getOrderedChildSpans_spec.
Qed.

(** ** The top-level loop *)

Lemma collectLogs_Good fuel allSpans spans : forall spanIdx seen rows,
  (forall k sp, spans !! k = Some sp -> allSpans !! (spanIdx + k)%nat = Some sp) ->
  collectLogs fuel allSpans spans spanIdx seen = Ok rows ->
  exists seen', Good allSpans seen rows seen' /\
                forall sp, sp ∈ spans -> SpanID sp ∈ seen'.
Proof.
  induction spans as [|span rest IH]; intros spanIdx seen rows Hsuffix H; simpl in H.
  - injection H as <-. exists seen. split; [apply Good_nil|].
    by intros sp ?%elem_of_nil.
  - assert (forall k sp, rest !! k = Some sp ->
                         allSpans !! (S spanIdx + k)%nat = Some sp) as Hrest.
    { intros k sp Hk. replace (S spanIdx + k)%nat with (spanIdx + S k)%nat by lia.
      by apply Hsuffix. }
    destruct (decide (SpanID span ∈ seen)) as [Hseen|Hfresh].
    + destruct (IH _ _ _ Hrest H) as (seen' & G & Hall).
      exists seen'. split; [done|].
      intros sp [-> | Hsp]%elem_of_cons; [|by apply Hall].
      by apply (Good_subseteq _ _ _ _ G).
    + apply bind_pair_Ok in H as (msgs & seen1 & Hsub & H).
      apply bind_Ok in H as (more & Hmore & H). injection H as <-.
      apply getMessagesForSubtrace_Good in Hsub as G1.
      2:{ unfold wf_span; simpl. specialize (Hsuffix 0%nat span eq_refl).
          by rewrite Nat.add_0_r in Hsuffix. }
      destruct (IH _ _ _ Hrest Hmore) as (seen' & G2 & Hall).
      exists seen'. split; [by eapply Good_app|].
      intros sp [-> | Hsp]%elem_of_cons; [|by apply Hall].
      apply (Good_subseteq _ _ _ _ G2), (good_seen _ _ _ _ G1). right.
      apply getMessagesForSubtrace_Ok in Hsub as (? & rows0 & _ & _ & -> & _).
      exists (spanStartRow (mkSpanWithIndex span spanIdx)).
      split; [apply list_elem_of_here | done].
Qed.

(** ** The log message expression matches every text *)

Lemma unfailing_Eps : unfailing Eps.
Proof. intros k Hk pos s c. apply Hk. Qed.

Lemma unfailing_Star r : unfailing (Star r).
Proof.
  intros k Hk pos s c. simpl.
  destruct (List.length s) as [|n]; [apply Hk|].
  match goal with |- is_Some (match ?m with _ => _ end) => destruct m end;
    [done | apply Hk].
Qed.

Lemma unfailing_Opt r : unfailing (Opt r).
Proof.
  intros k Hk pos s c. simpl.
  destruct (rmatch r pos s c k); [done | apply Hk].
Qed.

Lemma unfailing_Cat r1 r2 : unfailing r1 -> unfailing r2 -> unfailing (Cat r1 r2).
Proof. intros H1 H2 k Hk pos s c. simpl. by apply H1, H2. Qed.

Lemma unfailing_Group n r : unfailing r -> unfailing (Group n r).
Proof.
  intros H k Hk pos s c. simpl.
  apply (H (λ pos' s' c', k pos' s' (setCap n (pos, pos') c'))).
  intros pos' s' c'. apply Hk.
Qed.

Lemma matchAt_logMessageRE s : is_Some (matchAt logMessageGroups logMessageRE 0 s).
Proof.
  unfold matchAt, logMessageRE.
  change (rmatch (Group 0 (Cat Bot ?r)) 0 s ?c ?k)
    with (rmatch r 0 s c (λ pos' s' c', k pos' s' (setCap 0 (0, pos')%nat c'))).
  match goal with |- is_Some (rmatch ?r 0 s ?c ?k) =>
    assert (unfailing r) as Hr
  end.
  { repeat (apply unfailing_Cat || apply unfailing_Group
            || apply unfailing_Star || apply unfailing_Opt). }
  apply Hr. intros pos' s' c'. done.
Qed.

Theorem logMessageRE_matches (msg : string) :
  is_Some (FindStringSubmatchIndex logMessageGroups logMessageRE msg).
Proof.
  unfold FindStringSubmatchIndex.
  destruct (matchAt_logMessageRE (list_ascii_of_string msg)) as [c Hc].
  destruct (list_ascii_of_string msg); cbn [findFrom]; by rewrite Hc.
Qed.

(** ** The rows of the table *)

Lemma toTraceRow_Ok lrr : exists row, toTraceRow lrr = Ok row.
Proof.
  unfold toTraceRow.
  destruct (logMessageRE_matches (lrr_msg lrr)) as [loc ->]. eauto.
Qed.

Lemma toTraceRows_Ok allLogs : exists res, toTraceRows allLogs = Ok res.
Proof.
  induction allLogs as [|lrr rest [res IH]]; simpl; [eauto|].
  destruct (toTraceRow_Ok lrr) as [row ->]. simpl. rewrite IH. simpl. eauto.
Qed.

Lemma toTraceRows_Forall2 allLogs : forall res,
  toTraceRows allLogs = Ok res ->
  Forall2 (λ lrr row, toTraceRow lrr = Ok row) allLogs res.
Proof.
  induction allLogs as [|lrr rest IH]; intros res H; simpl in H.
  - injection H as <-. constructor.
  - apply bind_Ok in H as (row & Hrow & H).
    apply bind_Ok in H as (res' & Hres & H). injection H as <-.
    constructor; auto.
Qed.

Lemma toTraceRows_app l1 l2 res :
  toTraceRows (l1 ++ l2) = Ok res ->
  exists res1 res2, res = res1 ++ res2 /\
                    toTraceRows l1 = Ok res1 /\ toTraceRows l2 = Ok res2.
Proof.
  revert res. induction l1 as [|lrr l1 IH]; intros res H; simpl in H.
  - by exists [], res.
  - apply bind_Ok in H as (row & Hrow & H).
    apply bind_Ok in H as (res' & Hres & H). injection H as <-.
    destruct (IH _ Hres) as (res1 & res2 & -> & H1 & H2).
    exists (row :: res1), res2. simpl. by rewrite Hrow, H1.
Qed.

(** ** The only error of the first loop is the duplicate-span error *)

Lemma bind_Err {A B} (o : outcome A) (f : A -> outcome B) (e : error) :
  o ≫= f = Err e -> o = Err e \/ exists a, o = Ok a /\ f a = Err e.
Proof.
  destruct o; simpl; intros H; try discriminate; [right; eauto|].
  injection H as ->. by left.
Qed.

Lemma mergeLogs_Err recur span logs : forall i childSpans seen e,
  (forall c s e, recur c s = Err e -> isDuplicateSpan e) ->
  mergeLogs recur span logs i childSpans seen = Err e -> isDuplicateSpan e.
Proof.
  induction logs as [|l logs IHlogs]; intros i childSpans;
    induction childSpans as [|c cs IHcs]; intros seen e Hrec H.
  - discriminate.
  - rewrite mergeLogs_only_children in H.
    destruct (maxTime <? StartTime (sw_span c)); [discriminate|].
    apply bind_Err in H as [H | ([b s1] & _ & H)]; [by eapply Hrec|].
    apply bind_Err in H as [H | ([rows s2] & _ & H)]; [by eapply IHcs|].
    discriminate.
  - rewrite mergeLogs_only_logs in H.
    destruct (Time l <? maxTime); [|discriminate].
    apply bind_Err in H as [H | ([rows s2] & _ & H)]; [by eapply IHlogs|].
    discriminate.
  - rewrite mergeLogs_both in H.
    destruct (Time l <? StartTime (sw_span c)).
    + apply bind_Err in H as [H | ([rows s2] & _ & H)]; [by eapply IHlogs|].
      discriminate.
    + apply bind_Err in H as [H | ([b s1] & _ & H)]; [by eapply Hrec|].
      apply bind_Err in H as [H | ([rows s2] & _ & H)]; [by eapply IHcs|].
      discriminate.
Qed.

Lemma getMessagesForSubtrace_Err fuel : forall allSpans span seen e,
  getMessagesForSubtrace fuel allSpans span seen = Err e -> isDuplicateSpan e.
Proof.
  induction fuel as [|fuel IH]; intros allSpans span seen e H; [discriminate|].
  rewrite getMessagesForSubtrace_unfold in H.
  destruct (decide (SpanID (sw_span span) ∈ seen)).
  - injection H as <-. by eexists.
  - apply bind_Err in H as [H | ([rows s2] & _ & H)]; [|discriminate].
    eapply mergeLogs_Err; [|exact H]. intros c s e'. apply IH.
Qed.

Lemma collectLogs_Err fuel allSpans spans : forall spanIdx seen e,
  collectLogs fuel allSpans spans spanIdx seen = Err e -> isDuplicateSpan e.
Proof.
  induction spans as [|span rest IH]; intros spanIdx seen e H; simpl in H;
    [discriminate|].
  destruct (decide (SpanID span ∈ seen)); [by eapply IH|].
  apply bind_Err in H as [H | ([msgs s1] & _ & H)];
    [by eapply getMessagesForSubtrace_Err|].
  apply bind_Err in H as [H | (rows & _ & H)]; [by eapply IH | discriminate].
Qed.

Lemma generateWithFuel_Err fuel spans e :
  generateWithFuel fuel spans = Err e -> isDuplicateSpan e.
Proof.
  unfold generateWithFuel. intros H.
  apply bind_Err in H as [H | (allLogs & _ & H)]; [by eapply collectLogs_Err|].
  destruct (toTraceRows_Ok allLogs) as [res Hres]. congruence.
Qed.

(** ** The recursion budget

    A call that does not fail at once adds the identifier of its span, one
    of the identifiers of the input, to [seenSpans]; the identifiers of the
    input that are not yet seen bound the depth of the recursion. *)

Lemma size_list_to_set_le (l : list N) :
  (size (list_to_set l : gset N) <= length l)%nat.
Proof.
  induction l as [|x l IH].
  - by rewrite list_to_set_nil, size_empty.
  - rewrite list_to_set_cons, size_union_alt, size_singleton. simpl.
    assert (size (list_to_set l ∖ {[x]} : gset N) <= size (list_to_set l : gset N))%nat
      by (apply subseteq_size; set_solver).
    lia.
Qed.

Lemma wf_span_allIDs allSpans span :
  wf_span allSpans span -> SpanID (sw_span span) ∈ allIDs allSpans.
Proof.
  intros Hwf. apply elem_of_list_to_set, list_elem_of_fmap.
  exists (sw_span span). split; [done|]. by eapply list_elem_of_lookup_2.
Qed.

Lemma mergeLogs_fuel recur span logs : forall i childSpans seen,
  (forall c s, c ∈ childSpans -> seen ⊆ s -> recur c s <> OutOfFuel) ->
  (forall c s b s', c ∈ childSpans -> recur c s = Ok (b, s') -> s ⊆ s') ->
  mergeLogs recur span logs i childSpans seen <> OutOfFuel.
Proof.
  assert (forall A B (o : outcome (A * gset N)) (f : A -> gset N -> outcome B),
            o <> OutOfFuel ->
            (forall a s, o = Ok (a, s) -> f a s <> OutOfFuel) ->
            o ≫= (λ '(a, s), f a s) <> OutOfFuel) as Hbind.
  { intros A B [[a s]| | |] f Ho Hf; simpl; try done. by apply Hf. }
  induction logs as [|l logs IHlogs]; intros i childSpans;
    induction childSpans as [|c cs IHcs]; intros seen Hrec Hmono.
  - done.
  - rewrite mergeLogs_only_children.
    destruct (maxTime <? StartTime (sw_span c)); [done|].
    apply Hbind; [apply Hrec; [apply list_elem_of_here | done]|].
    intros b s1 Hb. apply Hbind; [|done].
    assert (seen ⊆ s1) by (eapply Hmono; [apply list_elem_of_here | done]).
    apply IHcs.
    + intros c' s Hc' Hs. apply Hrec; [by apply list_elem_of_further|].
      by transitivity s1.
    + intros c' s b' s' Hc'. apply Hmono. by apply list_elem_of_further.
  - rewrite mergeLogs_only_logs.
    destruct (Time l <? maxTime); [|done].
    apply Hbind; [by apply IHlogs | done].
  - rewrite mergeLogs_both.
    destruct (Time l <? StartTime (sw_span c)).
    + apply Hbind; [by apply IHlogs | done].
    + apply Hbind; [apply Hrec; [apply list_elem_of_here | done]|].
      intros b s1 Hb. apply Hbind; [|done].
      assert (seen ⊆ s1) by (eapply Hmono; [apply list_elem_of_here | done]).
      apply IHcs.
      * intros c' s Hc' Hs. apply Hrec; [by apply list_elem_of_further|].
        by transitivity s1.
      * intros c' s b' s' Hc'. apply Hmono. by apply list_elem_of_further.
Qed.

Lemma getMessagesForSubtrace_fuel fuel : forall allSpans span seen,
  wf_span allSpans span ->
  (size (allIDs allSpans ∖ seen) < fuel)%nat ->
  getMessagesForSubtrace fuel allSpans span seen <> OutOfFuel.
Proof.
  induction fuel as [|fuel IH]; intros allSpans span seen Hwf Hsize; [lia|].
  rewrite getMessagesForSubtrace_unfold.
  destruct (decide (SpanID (sw_span span) ∈ seen)) as [|Hfresh]; [done|].
  match goal with |- ?m ≫= _ <> _ =>
    assert (m <> OutOfFuel) as Hm; [|by destruct m as [[? ?]| | |]] end.
  apply mergeLogs_fuel.
  - intros c s [Hc _]%getOrderedChildSpans_spec Hs. apply IH; [done|].
    assert (allIDs allSpans ∖ s ⊂ allIDs allSpans ∖ seen) as Hsub.
    { apply wf_span_allIDs in Hwf. set_solver. }
    apply subset_size in Hsub. lia.
  - intros c s b s' [Hc _]%getOrderedChildSpans_spec Hb.
    eapply Good_subseteq, getMessagesForSubtrace_Good; eauto.
Qed.

Lemma collectLogs_fuel fuel allSpans spans : forall spanIdx seen,
  (forall k sp, spans !! k = Some sp -> allSpans !! (spanIdx + k)%nat = Some sp) ->
  (size (allIDs allSpans ∖ seen) < fuel)%nat ->
  collectLogs fuel allSpans spans spanIdx seen <> OutOfFuel.
Proof.
  induction spans as [|span rest IH]; intros spanIdx seen Hsuffix Hsize; simpl;
    [done|].
  assert (forall k sp, rest !! k = Some sp ->
                       allSpans !! (S spanIdx + k)%nat = Some sp) as Hrest.
  { intros k sp Hk. replace (S spanIdx + k)%nat with (spanIdx + S k)%nat by lia.
    by apply Hsuffix. }
  destruct (decide (SpanID span ∈ seen)); [by apply IH|].
  assert (wf_span allSpans (mkSpanWithIndex span spanIdx)) as Hwf.
  { unfold wf_span; simpl. specialize (Hsuffix 0%nat span eq_refl).
    by rewrite Nat.add_0_r in Hsuffix. }
  pose proof (getMessagesForSubtrace_fuel fuel allSpans _ seen Hwf Hsize) as Hsub.
  destruct (getMessagesForSubtrace fuel allSpans _ seen) as [[msgs s1]| | |] eqn:E;
    simpl; try done.
  apply getMessagesForSubtrace_Good in E; [|done].
  assert (collectLogs fuel allSpans rest (S spanIdx) s1 <> OutOfFuel) as Hnext.
  { apply IH; [done|].
    assert (size (allIDs allSpans ∖ s1) <= size (allIDs allSpans ∖ seen))%nat.
    { apply subseteq_size. apply Good_subseteq in E. set_solver. }
    lia. }
  by destruct (collectLogs fuel allSpans rest (S spanIdx) s1).
Qed.

Lemma generateWithFuel_fuel fuel spans :
  (length spans < fuel)%nat -> generateWithFuel fuel spans <> OutOfFuel.
Proof.
  intros Hfuel. unfold generateWithFuel.
  assert (collectLogs fuel spans spans 0 ∅ <> OutOfFuel) as Hc.
  { apply collectLogs_fuel; [done|].
    assert (size (allIDs spans ∖ ∅) <= size (allIDs spans))%nat
      by (apply subseteq_size; set_solver).
    pose proof (size_list_to_set_le (SpanID <$> spans)) as Hle.
    rewrite length_fmap in Hle. unfold allIDs in *. lia. }
  destruct (collectLogs fuel spans spans 0 ∅) as [allLogs| | |]; simpl; try done.
  destruct (toTraceRows_Ok allLogs) as [res ->]. done.
Qed.

(** A larger budget does not change a result. *)
Lemma mergeLogs_mono recur1 recur2 span logs : forall i childSpans seen,
  (forall c s, recur1 c s <> OutOfFuel -> recur2 c s = recur1 c s) ->
  mergeLogs recur1 span logs i childSpans seen <> OutOfFuel ->
  mergeLogs recur2 span logs i childSpans seen =
  mergeLogs recur1 span logs i childSpans seen.
Proof.
  intros i childSpans seen Hrec. revert i childSpans seen.
  induction logs as [|l logs IHlogs]; intros i childSpans;
    induction childSpans as [|c cs IHcs]; intros seen H.
  - done.
  - rewrite !mergeLogs_only_children in *.
    destruct (maxTime <? StartTime (sw_span c)); [done|].
    destruct (recur1 c seen) as [[b s1]| | |] eqn:E1; simpl in H; [| | |done];
      (rewrite (Hrec c seen) by (by rewrite E1)); rewrite E1; simpl; [|done..].
    rewrite IHcs; [done|].
    by destruct (mergeLogs recur1 span [] i cs s1) as [[? ?]| | |].
  - rewrite !mergeLogs_only_logs in *.
    destruct (Time l <? maxTime); [|done].
    rewrite IHlogs; [done|].
    by destruct (mergeLogs recur1 span logs (S i) [] seen) as [[? ?]| | |].
  - rewrite !mergeLogs_both in *.
    destruct (Time l <? StartTime (sw_span c)).
    + rewrite IHlogs; [done|].
      by destruct (mergeLogs recur1 span logs (S i) (c :: cs) seen) as [[? ?]| | |].
    + destruct (recur1 c seen) as [[b s1]| | |] eqn:E1; simpl in H; [| | |done];
        (rewrite (Hrec c seen) by (by rewrite E1)); rewrite E1; simpl; [|done..].
      rewrite IHcs; [done|].
      by destruct (mergeLogs recur1 span (l :: logs) i cs s1) as [[? ?]| | |].
Qed.

Lemma getMessagesForSubtrace_mono fuel1 : forall fuel2 allSpans span seen,
  (fuel1 <= fuel2)%nat ->
  getMessagesForSubtrace fuel1 allSpans span seen <> OutOfFuel ->
  getMessagesForSubtrace fuel2 allSpans span seen =
  getMessagesForSubtrace fuel1 allSpans span seen.
Proof.
  induction fuel1 as [|fuel1 IH]; intros fuel2 allSpans span seen Hle H; [done|].
  destruct fuel2 as [|fuel2]; [lia|]. rewrite !getMessagesForSubtrace_unfold in *.
  destruct (decide (SpanID (sw_span span) ∈ seen)); [done|].
  rewrite (mergeLogs_mono (getMessagesForSubtrace fuel1 allSpans)
                          (getMessagesForSubtrace fuel2 allSpans)); [done| |].
  - intros c s Hc. apply IH; [lia | done].
  - match type of H with ?m ≫= _ <> _ => by destruct m as [[? ?]| | |] end.
Qed.

Lemma collectLogs_mono fuel1 fuel2 allSpans spans : forall spanIdx seen,
  (fuel1 <= fuel2)%nat ->
  collectLogs fuel1 allSpans spans spanIdx seen <> OutOfFuel ->
  collectLogs fuel2 allSpans spans spanIdx seen =
  collectLogs fuel1 allSpans spans spanIdx seen.
Proof.
  induction spans as [|span rest IH]; intros spanIdx seen Hle H; simpl in *;
    [done|].
  destruct (decide (SpanID span ∈ seen)); [by apply IH|].
  destruct (getMessagesForSubtrace fuel1 allSpans _ seen) as [[msgs s1]| | |] eqn:E1;
    (rewrite getMessagesForSubtrace_mono with (fuel1 := fuel1);
       rewrite ?E1; [|done..]); simpl in *; try done.
  rewrite IH; [done..|].
  by destruct (collectLogs fuel1 allSpans rest (S spanIdx) s1).
Qed.

(** ** Every child of an expanded span is expanded *)

Lemma RunChildren_child recur cs seen blocks seen' c :
  RunChildren recur cs seen blocks seen' -> c ∈ cs ->
  exists b s1 s2, b ∈ blocks /\ recur c s1 = Ok (b, s2).
Proof.
  induction 1 as [seen|c' cs seen b seen1 blocks seen' Hc _ IH]; intros Hin.
  - by apply elem_of_nil in Hin.
  - apply elem_of_cons in Hin as [-> | Hin].
    + exists b, seen, seen1. split; [apply list_elem_of_here | done].
    + destruct (IH Hin) as (b' & s1 & s2 & Hb' & Hrec).
      exists b', s1, s2. split; [by apply list_elem_of_further | done].
Qed.

Lemma RunChildren_block recur cs seen blocks seen' b :
  RunChildren recur cs seen blocks seen' -> b ∈ blocks ->
  exists c s1 s2, c ∈ cs /\ recur c s1 = Ok (b, s2).
Proof.
  induction 1 as [seen|c' cs seen b' seen1 blocks seen' Hc _ IH]; intros Hin.
  - by apply elem_of_nil in Hin.
  - apply elem_of_cons in Hin as [-> | Hin].
    + exists c', seen, seen1. split; [apply list_elem_of_here | done].
    + destruct (IH Hin) as (c & s1 & s2 & Hc' & Hrec).
      exists c, s1, s2. split; [by apply list_elem_of_further | done].
Qed.

Lemma RunChildren_app recur cs1 cs2 seen blocks seen' :
  RunChildren recur (cs1 ++ cs2) seen blocks seen' ->
  exists blocks1 blocks2 mid,
    blocks = blocks1 ++ blocks2 /\
    RunChildren recur cs1 seen blocks1 mid /\
    RunChildren recur cs2 mid blocks2 seen'.
Proof.
  revert seen blocks. induction cs1 as [|c cs1 IH]; intros seen blocks H; simpl in H.
  - exists [], blocks, seen. split; [done|]. split; [constructor | done].
  - inversion H as [|? ? ? b seen1 blocks' ? Hc Hrest]; subst.
    destruct (IH _ _ Hrest) as (blocks1 & blocks2 & mid & -> & H1 & H2).
    exists (b :: blocks1), blocks2, mid. split; [done|].
    split; [by econstructor | done].
Qed.

Lemma ChildrenStarted_app allSpans rows1 rows2 :
  ChildrenStarted allSpans rows1 -> ChildrenStarted allSpans rows2 ->
  ChildrenStarted allSpans (rows1 ++ rows2).
Proof.
  intros H1 H2 r c [Hr|Hr]%elem_of_app Hc; apply elem_of_app;
    [left; by eapply H1 | right; by eapply H2].
Qed.

Lemma getMessagesForSubtrace_ChildrenStarted fuel :
  forall allSpans span seen rows seen',
    getMessagesForSubtrace fuel allSpans span seen = Ok (rows, seen') ->
    ChildrenStarted allSpans rows.
Proof.
  induction fuel as [|fuel IH]; intros allSpans span seen rows seen' H;
    apply getMessagesForSubtrace_Ok in H
      as (fuel' & rows0 & Hfuel & Hfresh & -> & Hmerge); [discriminate|].
  injection Hfuel as <-.
  apply mergeLogs_Ok in Hmerge as (blocks & Hrun & Hint).
  apply Interleave_Permutation in Hint as Hperm.
  assert (forall x, (exists b, b ∈ blocks /\ x ∈ b) -> x ∈ spanStartRow span :: rows0)
    as Hblocks.
  { intros x Hx. apply list_elem_of_further. rewrite Hperm.
    apply elem_of_app. right. by apply elem_of_concat. }
  assert (forall c, c ∈ getOrderedChildSpans (SpanID (sw_span span)) allSpans ->
                    spanStartRow c ∈ spanStartRow span :: rows0) as Hown.
  { intros c Hc.
    destruct (RunChildren_child _ _ _ _ _ c Hrun Hc) as (b & s1 & s2 & Hb & Hrec).
    apply Hblocks. exists b. split; [done|].
    apply getMessagesForSubtrace_Ok in Hrec as (? & ? & _ & _ & -> & _).
    apply list_elem_of_here. }
  intros r c Hr Hc.
  apply elem_of_cons in Hr as [-> | Hr]; [by apply Hown|].
  rewrite Hperm in Hr. apply elem_of_app in Hr as [Hr | Hr].
  - destruct (elem_of_logRows _ _ _ _ Hr) as (k & l & -> & _). by apply Hown.
  - apply elem_of_concat in Hr as (b & Hb & Hr).
    destruct (RunChildren_block _ _ _ _ _ b Hrun Hb) as (c' & s1 & s2 & _ & Hrec).
    apply Hblocks. exists b. split; [done|]. by eapply IH.
Qed.

Lemma collectLogs_ChildrenStarted fuel allSpans spans : forall spanIdx seen rows,
  collectLogs fuel allSpans spans spanIdx seen = Ok rows ->
  ChildrenStarted allSpans rows.
Proof.
  induction spans as [|span rest IH]; intros spanIdx seen rows H; simpl in H.
  - injection H as <-. by intros r c ?%elem_of_nil.
  - destruct (decide (SpanID span ∈ seen)); [by eapply IH|].
    apply bind_pair_Ok in H as (msgs & seen1 & Hsub & H).
    apply bind_Ok in H as (more & Hmore & H). injection H as <-.
    apply ChildrenStarted_app; [|by eapply IH].
    by eapply getMessagesForSubtrace_ChildrenStarted.
Qed.

Lemma NoDup_fmap_elem_inj {A B} (f : A -> B) (l : list A) x y :
  NoDup (f <$> l) -> x ∈ l -> y ∈ l -> f x = f y -> x = y.
Proof.
  induction l as [|a l IH]; intros Hnd Hx Hy Hf; [by apply elem_of_nil in Hx|].
  rewrite fmap_cons in Hnd. apply NoDup_cons in Hnd as [Ha Hnd].
  apply elem_of_cons in Hx as [-> | Hx]; apply elem_of_cons in Hy as [-> | Hy].
  - done.
  - exfalso. apply Ha. rewrite Hf. by apply list_elem_of_fmap_2.
  - exfalso. apply Ha. rewrite <- Hf. by apply list_elem_of_fmap_2.
  - by apply IH.
Qed.

Lemma generateWithFuel_Ok fuel spans res :
  generateWithFuel fuel spans = Ok res ->
  exists rows seen',
    collectLogs fuel spans spans 0 ∅ = Ok rows /\ toTraceRows rows = Ok res /\
    Good spans ∅ rows seen' /\ ChildrenStarted spans rows /\
    forall sp, sp ∈ spans -> SpanID sp ∈ seen'.
Proof.
  unfold generateWithFuel. intros H.
  apply bind_Ok in H as (rows & Hrows & Hres).
  destruct (collectLogs_Good fuel spans spans 0 ∅ rows) as (seen' & G & Hall);
    [done..|].
  exists rows, seen'. repeat split; try done; try apply G.
  by eapply collectLogs_ChildrenStarted.
Qed.

(** * Duplicate span identifiers *)

Example dupRoots_rows :
  generateSessionTraceVTable dupRoots =
  Ok [ {| span_idx := DInt 0; message_idx := DInt 0;
          timestamp := DTimestampTZ 10; duration := DInterval 5;
          operation := DString "first"; location := DString "";
          tag := DString ""; message := DString "=== SPAN START: first ===" |} ].
Proof. vm_compute. reflexivity. Qed.

(** C1, as stated, fails: the second of two root spans with the same
    identifier is skipped by the top-level loop, and the reduction returns
    the rows of the first one without an error. *)
Lemma duplicate_root_silently_dropped : ~ duplicatesRejected dupRoots.
Proof.
  intros H. destruct H as [e He].
  - exists 0%nat, 1%nat, (mkSpan 1 0 "first" 10 5 []), (mkSpan 1 0 "second" 20 5 []).
    repeat split; done.
  - rewrite dupRoots_rows in He. discriminate.
Qed.

(** C1, amended: when two spans of the input share an identifier and each of
    them has a parent identifier that is the identifier of a span of the
    input, the reduction returns no rows: it ends with the duplicate-span
    error, unless it stops before with the index panic of a timestamp beyond
    the sentinel. *)
Theorem duplicate_children_rejected spans a b sa sb pa pb :
  a <> b ->
  spans !! a = Some sa -> spans !! b = Some sb ->
  SpanID sa = SpanID sb ->
  pa ∈ spans -> SpanID pa = ParentSpanID sa ->
  pb ∈ spans -> SpanID pb = ParentSpanID sb ->
  (exists id, generateSessionTraceVTable spans = Err (ErrDuplicateSpan id)) \/
  generateSessionTraceVTable spans = Panic.
Proof.
  intros Hab Ha Hb Hid Hpa Hpa_id Hpb Hpb_id.
  unfold generateSessionTraceVTable.
  pose proof (generateWithFuel_fuel (S (length spans)) spans (Nat.lt_succ_diag_r _))
    as Hfuel.
  destruct (generateWithFuel (S (length spans)) spans) as [res|e| |] eqn:E;
    [exfalso| |by right|done].
  2:{ left. apply generateWithFuel_Err in E as [id ->]. by exists id. }
  apply generateWithFuel_Ok in E as (rows & seen' & _ & _ & G & Hstarted & Hall).
  assert (forall s k p, spans !! k = Some s -> p ∈ spans ->
                        SpanID p = ParentSpanID s ->
                        spanStartRow (mkSpanWithIndex s k) ∈ rows) as Hrow.
  { intros s k p Hk Hp Hp_id.
    apply Hall, (good_seen _ _ _ _ G) in Hp as [Hp | (r & Hr & Hr_id)];
      [by apply not_elem_of_empty in Hp|].
    apply (Hstarted r); [done|].
    apply getOrderedChildSpans_spec. split; [done|]. simpl. congruence. }
  pose proof (Hrow sa a pa Ha Hpa Hpa_id) as Hra.
  pose proof (Hrow sb b pb Hb Hpb Hpb_id) as Hrb.
  assert (spanStartRow (mkSpanWithIndex sa a) = spanStartRow (mkSpanWithIndex sb b))
    as Heq.
  { apply (NoDup_fmap_elem_inj rowID (filter isStart rows)).
    - apply G.
    - by apply list_elem_of_filter.
    - by apply list_elem_of_filter.
    - done. }
  apply (f_equal (λ r, sw_index (lrr_span r))) in Heq. simpl in Heq. done.
Qed.

Lemma duplicate_children_rejected_witness :
  (exists id, generateSessionTraceVTable dupChildren = Err (ErrDuplicateSpan id)) \/
  generateSessionTraceVTable dupChildren = Panic.
Proof.
  apply (duplicate_children_rejected dupChildren 1 2
           (mkSpan 2 1 "child" 20 5 []) (mkSpan 2 1 "child again" 30 5 [])
           (mkSpan 1 0 "root" 10 50 []) (mkSpan 1 0 "root" 10 50 []));
    try reflexivity; try lia; apply list_elem_of_here.
Defined.

(** * Ties between a log entry and a child span *)

Example tieSpans_rows :
  generateSessionTraceVTable tieSpans =
  Ok [ {| span_idx := DInt 0; message_idx := DInt 0;
          timestamp := DTimestampTZ 10; duration := DInterval 50;
          operation := DString "root"; location := DString "";
          tag := DString ""; message := DString "=== SPAN START: root ===" |};
       {| span_idx := DInt 1; message_idx := DInt 0;
          timestamp := DTimestampTZ 20; duration := DInterval 5;
          operation := DString "child"; location := DString "";
          tag := DString ""; message := DString "=== SPAN START: child ===" |};
       {| span_idx := DInt 0; message_idx := DInt 1;
          timestamp := DTimestampTZ 20; duration := DNull;
          operation := DNull; location := DString "";
          tag := DString ""; message := DString "tick" |} ].
Proof. vm_compute. reflexivity. Qed.

(** C2, as stated, fails: on a tie the start row of the child (row 1) comes
    before the row of the log entry (row 2). *)
Lemma tie_emits_child_first : ~ logBeforeChildOnTie tieSpans.
Proof.
  intros H.
  destruct (H _ 0%nat 1%nat tieRoot tieChild 0%nat
              (mkLogRecord 20 [mkField "event" "tick"]) tieSpans_rows
              eq_refl eq_refl eq_refl eq_refl eq_refl)
    as (k1 & k2 & r1 & r2 & Hlt & Hk1 & Hk2 & Hs1 & Hm1 & Hs2 & Hm2).
  destruct k1 as [|[|[|k1]]]; simpl in Hk1; try discriminate;
    injection Hk1 as <-; simpl in Hs1, Hm1; try discriminate.
  destruct k2 as [|[|[|k2]]]; simpl in Hk2; try discriminate; lia.
Qed.

(** C2, amended: in the merge loop of a span, when the time of the head log
    entry is not strictly before the start time of the head child, and so
    when the two are equal, the iteration takes the child: the whole block
    of the child, which begins with its start row, is appended first, and
    the row of the log entry comes in what follows (ties favor the child;
    the log entry goes first only when it is strictly earlier). *)
Theorem tie_takes_child fuel allSpans span childSpans n i j allLogs seen l c
    rows seen' :
  Logs (sw_span span) !! i = Some l ->
  childSpans !! j = Some c ->
  StartTime (sw_span c) <= Time l ->
  mergeLoop (getMessagesForSubtrace fuel allSpans) span childSpans n i j allLogs seen
    = Ok (rows, seen') ->
  exists n' childMsgs seen1 rest,
    n = S n' /\
    getMessagesForSubtrace fuel allSpans c seen = Ok (childMsgs, seen1) /\
    mergeLoop (getMessagesForSubtrace fuel allSpans) span childSpans n' i (S j)
      (allLogs ++ childMsgs) seen1 = Ok (rows, seen') /\
    head childMsgs = Some (spanStartRow c) /\
    rows = allLogs ++ childMsgs ++ rest /\
    logRow span i l ∈ rest.
Proof.
  intros Hl Hc Htie H.
  destruct (cursor_in_range _ _ _ Hl) as [Hi Hdl].
  destruct n as [|n'].
  { rewrite mergeLoop_O, Hi in H. discriminate. }
  rewrite mergeLoop_S, Hi, Hl, Hc in H. cbn zeta in H. simpl orb in H. cbn iota in H.
  assert ((Time l <? StartTime (sw_span c)) = false) as Hcmp
    by (apply Z.ltb_ge; lia).
  rewrite Hcmp in H.
  apply bind_pair_Ok in H as (childMsgs & seen1 & Hchild & Hrest).
  exists n', childMsgs, seen1.
  pose proof (mergeLoop_budget _ _ _ _ _ _ _ _ _ Hrest) as Hbudget.
  pose proof Hrest as Hmerge. rewrite mergeLoop_mergeLogs in Hmerge by done.
  apply bind_pair_Ok in Hmerge as (rest & seen2 & Hmerge & Heq).
  injection Heq as <- <-. exists rest.
  split; [done|]. split; [done|]. split; [done|]. split.
  - by apply getMessagesForSubtrace_Ok in Hchild as (? & ? & _ & _ & -> & _).
  - split; [by rewrite (assoc app)|].
    apply mergeLogs_Ok in Hmerge as (blocks & _ & Hint).
    rewrite (Interleave_Permutation _ _ _ Hint), Hdl. simpl.
    apply list_elem_of_here.
Qed.

Lemma tie_takes_child_witness :
  exists rows seen',
    mergeLoop (getMessagesForSubtrace 2 tieSpans) (mkSpanWithIndex tieRoot 0)
      [mkSpanWithIndex tieChild 1] 2 0 0
      [spanStartRow (mkSpanWithIndex tieRoot 0)] {[1%N]} = Ok (rows, seen') /\
    exists n' childMsgs seen1 rest,
      2%nat = S n' /\
      getMessagesForSubtrace 2 tieSpans (mkSpanWithIndex tieChild 1) {[1%N]}
        = Ok (childMsgs, seen1) /\
      mergeLoop (getMessagesForSubtrace 2 tieSpans) (mkSpanWithIndex tieRoot 0)
        [mkSpanWithIndex tieChild 1] n' 0 1
        ([spanStartRow (mkSpanWithIndex tieRoot 0)] ++ childMsgs) seen1
        = Ok (rows, seen') /\
      head childMsgs = Some (spanStartRow (mkSpanWithIndex tieChild 1)) /\
      rows = [spanStartRow (mkSpanWithIndex tieRoot 0)] ++ childMsgs ++ rest /\
      logRow (mkSpanWithIndex tieRoot 0) 0 (mkLogRecord 20 [mkField "event" "tick"])
        ∈ rest.
Proof.
  eexists _, _. split.
  - vm_compute. reflexivity.
  - apply (tie_takes_child 2 tieSpans (mkSpanWithIndex tieRoot 0)
             [mkSpanWithIndex tieChild 1] 2 0 0
             [spanStartRow (mkSpanWithIndex tieRoot 0)] {[1%N]}
             (mkLogRecord 20 [mkField "event" "tick"]) (mkSpanWithIndex tieChild 1)).
    + reflexivity.
    + reflexivity.
    + simpl. lia.
    + vm_compute. reflexivity.
Defined.

(** * Determinism *)

(** C8: the result of the reduction is a function of the input sequence
    alone.  Every run whose recursion budget exceeds the number of spans
    ends with the same rows, the same error or the same panic as
    [generateSessionTraceVTable], and none of them exhausts its budget. *)
Theorem generateSessionTraceVTable_deterministic spans fuel1 fuel2 :
  (length spans < fuel1)%nat -> (length spans < fuel2)%nat ->
  generateWithFuel fuel1 spans = generateWithFuel fuel2 spans /\
  generateWithFuel fuel1 spans = generateSessionTraceVTable spans /\
  generateSessionTraceVTable spans <> OutOfFuel.
Proof.
  assert (forall fuel, (length spans < fuel)%nat ->
            generateWithFuel fuel spans = generateSessionTraceVTable spans) as Hsame.
  { intros fuel Hfuel. unfold generateSessionTraceVTable, generateWithFuel.
    rewrite (collectLogs_mono (S (length spans)) fuel); [done|lia|].
    apply collectLogs_fuel; [done|].
    assert (size (allIDs spans ∖ ∅) <= size (allIDs spans))%nat
      by (apply subseteq_size; set_solver).
    pose proof (size_list_to_set_le (SpanID <$> spans)) as Hle.
    rewrite length_fmap in Hle. unfold allIDs in *. lia. }
  intros H1 H2. split; [by rewrite !Hsame|]. split; [by apply Hsame|].
  apply generateWithFuel_fuel. lia.
Qed.

Lemma generateSessionTraceVTable_deterministic_witness :
  generateWithFuel 3 tieSpans = generateWithFuel 7 tieSpans /\
  generateWithFuel 3 tieSpans = generateSessionTraceVTable tieSpans /\
  generateSessionTraceVTable tieSpans <> OutOfFuel.
Proof.
  apply (generateSessionTraceVTable_deterministic tieSpans 3 7); simpl; lia.
Defined.

(** * Message decomposition *)

(** C9: [logMessageRE] matches every text, and no reduction ends with the
    "unable to split trace message" error. *)
Theorem message_split_never_fails :
  (forall msg : string,
     is_Some (FindStringSubmatchIndex logMessageGroups logMessageRE msg)) /\
  (forall lrr, exists row, toTraceRow lrr = Ok row) /\
  (forall spans msg,
     generateSessionTraceVTable spans <> Err (ErrUnableToSplit msg)).
Proof.
  split; [apply logMessageRE_matches|]. split; [apply toTraceRow_Ok|].
  intros spans msg H. apply generateWithFuel_Err in H as [id Hid]. discriminate.
Qed.

(** * Start rows *)

Lemma toTraceRow_inv lrr row :
  toTraceRow lrr = Ok row ->
  span_idx row = DInt (Z.of_nat (sw_index (lrr_span lrr))) /\
  message_idx row = DInt (Z.of_nat (lrr_index lrr)) /\
  operation row = (if Nat.eqb (lrr_index lrr) 0
                   then DString (Operation (sw_span (lrr_span lrr))) else DNull) /\
  duration row = (if (Nat.eqb (lrr_index lrr) 0
                      && negb (Duration (sw_span (lrr_span lrr)) =? 0))%bool
                  then DInterval (Duration (sw_span (lrr_span lrr))) else DNull).
Proof.
  unfold toTraceRow.
  destruct (FindStringSubmatchIndex _ _ _); [|discriminate].
  intros H. injection H as <-. done.
Qed.

Lemma toTraceRows_elem_of allLogs res row :
  toTraceRows allLogs = Ok res -> row ∈ res ->
  exists lrr, lrr ∈ allLogs /\ toTraceRow lrr = Ok row.
Proof.
  intros H%toTraceRows_Forall2 (i & Hi)%list_elem_of_lookup_1.
  destruct (Forall2_lookup_r _ _ _ _ _ H Hi) as (lrr & Hlrr & Hrow).
  exists lrr. split; [by eapply list_elem_of_lookup_2 | done].
Qed.

Lemma filter_nil_intro {A} (P : A -> Prop) `{!forall x, Decision (P x)} (l : list A) :
  (forall x, x ∈ l -> ~ P x) -> filter P l = [].
Proof.
  induction l as [|a l IH]; intros Hnot; [done|].
  rewrite filter_cons_False by (apply Hnot, list_elem_of_here).
  apply IH. intros x Hx. by apply Hnot, list_elem_of_further.
Qed.

(** Two rows of a successful run that belong to the same position of the
    input belong to the same span. *)
Lemma Good_same_index allSpans seen rows seen' r1 r2 :
  Good allSpans seen rows seen' -> r1 ∈ rows -> r2 ∈ rows ->
  sw_index (lrr_span r1) = sw_index (lrr_span r2) ->
  lrr_span r1 = lrr_span r2.
Proof.
  intros G H1 H2 Hidx.
  apply (good_wf _ _ _ _ G) in H1, H2. unfold wf_span in *.
  rewrite Hidx, H2 in H1. injection H1 as Hsp.
  destruct (lrr_span r1), (lrr_span r2); simpl in *. congruence.
Qed.

(** C7, as stated: the second of two root spans with the same identifier is
    skipped by the top-level loop and has no row at all, so no row with
    message index 0. *)
Lemma skipped_span_has_no_start_row : ~ everySpanHasStartRow dupRoots.
Proof.
  intros Hspec.
  specialize (Hspec _ 1%nat _ dupRoots_rows eq_refl). vm_compute in Hspec.
  discriminate Hspec.
Qed.

(** C7 (amended): in a successful output, every span that has rows has
    exactly one row with message index 0; the operation and the duration are
    null on every other row; on the row with index 0 the operation is the
    name of the span and the duration is null when the recorded duration is
    zero, whatever the children of the span.  Every span of the input has
    rows when the identifiers of the input are distinct; in general, for
    every span of the input some span with its identifier has rows: a span
    has no row only when the top-level loop skipped it because a span with
    the same identifier had been expanded. *)
Theorem start_row_invariant spans res :
  generateSessionTraceVTable spans = Ok res ->
  (forall row, row ∈ res ->
     length (filter (isStartRowOf (span_idx row)) res) = 1%nat) /\
  (forall row, row ∈ res -> message_idx row <> DInt 0 ->
     operation row = DNull /\ duration row = DNull) /\
  (forall row, row ∈ res -> message_idx row = DInt 0 ->
     exists i sp,
       span_idx row = DInt (Z.of_nat i) /\ spans !! i = Some sp /\
       operation row = DString (Operation sp) /\
       duration row = if Duration sp =? 0 then DNull else DInterval (Duration sp)) /\
  (NoDup (SpanID <$> spans) ->
   forall i sp, spans !! i = Some sp ->
     exists row, row ∈ res /\ span_idx row = DInt (Z.of_nat i)) /\
  (forall i sp, spans !! i = Some sp ->
     exists row j sp',
       row ∈ res /\ span_idx row = DInt (Z.of_nat j) /\
       spans !! j = Some sp' /\ SpanID sp' = SpanID sp).
Proof.
  intros H.
  apply generateWithFuel_Ok in H as (rows & seen' & _ & Hres & G & _ & Hall).
  split; [|split; [|split; [|split]]].
  - intros row Hrow.
    destruct (toTraceRows_elem_of _ _ _ Hres Hrow) as (r & Hr & Hr_row).
    apply toTraceRow_inv in Hr_row as (Hidx & _).
    pose proof (good_start _ _ _ _ G r Hr) as Hx.
    set (x := spanStartRow (lrr_span r)) in *.
    apply list_elem_of_split in Hx as (pre & post & Hsplit).
    pose proof (good_nodup _ _ _ _ G) as Hnd.
    rewrite Hsplit, startedIDs_app in Hnd. unfold startedIDs at 2 in Hnd.
    rewrite filter_cons_True, fmap_cons in Hnd by done.
    apply NoDup_app in Hnd as (_ & Hpre & Hpost).
    apply NoDup_cons in Hpost as [Hpost _].
    assert (forall y ry, toTraceRow ry = Ok y -> ry ∈ rows ->
              isStartRowOf (span_idx row) y -> ry = x) as Hstart.
    { intros y ry Hy Hry [Hy_idx Hy_msg].
      apply toTraceRow_inv in Hy as (Hy1 & Hy2 & _).
      rewrite Hy1, Hidx in Hy_idx. rewrite Hy2 in Hy_msg.
      injection Hy_idx as Hy_idx%Nat2Z.inj. injection Hy_msg as Hy_msg.
      assert (isStart ry) as Hry_start by (unfold isStart; lia).
      rewrite (good_index0 _ _ _ _ G ry Hry Hry_start). unfold x. f_equal.
      by eapply Good_same_index. }
    rewrite Hsplit in Hres.
    apply toTraceRows_app in Hres as (res1 & res2 & -> & Hres1 & Hres2).
    simpl in Hres2. apply bind_Ok in Hres2 as (rx & Hrx & Hres2).
    apply bind_Ok in Hres2 as (res3 & Hres3 & Hres2). injection Hres2 as <-.
    rewrite filter_app, filter_cons_True.
    2:{ apply toTraceRow_inv in Hrx as (Hrx1 & Hrx2 & _).
        split; [by rewrite Hrx1, Hidx | by rewrite Hrx2]. }
    rewrite !filter_nil_intro; [done| |].
    + intros y Hy HP.
      destruct (toTraceRows_elem_of _ _ _ Hres3 Hy) as (ry & Hry & Hry_row).
      assert (ry = x) as ->.
      { eapply Hstart; [done| |done]. rewrite Hsplit.
        apply elem_of_app. right. by apply list_elem_of_further. }
      apply Hpost. unfold startedIDs. apply list_elem_of_fmap_2.
      by apply list_elem_of_filter.
    + intros y Hy HP.
      destruct (toTraceRows_elem_of _ _ _ Hres1 Hy) as (ry & Hry & Hry_row).
      assert (ry = x) as ->.
      { eapply Hstart; [done| |done]. rewrite Hsplit.
        apply elem_of_app. by left. }
      apply (Hpre (rowID x)); [|apply list_elem_of_here].
      unfold startedIDs. apply list_elem_of_fmap_2.
      by apply list_elem_of_filter.
  - intros row Hrow Hmsg.
    destruct (toTraceRows_elem_of _ _ _ Hres Hrow) as (r & Hr & Hr_row).
    apply toTraceRow_inv in Hr_row as (_ & Hm & Hop & Hdur).
    destruct (lrr_index r) as [|n]; [by rewrite Hm in Hmsg|].
    by rewrite Hop, Hdur.
  - intros row Hrow Hmsg.
    destruct (toTraceRows_elem_of _ _ _ Hres Hrow) as (r & Hr & Hr_row).
    apply toTraceRow_inv in Hr_row as (Hidx & Hm & Hop & Hdur).
    rewrite Hm in Hmsg. injection Hmsg as Hmsg.
    destruct (lrr_index r) as [|n]; [|lia].
    exists (sw_index (lrr_span r)), (sw_span (lrr_span r)).
    split; [done|]. split; [by apply (good_wf _ _ _ _ G)|]. split; [done|].
    rewrite Hdur. simpl. by destruct (Duration (sw_span (lrr_span r)) =? 0).
  - intros Hnd i sp Hi.
    assert (sp ∈ spans) as Hsp by (by eapply list_elem_of_lookup_2).
    apply Hall, (good_seen _ _ _ _ G) in Hsp as [Hsp | (r & Hr & Hr_id)];
      [by apply not_elem_of_empty in Hsp|].
    pose proof (good_wf _ _ _ _ G r Hr) as Hwf. unfold wf_span in Hwf.
    assert (sw_index (lrr_span r) = i) as Hidx.
    { eapply NoDup_lookup; [exact Hnd| |].
      - rewrite list_lookup_fmap, Hwf. done.
      - rewrite list_lookup_fmap, Hi. simpl. by rewrite <- Hr_id. }
    apply list_elem_of_lookup_1 in Hr as (k & Hk).
    destruct (Forall2_lookup_l _ _ _ _ _ (toTraceRows_Forall2 _ _ Hres) Hk)
      as (row & Hrow & Hr_row).
    apply toTraceRow_inv in Hr_row as (Hrow_idx & _).
    exists row. split; [by eapply list_elem_of_lookup_2 | by rewrite Hrow_idx, Hidx].
  - intros i sp Hi.
    assert (sp ∈ spans) as Hsp by (by eapply list_elem_of_lookup_2).
    apply Hall, (good_seen _ _ _ _ G) in Hsp as [Hsp | (r & Hr & Hr_id)];
      [by apply not_elem_of_empty in Hsp|].
    pose proof (good_wf _ _ _ _ G r Hr) as Hwf. unfold wf_span in Hwf.
    apply list_elem_of_lookup_1 in Hr as (k & Hk).
    destruct (Forall2_lookup_l _ _ _ _ _ (toTraceRows_Forall2 _ _ Hres) Hk)
      as (row & Hrow & Hr_row).
    apply toTraceRow_inv in Hr_row as (Hrow_idx & _).
    exists row, (sw_index (lrr_span r)), (sw_span (lrr_span r)).
    split; [by eapply list_elem_of_lookup_2|]. by repeat split.
Qed.

Lemma start_row_invariant_witness :
  generateSessionTraceVTable openSpans = Ok openRows /\
  (forall row, row ∈ openRows ->
     length (filter (isStartRowOf (span_idx row)) openRows) = 1%nat) /\
  (forall row, row ∈ openRows -> message_idx row <> DInt 0 ->
     operation row = DNull /\ duration row = DNull) /\
  (forall row, row ∈ openRows -> message_idx row = DInt 0 ->
     exists i sp,
       span_idx row = DInt (Z.of_nat i) /\ openSpans !! i = Some sp /\
       operation row = DString (Operation sp) /\
       duration row = if Duration sp =? 0 then DNull else DInterval (Duration sp)) /\
  (NoDup (SpanID <$> openSpans) ->
   forall i sp, openSpans !! i = Some sp ->
     exists row, row ∈ openRows /\ span_idx row = DInt (Z.of_nat i)) /\
  (forall i sp, openSpans !! i = Some sp ->
     exists row j sp',
       row ∈ openRows /\ span_idx row = DInt (Z.of_nat j) /\
       openSpans !! j = Some sp' /\ SpanID sp' = SpanID sp).
Proof.
  assert (generateSessionTraceVTable openSpans = Ok openRows) as H
    by (vm_compute; reflexivity).
  split; [exact H|]. exact (start_row_invariant openSpans openRows H).
Defined.

(** * Sibling subtrees *)

(** A block of the merged output, and what surrounds it. *)
Lemma Interleave_block_split {A} (own : list A) blocks out : forall bs1 b bs2,
  Interleave own blocks out ->
  blocks = bs1 ++ b :: bs2 ->
  exists pre post,
    out = pre ++ b ++ post /\
    forall x, x ∈ pre ++ post -> x ∈ own \/ x ∈ concat (bs1 ++ bs2).
Proof.
  intros bs1 b bs2 H. revert bs1.
  induction H as [|x own blocks out Hint IH|own b' blocks out Hint IH];
    intros bs1 Heq.
  - by destruct bs1.
  - destruct (IH _ Heq) as (pre & post & -> & Hout).
    exists (x :: pre), post. split; [done|].
    intros y [-> | Hy]%elem_of_cons; [left; apply list_elem_of_here|].
    destruct (Hout y Hy) as [?|?]; [left; by apply list_elem_of_further | by right].
  - destruct bs1 as [|b1 bs1]; simpl in Heq; injection Heq as -> ->.
    + exists [], out. split; [done|]. simpl. intros x Hx.
      rewrite (Interleave_Permutation _ _ _ Hint) in Hx.
      by apply elem_of_app in Hx.
    + destruct (IH _ eq_refl) as (pre & post & -> & Hout).
      exists (b1 ++ pre), post. split; [by rewrite (assoc app)|].
      intros x Hx. rewrite <- (assoc app) in Hx.
      apply elem_of_app in Hx as [Hx | Hx].
      * right. simpl. apply elem_of_app. by left.
      * destruct (Hout x Hx) as [?|?]; [by left|].
        right. simpl. apply elem_of_app. by right.
Qed.

Lemma Interleave_two_blocks {A} (own : list A) blocks out : forall bs1 ba bs2 bb bs3,
  Interleave own blocks out ->
  blocks = bs1 ++ ba :: bs2 ++ bb :: bs3 ->
  exists pre mid post,
    out = pre ++ ba ++ mid ++ bb ++ post /\
    forall x, x ∈ pre ++ mid ++ post -> x ∈ own \/ x ∈ concat (bs1 ++ bs2 ++ bs3).
Proof.
  intros bs1 ba bs2 bb bs3 H. revert bs1.
  induction H as [|x own blocks out Hint IH|own b' blocks out Hint IH];
    intros bs1 Heq.
  - by destruct bs1.
  - destruct (IH _ Heq) as (pre & mid & post & -> & Hout).
    exists (x :: pre), mid, post. split; [done|].
    intros y [-> | Hy]%elem_of_cons; [left; apply list_elem_of_here|].
    destruct (Hout y Hy) as [?|?]; [left; by apply list_elem_of_further | by right].
  - destruct bs1 as [|b1 bs1]; simpl in Heq; injection Heq as -> ->.
    + destruct (Interleave_block_split _ _ _ bs2 bb bs3 Hint eq_refl)
        as (mid & post & -> & Hout).
      exists [], mid, post. split; [done|]. exact Hout.
    + destruct (IH _ eq_refl) as (pre & mid & post & -> & Hout).
      exists (b1 ++ pre), mid, post. split; [by rewrite (assoc app)|].
      intros x Hx. rewrite <- (assoc app) in Hx.
      apply elem_of_app in Hx as [Hx | Hx].
      * right. simpl. apply elem_of_app. by left.
      * destruct (Hout x Hx) as [?|?]; [by left|].
        right. simpl. apply elem_of_app. by right.
Qed.

Lemma Good_disjoint allSpans s0 rows1 s1 s1' rows2 s2 :
  Good allSpans s0 rows1 s1 -> s1 ⊆ s1' -> Good allSpans s1' rows2 s2 ->
  idsDisjoint rows1 rows2.
Proof.
  intros G1 Hsub G2 x y Hx Hy Heq.
  apply (good_fresh _ _ _ _ G2 y Hy). rewrite <- Heq.
  apply Hsub, (good_seen _ _ _ _ G1). right. by exists x.
Qed.

Lemma idsDisjoint_sym rows1 rows2 : idsDisjoint rows1 rows2 -> idsDisjoint rows2 rows1.
Proof. intros H x y Hx Hy Heq. by apply (H y x). Qed.

Lemma concat_app {A} (l1 l2 : list (list A)) :
  concat (l1 ++ l2) = concat l1 ++ concat l2.
Proof. induction l1 as [|x l1 IH]; simpl; [done|]. by rewrite IH, (assoc app). Qed.

(** The calls on the children, around the call on one of them. *)
Lemma RunChildren_split fuel allSpans cs1 c cs2 seen blocks seen' :
  Forall (wf_span allSpans) (cs1 ++ c :: cs2) ->
  RunChildren (getMessagesForSubtrace fuel allSpans) (cs1 ++ c :: cs2) seen blocks seen' ->
  exists bs1 b bs2 s1 s2,
    blocks = bs1 ++ b :: bs2 /\
    getMessagesForSubtrace fuel allSpans c s1 = Ok (b, s2) /\
    RunChildren (getMessagesForSubtrace fuel allSpans) cs1 seen bs1 s1 /\
    RunChildren (getMessagesForSubtrace fuel allSpans) cs2 s2 bs2 seen' /\
    Good allSpans seen (concat bs1) s1 /\
    Good allSpans s1 b s2 /\
    Good allSpans s2 (concat bs2) seen'.
Proof.
  intros Hwf Hrun.
  apply Forall_app in Hwf as [Hwf1 Hwf2]. apply Forall_cons in Hwf2 as [Hc Hwf2].
  apply RunChildren_app in Hrun as (bs1 & bs' & s1 & -> & Hrun1 & Hrun2).
  inversion Hrun2 as [|? ? ? b s2 bs2 ? Hcall Hrun3]; subst.
  assert (forall c s b s', wf_span allSpans c ->
            getMessagesForSubtrace fuel allSpans c s = Ok (b, s') ->
            Good allSpans s b s') as Hgood
    by (intros; by eapply getMessagesForSubtrace_Good).
  exists bs1, b, bs2, s1, s2.
  split; [done|]. split; [done|]. split; [done|]. split; [done|].
  split; [exact (RunChildren_Good _ _ _ _ _ _ Hgood Hwf1 Hrun1)|].
  split; [exact (Hgood _ _ _ _ Hc Hcall)
         |exact (RunChildren_Good _ _ _ _ _ _ Hgood Hwf2 Hrun3)].
Qed.

Lemma RunChildren_app_blocks recur cs seen bs1 bs2 seen' :
  RunChildren recur cs seen (bs1 ++ bs2) seen' ->
  exists cs1 cs2,
    cs = cs1 ++ cs2 /\ length cs1 = length bs1 /\ length cs2 = length bs2.
Proof.
  revert cs seen. induction bs1 as [|b bs1 IH]; intros cs seen H; simpl in H.
  - exists [], cs. split; [done|]. split; [done|].
    clear -H. induction H; simpl; [done | by f_equal].
  - inversion H as [|c cs' ? ? seen1 ? ? Hc Hrest]; subst.
    destruct (IH _ _ Hrest) as (cs1 & cs2 & -> & Hl1 & Hl2).
    exists (c :: cs1), cs2. simpl. by rewrite Hl1.
Qed.

(** Every row of a successful expansion lies in the block of the call that
    expanded its span; the block is in one piece, and the rows around it
    belong to other spans. *)
Lemma getMessagesForSubtrace_row_block fuel : forall allSpans span seen rows seen',
  wf_span allSpans span ->
  getMessagesForSubtrace fuel allSpans span seen = Ok (rows, seen') ->
  forall r, r ∈ rows ->
  exists pre blk post fuel1 s1 s2,
    rows = pre ++ blk ++ post /\
    getMessagesForSubtrace fuel1 allSpans (lrr_span r) s1 = Ok (blk, s2) /\
    idsDisjoint (pre ++ post) blk.
Proof.
  induction fuel as [|fuel IH]; intros allSpans span seen rows seen' Hwf Hcall r Hr;
    [discriminate|].
  assert (lrr_span r = span ->
          exists pre blk post fuel1 s1 s2,
            rows = pre ++ blk ++ post /\
            getMessagesForSubtrace fuel1 allSpans (lrr_span r) s1 = Ok (blk, s2) /\
            idsDisjoint (pre ++ post) blk) as Hown.
  { intros ->. exists [], rows, [], (S fuel), seen, seen'.
    split; [by rewrite app_nil_r|]. split; [done|].
    by intros x y ?%elem_of_nil. }
  apply getMessagesForSubtrace_Ok in Hcall
    as (fuel' & rows0 & Hfuel & Hfresh & -> & Hmerge).
  injection Hfuel as <-.
  apply mergeLogs_Ok in Hmerge as (blocks & Hrun & Hint).
  apply elem_of_cons in Hr as [-> | Hr]; [by apply Hown|].
  pose proof Hr as Hr'. rewrite (Interleave_Permutation _ _ _ Hint) in Hr'.
  apply elem_of_app in Hr' as [Hr' | Hr'].
  { destruct (elem_of_logRows _ _ _ _ Hr') as (k & l & -> & _). by apply Hown. }
  apply elem_of_concat in Hr' as (b & Hb & Hrb).
  apply list_elem_of_split in Hb as (bs1 & bs2 & ->).
  destruct (RunChildren_app_blocks _ _ _ _ _ _ Hrun) as (cs1 & cs2 & Hcs & Hl1 & Hl2).
  destruct cs2 as [|c cs2]; [discriminate|].
  rewrite Hcs in Hrun.
  assert (Forall (wf_span allSpans) (cs1 ++ c :: cs2)) as Hwfs.
  { rewrite <- Hcs. apply Forall_forall. by intros ? [? _]%getOrderedChildSpans_spec. }
  destruct (RunChildren_split _ _ _ _ _ _ _ _ Hwfs Hrun)
    as (bs1' & b' & bs2' & s1 & s2 & Hblocks & Hc & Hrun1 & _ & G1 & Gb & G2).
  assert (length bs1' = length bs1) as Hlen.
  { rewrite <- Hl1. clear -Hrun1. induction Hrun1; simpl; [done | by f_equal]. }
  apply app_inj_1 in Hblocks as [<- Hblocks]; [|done].
  injection Hblocks as <- <-.
  destruct (Interleave_block_split _ _ _ bs1 b bs2 Hint eq_refl)
    as (p1 & p2 & -> & Hout).
  apply Forall_app in Hwfs as [_ Hwfc]. apply Forall_cons in Hwfc as [Hwfc _].
  destruct (IH _ _ _ _ _ Hwfc Hc r Hrb)
    as (pre & blk & post & fuel1 & t1 & t2 & -> & Hblk & Hdisj).
  exists (spanStartRow span :: p1 ++ pre), blk, (post ++ p2), fuel1, t1, t2.
  split; [simpl; by rewrite <- !(assoc app)|]. split; [done|].
  assert (forall y, y ∈ blk ->
            (rowID y ∉ ({[SpanID (sw_span span)]} ∪ seen : gset N)) /\
            (y ∈ pre ++ blk ++ post)) as Hy.
  { intros y Hy.
    assert (y ∈ pre ++ blk ++ post) as Hyb.
    { apply elem_of_app. right. apply elem_of_app. by left. }
    split; [|done]. intros Hin.
    apply (good_fresh _ _ _ _ Gb y Hyb), (Good_subseteq _ _ _ _ G1), Hin. }
  assert (forall x y, x ∈ p1 ++ p2 -> y ∈ blk -> rowID x <> rowID y) as Hp.
  { intros x y Hx Hyblk Heq. destruct (Hy y Hyblk) as [Hy_fresh Hyb].
    destruct (Hout x Hx) as [Hx_own | Hx_other].
    - destruct (elem_of_logRows _ _ _ _ Hx_own) as (k & l & -> & _).
      apply Hy_fresh. rewrite <- Heq. unfold rowID; simpl. set_solver.
    - rewrite concat_app in Hx_other. apply elem_of_app in Hx_other as [Hx1 | Hx2].
      + by apply (Good_disjoint _ _ _ _ _ _ _ G1 (reflexivity _) Gb x y).
      + by apply (Good_disjoint _ _ _ _ _ _ _ Gb (reflexivity _) G2 y x). }
  intros x y Hx Hyblk.
  rewrite elem_of_app, elem_of_cons, !elem_of_app in Hx.
  destruct Hx as [[-> | [Hx | Hx]] | [Hx | Hx]].
  - intros Heq. destruct (Hy y Hyblk) as [Hy_fresh _].
    apply Hy_fresh. rewrite <- Heq. unfold rowID; simpl. set_solver.
  - apply Hp; [|done]. apply elem_of_app. by left.
  - apply Hdisj; [|done]. apply elem_of_app. by left.
  - apply Hdisj; [|done]. apply elem_of_app. by right.
  - apply Hp; [|done]. apply elem_of_app. by right.
Qed.

Lemma collectLogs_row_block fuel allSpans spans : forall spanIdx seen rows,
  (forall k sp, spans !! k = Some sp -> allSpans !! (spanIdx + k)%nat = Some sp) ->
  collectLogs fuel allSpans spans spanIdx seen = Ok rows ->
  forall r, r ∈ rows ->
  exists pre blk post fuel1 s1 s2,
    rows = pre ++ blk ++ post /\
    getMessagesForSubtrace fuel1 allSpans (lrr_span r) s1 = Ok (blk, s2) /\
    idsDisjoint (pre ++ post) blk.
Proof.
  induction spans as [|span rest IH]; intros spanIdx seen rows Hsuffix H r Hr;
    simpl in H.
  - injection H as <-. by apply elem_of_nil in Hr.
  - assert (forall k sp, rest !! k = Some sp ->
                         allSpans !! (S spanIdx + k)%nat = Some sp) as Hrest.
    { intros k sp Hk. replace (S spanIdx + k)%nat with (spanIdx + S k)%nat by lia.
      by apply Hsuffix. }
    destruct (decide (SpanID span ∈ seen)); [by eapply IH|].
    apply bind_pair_Ok in H as (msgs & seen1 & Hsub & H).
    apply bind_Ok in H as (more & Hmore & H). injection H as <-.
    assert (wf_span allSpans (mkSpanWithIndex span spanIdx)) as Hwf.
    { unfold wf_span; simpl. specialize (Hsuffix 0%nat span eq_refl).
      by rewrite Nat.add_0_r in Hsuffix. }
    pose proof (getMessagesForSubtrace_Good _ _ _ _ _ _ Hwf Hsub) as G1.
    destruct (collectLogs_Good _ _ _ _ _ _ Hrest Hmore) as (seen' & G2 & _).
    pose proof (Good_disjoint _ _ _ _ _ _ _ G1 (reflexivity _) G2) as Hdisj.
    apply elem_of_app in Hr as [Hr | Hr].
    + destruct (getMessagesForSubtrace_row_block _ _ _ _ _ _ Hwf Hsub r Hr)
        as (pre & blk & post & fuel1 & t1 & t2 & -> & Hblk & Hin).
      exists pre, blk, (post ++ more), fuel1, t1, t2.
      split; [by rewrite <- !(assoc app)|]. split; [done|].
      intros x y Hx Hy. rewrite (assoc app) in Hx.
      apply elem_of_app in Hx as [Hx | Hx]; [by apply Hin|].
      apply idsDisjoint_sym in Hdisj. apply Hdisj; [done|].
      apply elem_of_app. right. apply elem_of_app. by left.
    + destruct (IH _ _ _ Hrest Hmore r Hr)
        as (pre & blk & post & fuel1 & t1 & t2 & -> & Hblk & Hin).
      exists (msgs ++ pre), blk, post, fuel1, t1, t2.
      split; [by rewrite <- !(assoc app)|]. split; [done|].
      intros x y Hx Hy. rewrite <- (assoc app) in Hx.
      apply elem_of_app in Hx as [Hx | Hx]; [|by apply Hin].
      apply Hdisj; [done|].
      apply elem_of_app. right. apply elem_of_app. by left.
Qed.

Lemma childSpansFrom_middle spanID s1 x s2 : forall i,
  ParentSpanID x = spanID ->
  childSpansFrom spanID i (s1 ++ x :: s2) =
  childSpansFrom spanID i s1 ++
  mkSpanWithIndex x (i + length s1) :: childSpansFrom spanID (S (i + length s1)) s2.
Proof.
  induction s1 as [|y s1 IH]; intros i Hx; simpl.
  - apply N.eqb_eq in Hx. by rewrite Hx, Nat.add_0_r.
  - rewrite (IH (S i) Hx).
    replace (S i + length s1)%nat with (i + S (length s1))%nat by lia.
    by destruct (N.eqb (ParentSpanID y) spanID).
Qed.

Lemma getOrderedChildSpans_two spanID spans a b sa sb :
  (a < b)%nat -> spans !! a = Some sa -> spans !! b = Some sb ->
  ParentSpanID sa = spanID -> ParentSpanID sb = spanID ->
  exists l1 l2 l3,
    getOrderedChildSpans spanID spans =
    l1 ++ mkSpanWithIndex sa a :: l2 ++ mkSpanWithIndex sb b :: l3.
Proof.
  intros Hab Ha Hb Hpa Hpb.
  assert (exists s1 s2 s3, spans = s1 ++ sa :: s2 ++ sb :: s3 /\
                           length s1 = a /\ length s2 = (b - S a)%nat)
    as (s1 & s2 & s3 & -> & Hl1 & Hl2).
  { exists (take a spans), (take (b - S a) (drop (S a) spans)),
           (drop (S (b - S a)) (drop (S a) spans)).
    assert (drop (S a) spans !! (b - S a)%nat = Some sb) as Hb'.
    { rewrite lookup_drop. by replace (S a + (b - S a))%nat with b by lia. }
    rewrite (take_drop_middle _ _ _ Hb'), (take_drop_middle _ _ _ Ha).
    split; [done|]. apply lookup_lt_Some in Ha, Hb'.
    rewrite !length_take. lia. }
  unfold getOrderedChildSpans.
  rewrite (childSpansFrom_middle _ _ _ _ _ Hpa), (childSpansFrom_middle _ _ _ _ _ Hpb).
  simpl. rewrite Hl1, Hl2. replace (S (a + (b - S a))) with b by lia.
  eauto.
Qed.

Lemma toTraceRows_disjoint allSpans seen rows seen' l1 l2 r1 r2 :
  Good allSpans seen rows seen' ->
  (forall x, x ∈ l1 -> x ∈ rows) -> (forall y, y ∈ l2 -> y ∈ rows) ->
  idsDisjoint l1 l2 ->
  toTraceRows l1 = Ok r1 -> toTraceRows l2 = Ok r2 ->
  forall x y, x ∈ r1 -> y ∈ r2 -> span_idx x <> span_idx y.
Proof.
  intros G H1 H2 Hdisj Hr1 Hr2 x y Hx Hy Heq.
  destruct (toTraceRows_elem_of _ _ _ Hr1 Hx) as (lx & Hlx & Hx_row).
  destruct (toTraceRows_elem_of _ _ _ Hr2 Hy) as (ly & Hly & Hy_row).
  apply toTraceRow_inv in Hx_row as (Hx_idx & _).
  apply toTraceRow_inv in Hy_row as (Hy_idx & _).
  rewrite Hx_idx, Hy_idx in Heq. injection Heq as Heq%Nat2Z.inj.
  apply (Hdisj lx ly Hlx Hly). unfold rowID.
  by rewrite (Good_same_index _ _ _ _ lx ly G (H1 _ Hlx) (H2 _ Hly) Heq).
Qed.

Lemma toTraceRows_app_Ok l1 l2 r1 r2 :
  toTraceRows l1 = Ok r1 -> toTraceRows l2 = Ok r2 ->
  toTraceRows (l1 ++ l2) = Ok (r1 ++ r2).
Proof.
  revert r1. induction l1 as [|lrr l1 IH]; intros r1 H1 H2; simpl in *.
  - by injection H1 as <-.
  - apply bind_Ok in H1 as (row & Hrow & H1).
    apply bind_Ok in H1 as (res & Hres & H1). injection H1 as <-.
    rewrite Hrow. simpl. by rewrite (IH _ Hres H2).
Qed.

Example unorderedSpans_rows :
  generateSessionTraceVTable unorderedSpans = Ok unorderedRows.
Proof. vm_compute. reflexivity. Qed.

(** C3, as stated, fails: the child that starts at 20 is recorded after the
    child that starts at 30, and its row comes after the row of that child. *)
Lemma children_follow_input_order_not_start_time : ~ earlierStartFirst unorderedSpans.
Proof.
  intros H.
  pose proof (H _ 2%nat 1%nat (mkSpan 3 1 "early" 20 5 []) (mkSpan 2 1 "late" 30 5 [])
                2%nat 1%nat _ _ unorderedSpans_rows eq_refl eq_refl eq_refl
                eq_refl eq_refl eq_refl eq_refl eq_refl) as Hlt.
  lia.
Qed.

(** C3, amended: in a successful output, for two spans whose parent is a
    span of the input, the rows of the subtree of the one that comes first
    in the input sequence form one block, the rows of the subtree of the
    other one form a later block, and no row outside a block belongs to a
    span that has rows inside it.  The order is the order of the input
    sequence, whatever the start times. *)
Theorem sibling_blocks_in_input_order spans res a b sa sb p :
  generateSessionTraceVTable spans = Ok res ->
  (a < b)%nat -> spans !! a = Some sa -> spans !! b = Some sb ->
  p ∈ spans -> ParentSpanID sa = SpanID p -> ParentSpanID sb = SpanID p ->
  exists pre ra mid rb post,
    res = pre ++ ra ++ mid ++ rb ++ post /\
    subtreeRows spans (mkSpanWithIndex sa a) ra /\
    subtreeRows spans (mkSpanWithIndex sb b) rb /\
    (forall x y, x ∈ pre ++ mid ++ rb ++ post -> y ∈ ra -> span_idx x <> span_idx y) /\
    (forall x y, x ∈ pre ++ ra ++ mid ++ post -> y ∈ rb -> span_idx x <> span_idx y).
Proof.
  intros Hgen Hab Ha Hb Hp Hpa Hpb.
  apply generateWithFuel_Ok in Hgen
    as (rows & seen' & Hcollect & Hres & G & _ & Hall).
  apply Hall, (good_seen _ _ _ _ G) in Hp as [Hp | (r & Hr & Hr_id)];
    [by apply not_elem_of_empty in Hp|].
  destruct (collectLogs_row_block _ spans spans 0 ∅ rows (λ _ _ H, H) Hcollect r Hr)
    as (pre0 & blk & post0 & fuel1 & s1 & s2 & Hrows & Hblk & Hout0).
  pose proof (good_wf _ _ _ _ G r Hr) as Hwf.
  apply getMessagesForSubtrace_Ok in Hblk
    as (fuel' & rows0 & -> & Hfresh & -> & Hmerge).
  apply mergeLogs_Ok in Hmerge as (blocks & Hrun & Hint).
  unfold rowID in Hr_id.
  destruct (getOrderedChildSpans_two (SpanID (sw_span (lrr_span r))) spans a b sa sb)
    as (l1 & l2 & l3 & Hcs); [done|done|done|congruence|congruence|].
  assert (Forall (wf_span spans)
            (l1 ++ mkSpanWithIndex sa a :: l2 ++ mkSpanWithIndex sb b :: l3)) as Hwfs.
  { rewrite <- Hcs. apply Forall_forall. by intros ? [? _]%getOrderedChildSpans_spec. }
  rewrite Hcs in Hrun.
  destruct (RunChildren_split _ _ _ _ _ _ _ _ Hwfs Hrun)
    as (bs1 & ba & bsr & sa1 & sa2 & -> & Hca & _ & Hrun' & G1 & Ga & _).
  apply Forall_app in Hwfs as [_ Hwfs]. apply Forall_cons in Hwfs as [_ Hwfs].
  destruct (RunChildren_split _ _ _ _ _ _ _ _ Hwfs Hrun')
    as (bs2 & bb & bs3 & sb1 & sb2 & -> & Hcb & _ & _ & G2 & Gb & G3).
  destruct (Interleave_two_blocks _ _ _ bs1 ba bs2 bb bs3 Hint eq_refl)
    as (pre1 & mid & post1 & -> & Hout1).
  set (start := spanStartRow (lrr_span r)) in *.
  set (own := logRows (lrr_span r) 0 (Logs (sw_span (lrr_span r)))) in *.
  assert (rows = (pre0 ++ start :: pre1) ++ ba ++ mid ++ bb ++ (post1 ++ post0))
    as Hrows'.
  { rewrite Hrows. simpl. by rewrite <- !(assoc app). }
  (* where the identifiers of the rows around the two blocks come from *)
  pose proof (Good_subseteq _ _ _ _ G1) as S1.
  pose proof (Good_subseteq _ _ _ _ Ga) as S2.
  pose proof (Good_subseteq _ _ _ _ G2) as S3.
  pose proof (Good_subseteq _ _ _ _ Gb) as S4.
  assert (SpanID (sw_span (lrr_span r)) ∈ sa1) as Hown_seen.
  { apply S1, elem_of_union. left. by apply elem_of_singleton. }
  assert (forall x, x ∈ pre1 ++ mid ++ post1 ->
            rowID x ∈ sa1 \/ ((rowID x ∉ sa2) /\ rowID x ∈ sb1) \/ rowID x ∉ sb2)
    as Hpieces.
  { intros x Hx. destruct (Hout1 x Hx) as [Hx_own | Hx_other].
    - left. by destruct (elem_of_logRows _ _ _ _ Hx_own) as (k & l & -> & _).
    - rewrite !concat_app, !elem_of_app in Hx_other.
      destruct Hx_other as [Hx1 | [Hx2 | Hx3]].
      + left. apply (good_seen _ _ _ _ G1). right. by exists x.
      + right; left. split; [by apply (good_fresh _ _ _ _ G2)|].
        apply (good_seen _ _ _ _ G2). right. by exists x.
      + right; right. by apply (good_fresh _ _ _ _ G3). }
  assert (forall y, y ∈ ba -> (rowID y ∉ sa1) /\ rowID y ∈ sa2) as Hba.
  { intros y Hy. split; [by apply (good_fresh _ _ _ _ Ga)|].
    apply (good_seen _ _ _ _ Ga). right. by exists y. }
  assert (forall y, y ∈ bb -> (rowID y ∉ sb1) /\ rowID y ∈ sb2) as Hbb.
  { intros y Hy. split; [by apply (good_fresh _ _ _ _ Gb)|].
    apply (good_seen _ _ _ _ Gb). right. by exists y. }
  assert (forall x y, x ∈ pre0 ++ post0 ->
            y ∈ pre1 ++ ba ++ mid ++ bb ++ post1 -> rowID x <> rowID y) as Hout0'.
  { intros x y Hx Hy. apply Hout0; [done|]. by apply list_elem_of_further. }
  assert (idsDisjoint ((pre0 ++ start :: pre1) ++ mid ++ bb ++ (post1 ++ post0)) ba)
    as HdisjA.
  { intros x y Hx Hy. destruct (Hba y Hy) as [Hy1 Hy2].
    assert (y ∈ pre1 ++ ba ++ mid ++ bb ++ post1) as Hy'
      by (rewrite !elem_of_app; tauto).
    assert (x ∈ pre0 ++ post0 \/ rowID x ∈ sa1 \/ rowID x ∉ sa2) as Hcases.
    { rewrite !elem_of_app, elem_of_cons in Hx.
      destruct Hx as [[Hx | [-> | Hx]] | [Hx | [Hx | [Hx | Hx]]]].
      - left. apply elem_of_app. by left.
      - right; left. exact Hown_seen.
      - destruct (Hpieces x) as [?|[[? ?]|Hn]];
          [rewrite !elem_of_app; tauto|tauto|tauto|].
        right; right. intros Hin. by apply Hn, S4, S3.
      - destruct (Hpieces x) as [?|[[? ?]|Hn]];
          [rewrite !elem_of_app; tauto|tauto|tauto|].
        right; right. intros Hin. by apply Hn, S4, S3.
      - right; right. destruct (Hbb x Hx) as [Hn _]. intros Hin. by apply Hn, S3.
      - destruct (Hpieces x) as [?|[[? ?]|Hn]];
          [rewrite !elem_of_app; tauto|tauto|tauto|].
        right; right. intros Hin. by apply Hn, S4, S3.
      - left. apply elem_of_app. by right. }
    destruct Hcases as [Hc | [Hc | Hc]]; [by apply Hout0'| |];
      intros Heq; rewrite Heq in Hc; done. }
  assert (idsDisjoint ((pre0 ++ start :: pre1) ++ ba ++ mid ++ (post1 ++ post0)) bb)
    as HdisjB.
  { intros x y Hx Hy. destruct (Hbb y Hy) as [Hy1 Hy2].
    assert (y ∈ pre1 ++ ba ++ mid ++ bb ++ post1) as Hy'
      by (rewrite !elem_of_app; tauto).
    assert (x ∈ pre0 ++ post0 \/ rowID x ∈ sb1 \/ rowID x ∉ sb2) as Hcases.
    { rewrite !elem_of_app, elem_of_cons in Hx.
      destruct Hx as [[Hx | [-> | Hx]] | [Hx | [Hx | [Hx | Hx]]]].
      - left. apply elem_of_app. by left.
      - right; left. by apply S3, S2.
      - destruct (Hpieces x) as [Hi|[[? ?]|Hn]];
          [rewrite !elem_of_app; tauto| | |]; [|tauto|tauto].
        right; left. by apply S3, S2.
      - right; left. destruct (Hba x Hx) as [_ Hi]. by apply S3.
      - destruct (Hpieces x) as [Hi|[[? ?]|Hn]];
          [rewrite !elem_of_app; tauto| | |]; [|tauto|tauto].
        right; left. by apply S3, S2.
      - destruct (Hpieces x) as [Hi|[[? ?]|Hn]];
          [rewrite !elem_of_app; tauto| | |]; [|tauto|tauto].
        right; left. by apply S3, S2.
      - left. apply elem_of_app. by right. }
    destruct Hcases as [Hc | [Hc | Hc]]; [by apply Hout0'| |];
      intros Heq; rewrite Heq in Hc; done. }
  (* the table rows of the five pieces *)
  rewrite Hrows' in Hres.
  apply toTraceRows_app in Hres as (rpre & res1 & -> & Hrpre & Hres).
  apply toTraceRows_app in Hres as (ra & res2 & -> & Hra & Hres).
  apply toTraceRows_app in Hres as (rmid & res3 & -> & Hrmid & Hres).
  apply toTraceRows_app in Hres as (rb & rpost & -> & Hrb & Hrpost).
  exists rpre, ra, rmid, rb, rpost.
  split; [done|].
  split; [by exists fuel', sa1, ba, sa2|].
  split; [by exists fuel', sb1, bb, sb2|].
  assert (forall l : list logRecordRow,
            (forall x, x ∈ l -> x ∈ (pre0 ++ start :: pre1) ++ ba ++ mid ++ bb
                                             ++ (post1 ++ post0)) ->
                    forall x, x ∈ l -> x ∈ rows) as Hin.
  { intros l Hl x Hx. rewrite Hrows'. by apply Hl. }
  split.
  - eapply (toTraceRows_disjoint _ _ _ _ _ _ _ _ G); [| |exact HdisjA| |exact Hra].
    + apply Hin. intros x. rewrite !elem_of_app. tauto.
    + apply Hin. intros x. rewrite !elem_of_app. tauto.
    + repeat (apply toTraceRows_app_Ok; [done|]). done.
  - eapply (toTraceRows_disjoint _ _ _ _ _ _ _ _ G); [| |exact HdisjB| |exact Hrb].
    + apply Hin. intros x. rewrite !elem_of_app. tauto.
    + apply Hin. intros x. rewrite !elem_of_app. tauto.
    + repeat (apply toTraceRows_app_Ok; [done|]). done.
Qed.

Lemma sibling_blocks_in_input_order_witness :
  exists pre ra mid rb post,
    unorderedRows = pre ++ ra ++ mid ++ rb ++ post /\
    subtreeRows unorderedSpans (mkSpanWithIndex (mkSpan 2 1 "late" 30 5 []) 1) ra /\
    subtreeRows unorderedSpans (mkSpanWithIndex (mkSpan 3 1 "early" 20 5 []) 2) rb /\
    (forall x y, x ∈ pre ++ mid ++ rb ++ post -> y ∈ ra -> span_idx x <> span_idx y) /\
    (forall x y, x ∈ pre ++ ra ++ mid ++ post -> y ∈ rb -> span_idx x <> span_idx y).
Proof.
  apply (sibling_blocks_in_input_order unorderedSpans unorderedRows 1 2
           (mkSpan 2 1 "late" 30 5 []) (mkSpan 3 1 "early" 20 5 [])
           (mkSpan 1 0 "root" 10 50 [])).
  - vm_compute. reflexivity.
  - lia.
  - reflexivity.
  - reflexivity.
  - apply list_elem_of_here.
  - reflexivity.
  - reflexivity.
Defined.

(** * The session registry *)

Section registry_facts.
Import Registry.
Context `{Env}.

Lemma authorized_false username session :
  username <> RootUser -> username <> user session ->
  authorized username session = false.
Proof.
  intros H1 H2. unfold authorized.
  apply String.eqb_neq in H1, H2. by rewrite H1, H2.
Qed.

Lemma authorized_owner username session :
  username <> RootUser -> authorized username session = true ->
  username = user session.
Proof.
  intros H1 Hauth. unfold authorized in Hauth.
  apply String.eqb_neq in H1. rewrite H1 in Hauth. by apply String.eqb_eq.
Qed.

(** The loop of [CancelQuery] finds nothing when no session that it may look
    at holds the query. *)
Lemma cancelQueryLoop_not_found entries queryID username : forall r,
  (forall id s, (id, s) ∈ entries -> authorized username s = true ->
                ~ holdsQuery s queryID) ->
  (cancelQueryLoop entries queryID username r).1 = false.
Proof.
  induction entries as [|[id s] rest IH]; intros r Hnone; simpl; [done|].
  assert (forall id' s', (id', s') ∈ rest -> authorized username s' = true ->
                         ~ holdsQuery s' queryID) as Hrest.
  { intros id' s' Hin. apply (Hnone id'). by apply list_elem_of_further. }
  destruct (authorized username s) eqn:Hauth; simpl; [|by apply IH].
  assert (~ holdsQuery s queryID) as Hs
    by (apply (Hnone id); [apply list_elem_of_here | done]).
  unfold holdsQuery in Hs.
  destruct (cancelQuery s queryID) as [found s'] eqn:Hcq; simpl in *.
  destruct found; [done | by apply IH].
Qed.

(** The loop of [CancelQuery] does not touch the sessions of other users. *)
Lemma cancelQueryLoop_others entries queryID username : forall r id s,
  (forall id' s', (id', s') ∈ entries -> id' = id -> authorized username s' = false) ->
  r !! id = Some s ->
  (cancelQueryLoop entries queryID username r).2 !! id = Some s.
Proof.
  induction entries as [|[id0 s0] rest IH]; intros r id s Hother Hr; simpl; [done|].
  assert (forall id' s', (id', s') ∈ rest -> id' = id ->
                         authorized username s' = false) as Hrest.
  { intros id' s' Hin. apply (Hother id'). by apply list_elem_of_further. }
  destruct (authorized username s0) eqn:Hauth; simpl; [|by apply IH].
  assert (id0 <> id) as Hne.
  { intros ->. assert (authorized username s0 = false)
      by (apply (Hother id); [apply list_elem_of_here | done]).
    congruence. }
  destruct (cancelQuery s0 queryID) as [found s0'].
  destruct found; simpl; [by rewrite lookup_insert_ne|].
  apply IH; [done|]. by rewrite lookup_insert_ne.
Qed.

Lemma cancelSessionLoop_not_found entries sessionID username : forall r,
  (forall s, (sessionID, s) ∈ entries -> authorized username s = false) ->
  cancelSessionLoop entries sessionID username r = (false, r).
Proof.
  induction entries as [|[id s] rest IH]; intros r Hnone; simpl; [done|].
  assert (forall s', (sessionID, s') ∈ rest -> authorized username s' = false)
    as Hrest.
  { intros s' Hin. apply Hnone. by apply list_elem_of_further. }
  destruct (authorized username s) eqn:Hauth; simpl; [|by apply IH].
  destruct (decide (id = sessionID)) as [->|]; [|by apply IH].
  assert (authorized username s = false) by (apply Hnone, list_elem_of_here).
  congruence.
Qed.

(** C4: for every registry state and every order in which the store is
    ranged over, [CancelQuery] by a user who is not the superuser and owns
    no session that holds the query returns false and the not-found error
    of the requested identifier, whether a session of another user holds
    the query or no session does; it leaves the sessions of other users as
    they are.  [CancelSession] by a user who is neither the superuser nor
    the owner of the session returns false and the not-found error of the
    requested identifier, as it does when no session has the identifier,
    and changes nothing. *)
Theorem unauthorized_is_not_found (r : gmap ClusterWideID registrySession)
    (entries : list (ClusterWideID * registrySession)) (username : string)
    (queryIDStr : string) (queryID : ClusterWideID)
    (sessionIDBytes : list Byte.byte) :
  entries ≡ₚ map_to_list r ->
  username <> RootUser ->
  StringToClusterWideID queryIDStr = (queryID, None) ->
  (forall id s, r !! id = Some s -> holdsQuery s queryID -> username <> user s) ->
  (forall s, r !! BytesToClusterWideID sessionIDBytes = Some s -> username <> user s) ->
  (CancelQuery entries r queryIDStr username).1
    = (false, Some (ErrQueryNotFound queryID)) /\
  (forall id s, r !! id = Some s -> username <> user s ->
     (CancelQuery entries r queryIDStr username).2 !! id = Some s) /\
  CancelSession entries r sessionIDBytes username
    = ((false, Some (ErrSessionNotFound (BytesToClusterWideID sessionIDBytes))), r).
Proof.
  intros Hperm Hroot Hparse Hquery Hsession.
  assert (forall id s, (id, s) ∈ entries <-> r !! id = Some s) as Hentries.
  { intros id s. rewrite Hperm. apply elem_of_map_to_list. }
  assert ((CancelQuery entries r queryIDStr username).1
            = (false, Some (ErrQueryNotFound queryID)) /\
          (CancelQuery entries r queryIDStr username).2
            = (cancelQueryLoop entries queryID username r).2) as [Hres Hstore].
  { unfold CancelQuery. rewrite Hparse.
    pose proof (cancelQueryLoop_not_found entries queryID username r) as Hloop.
    destruct (cancelQueryLoop entries queryID username r) as [found r'].
    simpl in Hloop. rewrite Hloop; [done|].
    intros id s Hin%Hentries Hauth Hholds.
    apply (Hquery id s Hin Hholds). by apply authorized_owner. }
  split; [done|]. split.
  - intros id s Hr Hne. rewrite Hstore.
    apply cancelQueryLoop_others; [|done].
    intros id' s' Hin%Hentries ->. rewrite Hr in Hin. injection Hin as <-.
    by apply authorized_false.
  - unfold CancelSession.
    rewrite cancelSessionLoop_not_found; [done|].
    intros s Hin%Hentries. apply authorized_false; [done|]. by apply Hsession.
Qed.

End registry_facts.

Lemma unauthorized_is_not_found_witness :
  (Registry.CancelQuery (H := demoRegistry)
     (map_to_list demoStore) demoStore "9" "alice").1
    = (false, Some (Registry.ErrQueryNotFound 9%N)) /\
  (forall id s, demoStore !! id = Some s -> "alice" <> owner s ->
     (Registry.CancelQuery (H := demoRegistry)
        (map_to_list demoStore) demoStore "9" "alice").2 !! id = Some s) /\
  Registry.CancelSession (H := demoRegistry)
    (map_to_list demoStore) demoStore [Byte.x00; Byte.x01] "alice"
    = ((false, Some (Registry.ErrSessionNotFound 2%N)), demoStore).
Proof.
  assert (forall id s, demoStore !! id = Some s ->
            (id = 1%N /\ s = mkDemoSession "alice" [7%N] false) \/
            (id = 2%N /\ s = mkDemoSession "bob" [9%N] false)) as Hstore.
  { intros id s Hs. unfold demoStore in Hs.
    apply lookup_insert_Some in Hs as [[<- <-] | [_ Hs]]; [by left|].
    apply lookup_singleton_Some in Hs as [<- <-]. by right. }
  apply (unauthorized_is_not_found (H := demoRegistry) demoStore
           (map_to_list demoStore) "alice" "9" 9%N [Byte.x00; Byte.x01]).
  - reflexivity.
  - discriminate.
  - reflexivity.
  - intros id s [[-> ->] | [-> ->]]%Hstore Hholds; [|discriminate].
    vm_compute in Hholds. discriminate.
  - intros s [[Hid _] | [_ ->]]%Hstore; [discriminate Hid | discriminate].
Defined.

(** * The session tracing controller *)

Section tracing_facts.
Import Tracing.
Context `{Lib}.

(** C6: [StartTracing] while tracing is enabled returns nil and leaves the
    tracing state, the executor and the tracer as they are, whatever its
    arguments; in particular a call that follows a call that returned nil
    changes nothing of what that call left.  [StopTracing] while tracing is
    not enabled returns nil and leaves everything as it is. *)
Theorem toggle_twice_is_noop s e t recType kv s0 e0 t0 recType0 kv0 s' e' t' :
  enabled s = true ->
  ret (StartTracing s0 e0 t0 recType0 kv0) = Ok () ->
  enabled s' = false ->
  StartTracing s e t recType kv = mkAfter (Ok ()) s e t /\
  StartTracing (st (StartTracing s0 e0 t0 recType0 kv0)) e t recType kv
    = mkAfter (Ok ()) (st (StartTracing s0 e0 t0 recType0 kv0)) e t /\
  StopTracing s' e' t' = mkAfter (Ok ()) s' e' t'.
Proof.
  intros Hen Hret Hdis.
  assert (forall s1, enabled s1 = true ->
            StartTracing s1 e t recType kv = mkAfter (Ok ()) s1 e t) as Hstart.
  { intros s1 Hen1. unfold StartTracing. by rewrite Hen1. }
  split; [by apply Hstart|]. split.
  - apply Hstart. unfold StartTracing in *.
    destruct (enabled s0) eqn:Hen0; [done|].
    destruct (inTxn e0); [destruct (txnCtxSpan e0)|]; simpl in *; try discriminate;
      by destruct (StartSpan _ _).
  - unfold StopTracing. by rewrite Hdis.
Qed.

(** C10: [StopTracing] leaves [firstTxnSpan] as it is.  After a trace that
    was started inside a transaction, on the transaction span [sp], has
    been stopped, a [StartTracing] outside any transaction keeps [sp] as
    [firstTxnSpan], and the recording of [sp] is part of what the following
    [getRecording] and [StopTracing] reduce. *)
Theorem stale_txn_span_collected s0 e0 t0 recType0 kv0 sp :
  enabled s0 = false -> inTxn e0 = true -> txnCtxSpan e0 = Some sp ->
  let a1 := StartTracing s0 e0 t0 recType0 kv0 in
  ret a1 = Ok () /\ firstTxnSpan (st a1) = Some sp /\
  forall e1 t1,
    let a2 := StopTracing (st a1) e1 t1 in
    enabled (st a2) = false /\ firstTxnSpan (st a2) = Some sp /\
    forall e2 t2 recType2 kv2,
      inTxn e2 = false ->
      let a3 := StartTracing (st a2) e2 t2 recType2 kv2 in
      ret a3 = Ok () /\ enabled (st a3) = true /\
      firstTxnSpan (st a3) = Some sp /\
      exists conn,
        connSpan (st a3) = Some conn /\
        (forall t3,
           getRecording (st a3) t3 =
           generateSessionTraceVTable (GetRecording sp t3 ++ GetRecording conn t3)) /\
        (forall e3 t3,
           let spans := GetRecording sp t3 ++
                        GetRecording conn (Finish conn (StopRecording sp t3)) in
           ret (StopTracing (st a3) e3 t3)
             = (_ ← generateSessionTraceVTable spans; Ok ()) /\
           (forall rows, generateSessionTraceVTable spans = Ok rows ->
                         lastRecording (st (StopTracing (st a3) e3 t3)) = rows) /\
           firstTxnSpan (st (StopTracing (st a3) e3 t3)) = Some sp).
Proof.
  intros Hen Htxn Hsp. unfold StartTracing at 1. rewrite Hen, Htxn, Hsp.
  destruct (StartSpan (connCtxSpan e0) (StartRecording sp recType0 t0))
    as [conn0 t0'] eqn:E0. simpl.
  split; [done|]. split; [done|]. intros e1 t1.
  unfold StopTracing at 1. simpl. split; [done|]. split; [done|].
  intros e2 t2 recType2 kv2 Hno. unfold StopTracing; simpl.
  unfold StartTracing; simpl. rewrite Hno.
  destruct (StartSpan (connCtxSpan e2) t2) as [conn t2'] eqn:E2. simpl.
  split; [done|]. split; [done|]. split; [done|].
  exists conn. split; [done|]. split; [done|].
  intros e3 t3. split; [done|]. split; [|done].
  intros rows ->. done.
Qed.

End tracing_facts.

Lemma toggle_twice_is_noop_witness :
  Tracing.StartTracing (H := demoTracer) started noTransaction 2%nat
    Tracing.SingleNodeRecording false
    = Tracing.mkAfter (H := demoTracer) (Ok ()) started noTransaction 2%nat /\
  Tracing.StopTracing (H := demoTracer) idle inTransaction 1%nat
    = Tracing.mkAfter (H := demoTracer) (Ok ()) idle inTransaction 1%nat.
Proof.
  destruct (toggle_twice_is_noop (H := demoTracer)
              started noTransaction 2%nat Tracing.SingleNodeRecording false
              idle inTransaction 1%nat Tracing.SnowballRecording true
              idle inTransaction 1%nat) as (H1 & _ & H3); try reflexivity.
  split; [exact H1 | exact H3].
Defined.

(** The trace started in the transaction with span 100 is stopped; a second
    trace is started outside any transaction: the spans that the second
    trace reduces begin with the recording of span 100. *)
Lemma stale_txn_span_collected_witness :
  let a2 := Tracing.StopTracing (H := demoTracer) started noTransaction 2%nat in
  let a3 := Tracing.StartTracing (H := demoTracer) (Tracing.st a2) noTransaction 2%nat
              Tracing.SnowballRecording false in
  Tracing.firstTxnSpan (Tracing.st a3) = Some 100%nat /\
  Tracing.getRecording (H := demoTracer) (Tracing.st a3) 3%nat =
  generateSessionTraceVTable
    (Tracing.GetRecording (Lib := demoTracer) 100%nat 3%nat ++
     Tracing.GetRecording (Lib := demoTracer) 2%nat 3%nat).
Proof.
  destruct (stale_txn_span_collected (H := demoTracer)
              idle inTransaction 1%nat Tracing.SnowballRecording true 100%nat
              eq_refl eq_refl eq_refl) as (_ & _ & H2).
  destruct (H2 noTransaction 2%nat) as (_ & _ & H3).
  destruct (H3 noTransaction 2%nat Tracing.SnowballRecording false eq_refl)
    as (_ & _ & Hfirst & conn & Hconn & Hget & _).
  simpl. split; [exact Hfirst|].
  injection Hconn as <-. exact (Hget 3%nat).
Defined.

(** * The schema-change runner *)

Section schema_facts.
Import SchemaChange.
Context `{Env}.

Lemma retryLoop_Some fuel sc : forall w firstError log firstError' w' log',
  retryLoop fuel sc w firstError log = Some (firstError', w', log') ->
  exists run final,
    log' = log ++ run /\ jobRun sc run final /\
    firstError' = match firstError with
                  | Some e => Some e
                  | None => permanentOf final
                  end.
Proof.
  induction fuel as [|fuel IH]; intros w firstError log firstError' w' log' Hrun;
    simpl in Hrun; [discriminate|].
  destruct (exec sc w) as [[e|] w1] eqn:Hexec.
  - destruct (decide (e = ErrDescriptorNotFound)) as [Hnf|Hnf].
    + injection Hrun as <- <- <-.
      exists [(sc, Some e)], (Some e). split; [done|]. split.
      * exists []. split; [done|]. split; [constructor | by left].
      * simpl. rewrite decide_True by done. by destruct firstError.
    + destruct (isPermanentSchemaChangeError e) eqn:Hperm.
      * injection Hrun as <- <- <-.
        exists [(sc, Some e)], (Some e). split; [done|]. split.
        -- exists []. split; [done|]. split; [constructor | by right].
        -- simpl. rewrite decide_False by done. rewrite Hperm.
           by destruct firstError.
      * apply IH in Hrun as (run & final & -> & (retries & -> & Hretries & Hfinal) & ->).
        exists ((sc, Some e) :: ((λ e, (sc, Some e)) <$> retries) ++ [(sc, final)]), final.
        split; [by rewrite <- (assoc app)|]. split; [|done].
        exists (e :: retries). split; [done|]. split; [|done].
        constructor; [done|done].
  - injection Hrun as <- <- <-.
    exists [(sc, None)], None. split; [done|]. split.
    + exists []. split; [done|]. split; [constructor | done].
    + by destruct firstError.
Qed.

Lemma firstPermanent_app finals1 finals2 :
  firstPermanent (finals1 ++ finals2) =
  match firstPermanent finals1 with
  | Some e => Some e
  | None => firstPermanent finals2
  end.
Proof.
  induction finals1 as [|r finals1 IH]; simpl; [done|].
  by destruct (permanentOf r).
Qed.

Lemma runQueue_Some fuel queue : forall w firstError log firstError' w' log',
  runQueue fuel queue w firstError log = Some (firstError', w', log') ->
  exists runs finals,
    log' = log ++ concat runs /\ Forall3 jobRun queue runs finals /\
    firstError' = match firstError with
                  | Some e => Some e
                  | None => firstPermanent finals
                  end.
Proof.
  induction queue as [|sc rest IH]; intros w firstError log firstError' w' log' Hrun;
    simpl in Hrun.
  - injection Hrun as <- <- <-. exists [], []. simpl.
    split; [by rewrite app_nil_r|]. split; [constructor|]. by destruct firstError.
  - destruct (retryLoop fuel sc w firstError log) as [[[fe1 w1] log1]|] eqn:Hloop;
      simpl in Hrun; [|discriminate].
    apply retryLoop_Some in Hloop as (run & final & -> & Hjob & ->).
    apply IH in Hrun as (runs & finals & -> & Hall & ->).
    exists (run :: runs), (final :: finals). simpl.
    split; [by rewrite <- (assoc app)|]. split; [by constructor|].
    destruct firstError; [done|]. by destruct (permanentOf final).
Qed.








End schema_facts.

Example demo_run :
  SchemaChange.execSchemaChanges (H := demoSchema) 5 demoQueue 0%nat =
  Some (Some "constraint violation", [], 5%nat,
        [(1%nat, None); (2%nat, Some "constraint violation");
         (3%nat, Some "transient"); (3%nat, Some "transient"); (3%nat, None)]).
Proof. reflexivity. Qed.




(** * The decomposition of messages *)

Lemma rmatch_Star r pos s c k :
  rmatch (Star r) pos s c k = starLoop r k (length s) pos s c.
Proof. reflexivity. Qed.

Lemma starLoop_S r k n pos s c :
  starLoop r k (S n) pos s c =
  match rmatch r pos s c
          (λ pos' s' c',
             if Nat.ltb (length s') (length s)
             then starLoop r k n pos' s' c' else None) with
  | Some res => Some res
  | None => k pos s c
  end.
Proof. reflexivity. Qed.

(** What a successful match of a plain expression has consumed is a word
    of the expression, and the groups are as they were. *)
Lemma rmatch_plain r : plain r = true -> forall pos s c k res,
  rmatch r pos s c k = Some res ->
  exists w s', s = w ++ s' /\ Lang r w /\ k (pos + length w)%nat s' c = Some res.
Proof.
  induction r as [| |p|r1 IH1 r2 IH2|r1 IH1 r2 IH2|r1 IH1|n r1 IH1];
    intros Hp pos s c k res H; simpl in Hp; try done.
  - exists [], s. simpl. rewrite Nat.add_0_r. split; [done|]. split; [constructor|done].
  - simpl in H. destruct s as [|a s']; [done|].
    destruct (p a) eqn:Hpa; [|done].
    exists [a], s'. simpl. rewrite Nat.add_1_r.
    split; [done|]. split; [by constructor|done].
  - apply andb_prop in Hp as [Hp1 Hp2]. simpl in H.
    apply (IH1 Hp1) in H as (w1 & s1 & -> & Hw1 & H).
    apply (IH2 Hp2) in H as (w2 & s2 & -> & Hw2 & H).
    exists (w1 ++ w2), s2. rewrite length_app, Nat.add_assoc, <- app_assoc.
    split; [done|]. split; [by constructor|done].
  - apply andb_prop in Hp as [Hp1 Hp2]. simpl in H.
    destruct (rmatch r1 pos s c k) eqn:H1.
    + injection H as ->.
      apply (IH1 Hp1) in H1 as (w & s' & -> & Hw & H1).
      exists w, s'. split; [done|]. split; [by apply Lang_Alt_l|done].
    + apply (IH2 Hp2) in H as (w & s' & -> & Hw & H).
      exists w, s'. split; [done|]. split; [by apply Lang_Alt_r|done].
  - rewrite rmatch_Star in H. revert H. generalize (length s) as n.
    intros n. revert pos s c res.
    induction n as [|n IHn]; intros pos s c res H.
    + simpl in H. exists [], s. simpl. rewrite Nat.add_0_r.
      split; [done|]. split; [constructor|done].
    + rewrite starLoop_S in H.
      destruct (rmatch r1 pos s c _) eqn:H1.
      * injection H as ->.
        apply (IH1 Hp) in H1 as (w1 & s1 & -> & Hw1 & H1).
        destruct (Nat.ltb (length s1) (length (w1 ++ s1))) eqn:Hlt; [|done].
        apply Nat.ltb_lt in Hlt. rewrite length_app in Hlt.
        apply IHn in H1 as (w2 & s2 & -> & Hw2 & H2).
        exists (w1 ++ w2), s2. rewrite length_app, Nat.add_assoc, <- app_assoc.
        split; [done|]. split; [|done].
        constructor; [done| |done]. intros ->. simpl in Hlt. lia.
      * exists [], s. simpl. rewrite Nat.add_0_r.
        split; [done|]. split; [constructor|done].
Qed.

(** Followed by something that always succeeds, the greedy star of "any
    character" consumes the whole text. *)
Lemma starLoop_anyChar k : total k -> forall n pos s c,
  (length s <= n)%nat ->
  starLoop anyChar k n pos s c = k (pos + length s)%nat [] c.
Proof.
  intros Hk n. induction n as [|n IH]; intros pos s c Hn.
  - destruct s; [|simpl in Hn; lia]. simpl. by rewrite Nat.add_0_r.
  - rewrite starLoop_S. destruct s as [|a s'].
    + simpl. by rewrite Nat.add_0_r.
    + cbn [rmatch anyChar]. cbn [length].
      assert (Nat.ltb (length s') (S (length s')) = true) as ->
        by (apply Nat.ltb_lt; lia).
      simpl in Hn. rewrite IH by lia.
      replace (S pos + length s')%nat with (pos + S (length s'))%nat by lia.
      by destruct (Hk (pos + S (length s'))%nat [] c) as [res ->].
Qed.

(** Followed by something that always succeeds, the greedy star of the
    space consumes all the spaces there are. *)
Lemma starLoop_spaces k : total k -> forall n pos s c,
  (length s <= n)%nat ->
  exists sp rest,
    s = sp ++ rest /\ Forall isSpace sp /\ head rest <> Some " "%char /\
    starLoop (lit " ") k n pos s c = k (pos + length sp)%nat rest c.
Proof.
  intros Hk n. induction n as [|n IH]; intros pos s c Hn.
  - destruct s; [|simpl in Hn; lia]. exists [], []. simpl.
    rewrite Nat.add_0_r. by repeat split.
  - rewrite starLoop_S. destruct s as [|a s'].
    + exists [], []. simpl. rewrite Nat.add_0_r. by repeat split.
    + cbn [rmatch lit]. destruct (Ascii.eqb " " a) eqn:Ha.
      * apply Ascii.eqb_eq in Ha as <-. cbn [length].
        assert (Nat.ltb (length s') (S (length s')) = true) as ->
          by (apply Nat.ltb_lt; lia).
        simpl in Hn.
        destruct (IH (S pos) s' c) as (sp & rest & -> & Hsp & Hrest & ->); [lia|].
        exists (" "%char :: sp), rest. cbn [length].
        replace (S pos + length sp)%nat with (pos + S (length sp))%nat by lia.
        split; [done|]. split; [by constructor|]. split; [done|].
        by destruct (Hk (pos + S (length sp))%nat rest c) as [res ->].
      * exists [], (a :: s'). simpl. rewrite Nat.add_0_r.
        split; [done|]. split; [constructor|]. split; [|done].
        intros [= Heq]. subst a. by rewrite Ascii.eqb_refl in Ha.
Qed.

Lemma rmatch_Cat r1 r2 pos s c k :
  rmatch (Cat r1 r2) pos s c k =
  rmatch r1 pos s c (λ pos' s' c', rmatch r2 pos' s' c' k).
Proof. reflexivity. Qed.

Lemma rmatch_Group n r pos s c k :
  rmatch (Group n r) pos s c k =
  rmatch r pos s c (λ pos' s' c', k pos' s' (setCap n (pos, pos') c')).
Proof. reflexivity. Qed.

Lemma rmatch_Bot s c k : rmatch Bot 0 s c k = k 0%nat s c.
Proof. reflexivity. Qed.

(** A plain expression that has a word at the head of the text matches
    there, if what follows accepts the rest of the text. *)
Lemma rmatch_complete r w :
  Lang r w -> plain r = true ->
  (forall pos s' c k,
     is_Some (k (pos + length w)%nat s' c) ->
     is_Some (rmatch r pos (w ++ s') c k)) /\
  (forall r1, r = Star r1 -> forall n pos s' c k,
     (length (w ++ s') <= n)%nat ->
     is_Some (k (pos + length w)%nat s' c) ->
     is_Some (starLoop r1 k n pos (w ++ s') c)).
Proof.
  induction 1 as [|p a Ha|r1 r2 w1 w2 H1 IH1 H2 IH2|r1 r2 w H1 IH1|r1 r2 w H2 IH2
                 |r|r w1 w2 H1 IH1 Hne H2 IH2]; intros Hp; simpl in Hp.
  - split; [|done]. intros pos s' c k Hk. simpl in *. by rewrite Nat.add_0_r in Hk.
  - split; [|done]. intros pos s' c k Hk. simpl in *. rewrite Ha.
    by rewrite Nat.add_1_r in Hk.
  - apply andb_prop in Hp as [Hp1 Hp2]. split; [|done].
    intros pos s' c k Hk. rewrite rmatch_Cat, <- app_assoc.
    apply (proj1 (IH1 Hp1)). apply (proj1 (IH2 Hp2)).
    by rewrite length_app, Nat.add_assoc in Hk.
  - apply andb_prop in Hp as [Hp1 Hp2]. split; [|done].
    intros pos s' c k Hk. simpl.
    by destruct (proj1 (IH1 Hp1) pos s' c k Hk) as [res ->].
  - apply andb_prop in Hp as [Hp1 Hp2]. split; [|done].
    intros pos s' c k Hk. simpl.
    destruct (rmatch r1 pos (w ++ s') c k); [done|].
    by apply (proj1 (IH2 Hp2)).
  - assert (forall n pos s' c k,
              is_Some (k (pos + 0)%nat s' c) -> is_Some (starLoop r k n pos s' c))
      as Hnil.
    { intros n pos s' c k Hk. rewrite Nat.add_0_r in Hk.
      destruct n as [|n]; [done|]. rewrite starLoop_S.
      by destruct (rmatch r pos s' c _). }
    split.
    + intros pos s' c k Hk. rewrite rmatch_Star. by apply Hnil.
    + intros r1 [= <-] n pos s' c k _ Hk. by apply Hnil.
  - assert (forall n pos s' c k,
              (length ((w1 ++ w2) ++ s') <= n)%nat ->
              is_Some (k (pos + length (w1 ++ w2))%nat s' c) ->
              is_Some (starLoop r k n pos ((w1 ++ w2) ++ s') c)) as Hcons.
    { intros n pos s' c k Hn Hk.
      destruct n as [|n].
      { destruct w1; [done|]. simpl in Hn. lia. }
      rewrite starLoop_S, <- app_assoc.
      match goal with |- is_Some (match ?m with _ => _ end) =>
        assert (is_Some m) as [res ->]; [|done]
      end.
      apply (proj1 (IH1 Hp)).
      assert (Nat.ltb (length (w2 ++ s')) (length (w1 ++ w2 ++ s')) = true) as ->.
      { apply Nat.ltb_lt. rewrite (length_app w1). destruct w1; [done|]. simpl. lia. }
      apply (proj2 (IH2 Hp) r eq_refl).
      - rewrite <- app_assoc, (length_app w1) in Hn.
        destruct w1; [done|]. simpl in Hn. lia.
      - by rewrite length_app, Nat.add_assoc in Hk. }
    split.
    + intros pos s' c k Hk. rewrite rmatch_Star. by apply Hcons.
    + intros r1 [= <-] n pos s' c k Hn Hk. by apply Hcons.
Qed.

(** The choice of an optional plain expression, followed by something that
    always succeeds: a word of the expression if the text begins with one,
    and nothing otherwise. *)
Lemma rmatch_Opt_plain r pos s c k res :
  plain r = true -> total k ->
  rmatch (Opt r) pos s c k = Some res ->
  exists w s',
    s = w ++ s' /\ k (pos + length w)%nat s' c = Some res /\
    (Lang r w \/ (w = [] /\ forall w0 s0, s = w0 ++ s0 -> ~ Lang r w0)).
Proof.
  intros Hp Hk H. unfold Opt in H. simpl in H.
  destruct (rmatch r pos s c k) as [res'|] eqn:Hr.
  - injection H as ->. apply (rmatch_plain _ Hp) in Hr as (w & s' & -> & Hw & Hr).
    exists w, s'. by repeat split; [..|left].
  - exists [], s. simpl. rewrite Nat.add_0_r. repeat split; [done|]. right.
    split; [done|]. intros w0 s0 -> Hw0.
    destruct (proj1 (rmatch_complete _ _ Hw0 Hp) pos s0 c k) as [x Hx]; [apply Hk|].
    by rewrite Hx in Hr.
Qed.

(** The parts of a match of [logMessageRE]: a location if the text begins
    with one, all the spaces that follow, a tag if what follows begins with
    one, all the spaces that follow, and the rest of the text. *)
Lemma logMessageRE_parts (s : list ascii) :
  exists loc sp1 tg sp2 rest,
    s = loc ++ sp1 ++ tg ++ sp2 ++ rest /\
    (Lang locationRE loc \/
     (loc = [] /\ forall w0 s0, s = w0 ++ s0 -> ~ Lang locationRE w0)) /\
    Forall isSpace sp1 /\ head (tg ++ sp2 ++ rest) <> Some " "%char /\
    (Lang tagRE tg \/
     (tg = [] /\ forall w0 s0, tg ++ sp2 ++ rest = w0 ++ s0 -> ~ Lang tagRE w0)) /\
    Forall isSpace sp2 /\ head rest <> Some " "%char /\
    matchAt logMessageGroups logMessageRE 0 s =
      Some [Some (0, length s); Some (0, length loc);
            Some (length loc + length sp1, length loc + length sp1 + length tg);
            Some (length loc + length sp1 + length tg + length sp2, length s)]%nat.
Proof.
  destruct (matchAt_logMessageRE s) as [res Hres]. rewrite Hres.
  unfold matchAt, logMessageRE, logMessageGroups in Hres.
  rewrite rmatch_Group, rmatch_Cat, rmatch_Bot in Hres. cbv beta in Hres.
  set (kf := λ (pos' : nat) (_ : list ascii) (c' : caps),
               Some (setCap 0 (0%nat, pos') c')) in Hres.
  assert (total kf) as Hkf by (intros ???; done).
  assert (forall r, unfailing r -> total (λ pos s c, rmatch r pos s c kf)) as Htail
    by (intros r Hr; by apply Hr).
  rewrite rmatch_Cat, rmatch_Group in Hres.
  apply rmatch_Opt_plain in Hres as (loc & s1 & -> & Hres & Hloc); [|reflexivity|].
  2:{ intros pos s' c. apply Htail.
      repeat (apply unfailing_Cat || apply unfailing_Group
              || apply unfailing_Star || apply unfailing_Opt). }
  rewrite rmatch_Cat, rmatch_Star in Hres.
  match type of Hres with starLoop _ ?k _ ?p _ ?c0 = _ =>
    assert (total k) as Hk3;
      [|destruct (starLoop_spaces k Hk3 (length s1) p s1 c0)
          as (sp1 & s2 & -> & Hsp1 & Hs2 & Heq); [done|]]
  end.
  { apply Htail.
    repeat (apply unfailing_Cat || apply unfailing_Group
            || apply unfailing_Star || apply unfailing_Opt). }
  rewrite Heq in Hres. clear Heq.
  rewrite rmatch_Cat, rmatch_Group in Hres.
  apply rmatch_Opt_plain in Hres as (tg & s3 & -> & Hres & Htg); [|reflexivity|].
  2:{ intros pos s' c. apply Htail.
      repeat (apply unfailing_Cat || apply unfailing_Group
              || apply unfailing_Star || apply unfailing_Opt). }
  rewrite rmatch_Cat, rmatch_Star in Hres.
  match type of Hres with starLoop _ ?k _ ?p _ ?c0 = _ =>
    assert (total k) as Hk5;
      [|destruct (starLoop_spaces k Hk5 (length s3) p s3 c0)
          as (sp2 & rest & -> & Hsp2 & Hrest & Heq); [done|]]
  end.
  { apply Htail.
    repeat (apply unfailing_Cat || apply unfailing_Group
            || apply unfailing_Star || apply unfailing_Opt). }
  rewrite Heq in Hres. clear Heq.
  rewrite rmatch_Group, rmatch_Star in Hres.
  rewrite starLoop_anyChar in Hres; [|by intros ???|done].
  subst kf. cbv beta in Hres. injection Hres as <-.
  exists loc, sp1, tg, sp2, rest.
  repeat (split; [done|]).
  rewrite !length_app, !Nat.add_assoc. reflexivity.
Qed.

Lemma FindStringSubmatchIndex_logMessageRE msg :
  FindStringSubmatchIndex logMessageGroups logMessageRE msg =
  matchAt logMessageGroups logMessageRE 0 (list_ascii_of_string msg).
Proof.
  unfold FindStringSubmatchIndex.
  destruct (matchAt_logMessageRE (list_ascii_of_string msg)) as [c Hc].
  destruct (list_ascii_of_string msg); cbn [findFrom]; by rewrite Hc.
Qed.

(** *** Slices of a text *)

Lemma string_of_list_ascii_app (l1 l2 : list ascii) :
  string_of_list_ascii (l1 ++ l2) =
  (string_of_list_ascii l1 ++ string_of_list_ascii l2)%string.
Proof. induction l1 as [|a l1 IH]; simpl; [done|by rewrite IH]. Qed.

Lemma length_list_ascii_of_string (s : string) :
  length (list_ascii_of_string s) = String.length s.
Proof. induction s as [|a s IH]; simpl; [done|by rewrite IH]. Qed.

Lemma substring_0_0 (s : string) : substring 0 0 s = ""%string.
Proof. by destruct s. Qed.

Lemma substring_prefix (w post : list ascii) :
  substring 0 (length w) (string_of_list_ascii (w ++ post)) = string_of_list_ascii w.
Proof.
  induction w as [|a w IH]; simpl; [apply substring_0_0|by rewrite IH].
Qed.

Lemma substring_middle (pre w post : list ascii) :
  substring (length pre) (length w) (string_of_list_ascii (pre ++ w ++ post)) =
  string_of_list_ascii w.
Proof.
  induction pre as [|a pre IH]; simpl; [apply substring_prefix|apply IH].
Qed.

(** *** The words of the location and of the tag *)

Lemma Lang_Cat_inv r1 r2 w :
  Lang (Cat r1 r2) w -> exists w1 w2, w = w1 ++ w2 /\ Lang r1 w1 /\ Lang r2 w2.
Proof. inversion 1; subst; eauto. Qed.

Lemma Lang_Chr_inv p w : Lang (Chr p) w -> exists a, w = [a] /\ p a = true.
Proof. inversion 1; subst; eauto. Qed.

Lemma Lang_lit x w : Lang (lit x) w -> w = [x].
Proof.
  intros H. apply Lang_Chr_inv in H as (a & -> & Ha).
  apply Ascii.eqb_eq in Ha. by subst.
Qed.

Lemma Lang_Star_Chr p w : Lang (Star (Chr p)) w -> Forall (λ a, p a = true) w.
Proof.
  intros H. remember (Star (Chr p)) as r eqn:Hr.
  induction H as [| | | | | |r w1 w2 H1 _ Hne H2 IH2]; try done.
  injection Hr as ->.
  apply Lang_Chr_inv in H1 as (a & -> & Ha).
  constructor; [done|]. by apply IH2.
Qed.

Lemma Lang_Plus_Chr p w :
  Lang (Plus (Chr p)) w -> w <> [] /\ Forall (λ a, p a = true) w.
Proof.
  intros H. apply Lang_Cat_inv in H as (w1 & w2 & -> & H1 & H2).
  apply Lang_Chr_inv in H1 as (a & -> & Ha). apply Lang_Star_Chr in H2.
  split; [done|]. by constructor.
Qed.

Lemma Lang_locationRE w :
  Lang locationRE w -> isLocation (string_of_list_ascii w).
Proof.
  intros H. unfold locationRE in H.
  apply Lang_Cat_inv in H as (dir & w1 & -> & Hdir & H).
  apply Lang_Cat_inv in H as (sl & w2 & -> & Hsl & H).
  apply Lang_Cat_inv in H as (base & w3 & -> & Hbase & H).
  apply Lang_Cat_inv in H as (dot & w4 & -> & Hdot & H).
  apply Lang_Cat_inv in H as (ext & w5 & -> & Hext & H).
  apply Lang_Cat_inv in H as (col & line & -> & Hcol & Hline).
  apply Lang_lit in Hsl as ->. apply Lang_lit in Hdot as ->.
  apply Lang_lit in Hcol as ->.
  apply Lang_Plus_Chr in Hdir as [? ?]. apply Lang_Plus_Chr in Hbase as [? ?].
  apply Lang_Plus_Chr in Hext as [? ?]. apply Lang_Plus_Chr in Hline as [? ?].
  exists dir, base, ext, line. rewrite list_ascii_of_string_of_list_ascii.
  repeat (split; [done|]). split; [|done].
  by repeat (apply Forall_app; split).
Qed.

Lemma Lang_tagRE w : Lang tagRE w -> isTag (string_of_list_ascii w).
Proof.
  intros H. unfold tagRE in H.
  apply Lang_Cat_inv in H as (op & w1 & -> & Hop & H).
  apply Lang_Cat_inv in H as (body & cl & -> & _ & Hcl).
  apply Lang_lit in Hop as ->. apply Lang_lit in Hcl as ->.
  exists body. by rewrite list_ascii_of_string_of_list_ascii.
Qed.

Lemma submatch_at msg (loc : caps) n lo hi (pre w post : list ascii) :
  list_ascii_of_string msg = pre ++ w ++ post ->
  loc !! n = Some (Some (lo, hi)) ->
  lo = length pre -> hi = (length pre + length w)%nat ->
  submatch msg loc n = string_of_list_ascii w.
Proof.
  intros Hmsg Hn -> ->. unfold submatch. rewrite Hn.
  replace (length pre + length w - length pre)%nat with (length w) by lia.
  rewrite <- (string_of_list_ascii_of_string msg), Hmsg.
  apply substring_middle.
Qed.

(** The row of a log message, with the parts of the message. *)
Lemma toTraceRow_parts lrr :
  exists loc sp1 tg sp2 rest,
    list_ascii_of_string (lrr_msg lrr) = loc ++ sp1 ++ tg ++ sp2 ++ rest /\
    (Lang locationRE loc \/
     (loc = [] /\
      forall w0 s0, list_ascii_of_string (lrr_msg lrr) = w0 ++ s0 ->
                    ~ Lang locationRE w0)) /\
    Forall isSpace sp1 /\ head (tg ++ sp2 ++ rest) <> Some " "%char /\
    (Lang tagRE tg \/
     (tg = [] /\ forall w0 s0, tg ++ sp2 ++ rest = w0 ++ s0 -> ~ Lang tagRE w0)) /\
    Forall isSpace sp2 /\ head rest <> Some " "%char /\
    toTraceRow lrr =
    Ok {| span_idx := DInt (Z.of_nat (sw_index (lrr_span lrr)));
          message_idx := DInt (Z.of_nat (lrr_index lrr));
          timestamp := DTimestampTZ (lrr_timestamp lrr);
          duration :=
            if (Nat.eqb (lrr_index lrr) 0
                && negb (Duration (sw_span (lrr_span lrr)) =? 0))%bool
            then DInterval (Duration (sw_span (lrr_span lrr))) else DNull;
          operation :=
            if Nat.eqb (lrr_index lrr) 0
            then DString (Operation (sw_span (lrr_span lrr))) else DNull;
          location := DString (string_of_list_ascii loc);
          tag := DString (string_of_list_ascii tg);
          message := DString (string_of_list_ascii rest) |}.
Proof.
  destruct (logMessageRE_parts (list_ascii_of_string (lrr_msg lrr)))
    as (loc & sp1 & tg & sp2 & rest & Hs & Hloc & Hsp1 & Hh1 & Htg & Hsp2 & Hh2 & Hm).
  exists loc, sp1, tg, sp2, rest. repeat (split; [done|]).
  unfold toTraceRow. rewrite FindStringSubmatchIndex_logMessageRE, Hm.
  f_equal. f_equal; f_equal.
  - eapply (submatch_at _ _ _ _ _ [] loc (sp1 ++ tg ++ sp2 ++ rest));
      [done|reflexivity|done|done].
  - eapply (submatch_at _ _ _ _ _ (loc ++ sp1) tg (sp2 ++ rest));
      [by rewrite Hs, <- !app_assoc|reflexivity| |]; by rewrite length_app.
  - eapply (submatch_at _ _ _ _ _ (loc ++ sp1 ++ tg ++ sp2) rest []);
      [by rewrite Hs, app_nil_r, <- !app_assoc|reflexivity| |].
    + rewrite !length_app. lia.
    + rewrite Hs, !length_app. lia.
Qed.

Lemma Lang_Star_Chr_intro p w : Forall (λ a, p a = true) w -> Lang (Star (Chr p)) w.
Proof.
  induction 1 as [|a w Ha _ IH]; [constructor|].
  change (a :: w) with ([a] ++ w). constructor; [by constructor|done|done].
Qed.

Lemma Lang_Plus_Chr_intro p w :
  w <> [] -> Forall (λ a, p a = true) w -> Lang (Plus (Chr p)) w.
Proof.
  intros Hne Hw. destruct Hw as [|a w Ha Hw]; [done|].
  change (a :: w) with ([a] ++ w).
  constructor; [by constructor|by apply Lang_Star_Chr_intro].
Qed.

Lemma Lang_lit_intro x : Lang (lit x) [x].
Proof. constructor. apply Ascii.eqb_refl. Qed.

Lemma isLocation_Lang l : isLocation l -> Lang locationRE (list_ascii_of_string l).
Proof.
  intros (dir & base & ext & line & -> & Hd & Hb & He & Hl & Hall & Hline).
  apply Forall_app in Hall as [Hdir Hall]. apply Forall_app in Hall as [Hbase Hext].
  unfold locationRE.
  constructor; [by apply Lang_Plus_Chr_intro|].
  apply (Lang_Cat _ _ ["/"%char]); [apply Lang_lit_intro|].
  constructor; [by apply Lang_Plus_Chr_intro|].
  apply (Lang_Cat _ _ ["."%char]); [apply Lang_lit_intro|].
  constructor; [by apply Lang_Plus_Chr_intro|].
  apply (Lang_Cat _ _ [":"%char]); [apply Lang_lit_intro|].
  by apply Lang_Plus_Chr_intro.
Qed.

Lemma isSimpleTag_Lang t : isSimpleTag t -> Lang tagRE (list_ascii_of_string t).
Proof.
  intros (body & -> & Hbody). unfold tagRE.
  apply (Lang_Cat _ _ ["["%char]); [apply Lang_lit_intro|].
  constructor; [|apply Lang_lit_intro].
  induction Hbody as [|a body Ha _ IH]; [constructor|].
  change (a :: body) with ([a] ++ body).
  constructor; [|done|done]. apply Lang_Alt_l. by constructor.
Qed.

Lemma list_ascii_of_string_app (s1 s2 : string) :
  list_ascii_of_string (s1 ++ s2)%string =
  list_ascii_of_string s1 ++ list_ascii_of_string s2.
Proof. induction s1 as [|a s1 IH]; simpl; [done|by rewrite IH]. Qed.

(** ---------- theorems ---------- *)

(** X1: the location, tag and message columns of a row, with the spaces
    that separated them, make up the log message again: the split loses
    nothing and invents nothing. *)
Theorem split_is_lossless lrr :
  exists row l sp1 t sp2 m,
    toTraceRow lrr = Ok row /\
    location row = DString l /\ tag row = DString t /\ message row = DString m /\
    lrr_msg lrr = (l ++ sp1 ++ t ++ sp2 ++ m)%string /\
    allSpaces sp1 /\ allSpaces sp2.
Proof.
  destruct (toTraceRow_parts lrr)
    as (loc & sp1 & tg & sp2 & rest & Hs & _ & Hsp1 & _ & _ & Hsp2 & _ & Hrow).
  eexists _, (string_of_list_ascii loc), (string_of_list_ascii sp1),
    (string_of_list_ascii tg), (string_of_list_ascii sp2),
    (string_of_list_ascii rest).
  split; [exact Hrow|]. cbn [location tag message].
  repeat (split; [done|]). split; [|split].
  - rewrite <- !string_of_list_ascii_app, <- Hs.
    by rewrite string_of_list_ascii_of_string.
  - unfold allSpaces. by rewrite list_ascii_of_string_of_list_ascii.
  - unfold allSpaces. by rewrite list_ascii_of_string_of_list_ascii.
Qed.

(** X2: the location column is empty or has the form
    "dir/base.ext:line"; the tag column is empty or a text between brackets;
    the message column does not begin with a space. *)
Theorem split_parts_shape lrr :
  exists row l t m,
    toTraceRow lrr = Ok row /\
    location row = DString l /\ tag row = DString t /\ message row = DString m /\
    (l = ""%string \/ isLocation l) /\
    (t = ""%string \/ isTag t) /\
    head (list_ascii_of_string m) <> Some " "%char.
Proof.
  destruct (toTraceRow_parts lrr)
    as (loc & sp1 & tg & sp2 & rest & Hs & Hloc & _ & _ & Htg & _ & Hrest & Hrow).
  eexists _, (string_of_list_ascii loc), (string_of_list_ascii tg),
    (string_of_list_ascii rest).
  split; [exact Hrow|]. cbn [location tag message].
  repeat (split; [done|]). split; [|split].
  - destruct Hloc as [Hloc|[-> _]]; [right|by left].
    by apply Lang_locationRE.
  - destruct Htg as [Htg|[-> _]]; [right|by left].
    by apply Lang_tagRE.
  - by rewrite list_ascii_of_string_of_list_ascii.
Qed.

(** X3: the expression always matches at the start of the message and
    up to its end, all three groups take part in the match, and their
    positions are in order and within the message: no slice of the message
    by these positions is out of range. *)
Theorem submatch_positions_in_range (msg : string) :
  exists a b c d : nat,
    FindStringSubmatchIndex logMessageGroups logMessageRE msg =
      Some [Some (0%nat, String.length msg); Some (0%nat, a);
            Some (b, c); Some (d, String.length msg)] /\
    (a <= b <= c)%nat /\ (c <= d <= String.length msg)%nat.
Proof.
  destruct (logMessageRE_parts (list_ascii_of_string msg))
    as (loc & sp1 & tg & sp2 & rest & Hs & _ & _ & _ & _ & _ & _ & Hm).
  rewrite FindStringSubmatchIndex_logMessageRE, Hm.
  rewrite length_list_ascii_of_string.
  eexists _, _, _, _. split; [reflexivity|].
  apply (f_equal length) in Hs.
  rewrite length_list_ascii_of_string, !length_app in Hs. lia.
Qed.

(** X4: the message of a start row is never taken apart: whatever the
    operation name, the location and the tag of the row are empty and its
    message is the whole start message. *)
Theorem start_row_is_not_split (span : spanWithIndex) :
  toTraceRow (spanStartRow span) =
  Ok {| span_idx := DInt (Z.of_nat (sw_index span));
        message_idx := DInt 0;
        timestamp := DTimestampTZ (StartTime (sw_span span));
        duration := if Duration (sw_span span) =? 0 then DNull
                    else DInterval (Duration (sw_span span));
        operation := DString (Operation (sw_span span));
        location := DString "";
        tag := DString "";
        message := DString (spanStartMsg (Operation (sw_span span))) |}.
Proof.
  destruct (toTraceRow_parts (spanStartRow span))
    as (loc & sp1 & tg & sp2 & rest & Hs & Hloc & Hsp1 & _ & Htg & Hsp2 & _ & Hrow).
  rewrite Hrow. cbn [spanStartRow lrr_index lrr_span lrr_timestamp lrr_msg] in *.
  pose proof Hs as Hs'. unfold spanStartMsg in Hs'. cbn in Hs'.
  assert (loc = []) as ->.
  { destruct Hloc as [Hloc|[-> _]]; [exfalso|done].
    apply Lang_locationRE in Hloc
      as (dir & base & ext & line & Hl & Hd & Hb & He & _ & Hall & _).
    rewrite list_ascii_of_string_of_list_ascii in Hl. subst loc.
    apply Forall_app in Hall as [Hdir Hall]. apply Forall_app in Hall as [Hbase Hext].
    assert (Forall (λ a, locChar a = true)
              (dir ++ "/"%char :: base ++ "."%char :: ext)) as Hv.
    { apply Forall_app; split; [done|]. constructor; [done|].
      apply Forall_app; split; [done|]. by constructor. }
    assert (3 < length (dir ++ "/"%char :: base ++ "."%char :: ext))%nat as Hlen.
    { rewrite length_app. cbn [length]. rewrite length_app. cbn [length].
      destruct dir; [done|]. destruct base; [done|]. destruct ext; [done|].
      cbn [length]. lia. }
    apply (f_equal (λ l, l !! 3%nat)) in Hs'. cbn [lookup list_lookup] in Hs'.
    replace ((dir ++ "/"%char :: base ++ "."%char :: ext ++ ":"%char :: line)
             ++ sp1 ++ tg ++ sp2 ++ rest)
      with ((dir ++ "/"%char :: base ++ "."%char :: ext)
            ++ ":"%char :: line ++ sp1 ++ tg ++ sp2 ++ rest) in Hs'
      by (repeat (rewrite <- app_assoc || (progress cbn [app])); done).
    rewrite lookup_app_l in Hs' by done. symmetry in Hs'.
    by apply (Forall_lookup_1 _ _ _ _ Hv) in Hs'. }
  assert (sp1 = []) as ->.
  { destruct Hsp1 as [|a sp1 Ha _]; [done|]. cbn in Hs'. by injection Hs' as <-. }
  assert (tg = []) as ->.
  { destruct Htg as [Htg|[-> _]]; [exfalso|done].
    apply Lang_tagRE in Htg as (body & Ht).
    rewrite list_ascii_of_string_of_list_ascii in Ht. subst tg. cbn in Hs'. done. }
  assert (sp2 = []) as ->.
  { destruct Hsp2 as [|a sp2 Ha _]; [done|]. cbn in Hs'. by injection Hs' as <-. }
  cbn [app] in Hs. rewrite <- Hs, string_of_list_ascii_of_string.
  cbn. by destruct (Duration (sw_span span) =? 0).
Qed.

(** X5: a location and a tag are taken whenever they are there: the
    location column is empty only if the log message does not begin with a
    code location, and the tag column is empty only if the message column
    does not begin with a tag without brackets inside. *)
Theorem location_and_tag_are_preferred lrr :
  exists row l t m,
    toTraceRow lrr = Ok row /\
    location row = DString l /\ tag row = DString t /\ message row = DString m /\
    (l = ""%string ->
     forall w rest, lrr_msg lrr = (w ++ rest)%string -> ~ isLocation w) /\
    (t = ""%string ->
     forall w rest, m = (w ++ rest)%string -> ~ isSimpleTag w).
Proof.
  destruct (toTraceRow_parts lrr)
    as (loc & sp1 & tg & sp2 & rest & Hs & Hloc & _ & Hh & Htg & Hsp2 & _ & Hrow).
  eexists _, (string_of_list_ascii loc), (string_of_list_ascii tg),
    (string_of_list_ascii rest).
  split; [exact Hrow|]. cbn [location tag message].
  repeat (split; [done|]). split.
  - intros Hl w rest' Hmsg Hw.
    destruct Hloc as [Hloc|[_ Hnone]].
    + apply Lang_locationRE in Hloc as (dir & ? & ? & ? & Hl' & Hd & _).
      rewrite Hl in Hl'. by destruct dir.
    + apply (Hnone (list_ascii_of_string w) (list_ascii_of_string rest')).
      * by rewrite Hmsg, list_ascii_of_string_app.
      * by apply isLocation_Lang.
  - intros Ht w rest' Hm Hw.
    destruct Htg as [Htg|[-> Hnone]].
    + apply Lang_tagRE in Htg as (body & Ht'). by rewrite Ht in Ht'.
    + destruct Hsp2 as [|a sp2 Ha _]; [|by rewrite Ha in Hh].
      apply (Hnone (list_ascii_of_string w) (list_ascii_of_string rest')).
      * cbn [app]. rewrite <- list_ascii_of_string_app, <- Hm.
        by rewrite list_ascii_of_string_of_list_ascii.
      * by apply isSimpleTag_Lang.
Qed.

(** * The message of a log record *)

(** X16: the message of a log record is taken from its first field with
    the key "event" or "error", whatever the other fields are; a record
    without such a field gets the placeholder. *)
Theorem extractMsgFromRecord_first_field rec pre f post :
  Fields rec = pre ++ f :: post ->
  Forall (λ g, ~ isMessageField g) pre ->
  (Key f = "event" -> extractMsgFromRecord rec = Value f) /\
  (Key f = "error" -> extractMsgFromRecord rec = ("error:" ++ Value f)%string) /\
  (~ isMessageField f -> Forall (λ g, ~ isMessageField g) post ->
   extractMsgFromRecord rec = "<event missing in trace message>").
Proof.
  unfold extractMsgFromRecord. intros -> Hpre.
  assert (forall l, Forall (λ g, ~ isMessageField g) l ->
            forall rest, extractMsgFromFields (l ++ rest) = extractMsgFromFields rest)
    as Hskip.
  { induction 1 as [|g l Hg _ IH]; intros rest; [done|]. simpl.
    destruct (String.eqb_spec (Key g) "event") as [Hk|_]; [destruct Hg; by left|].
    destruct (String.eqb_spec (Key g) "error") as [Hk|_]; [destruct Hg; by right|].
    apply IH. }
  rewrite Hskip by done. simpl. split; [|split].
  - intros ->. done.
  - intros Hk. rewrite Hk. done.
  - intros Hf Hpost.
    destruct (String.eqb_spec (Key f) "event") as [Hk|_]; [destruct Hf; by left|].
    destruct (String.eqb_spec (Key f) "error") as [Hk|_]; [destruct Hf; by right|].
    rewrite <- (app_nil_r post). by rewrite Hskip.
Qed.

Lemma extractMsgFromRecord_first_field_witness :
  let rec := mkLogRecord 5 [mkField "tag" "n1"; mkField "error" "boom";
                            mkField "event" "late"] in
  (Key (mkField "error" "boom") = "event" ->
   extractMsgFromRecord rec = Value (mkField "error" "boom")) /\
  (Key (mkField "error" "boom") = "error" ->
   extractMsgFromRecord rec = ("error:" ++ Value (mkField "error" "boom"))%string) /\
  (~ isMessageField (mkField "error" "boom") ->
   Forall (λ g, ~ isMessageField g) [mkField "event" "late"] ->
   extractMsgFromRecord rec = "<event missing in trace message>").
Proof.
  apply (extractMsgFromRecord_first_field _ [mkField "tag" "n1"]
           (mkField "error" "boom") [mkField "event" "late"]).
  - reflexivity.
  - constructor; [|constructor]. intros [H|H]; discriminate H.
Defined.

(** * Errors, panics and success of the reduction *)

(** *** Where a merge fails *)

Lemma bind_Panic {A B} (o : outcome A) (f : A -> outcome B) :
  o ≫= f = Panic -> o = Panic \/ exists a, o = Ok a /\ f a = Panic.
Proof. destruct o; simpl; intros H; try discriminate; [right; eauto|by left]. Qed.

(** A merge that returns an error has run some of the children with
    success and got the error from the next one. *)
Lemma mergeLogs_Err_inv recur span logs : forall i childSpans seen e,
  mergeLogs recur span logs i childSpans seen = Err e ->
  exists cs1 c cs2 blocks s1,
    childSpans = cs1 ++ c :: cs2 /\
    RunChildren recur cs1 seen blocks s1 /\ recur c s1 = Err e.
Proof.
  assert (forall c cs seen e b s1,
            recur c seen = Ok (b, s1) ->
            (exists cs1 c' cs2 blocks s2,
               cs = cs1 ++ c' :: cs2 /\
               RunChildren recur cs1 s1 blocks s2 /\ recur c' s2 = Err e) ->
            exists cs1 c' cs2 blocks s2,
              c :: cs = cs1 ++ c' :: cs2 /\
              RunChildren recur cs1 seen blocks s2 /\ recur c' s2 = Err e) as Hcons.
  { intros c cs seen e b s1 Hc (cs1 & c' & cs2 & blocks & s2 & -> & Hrun & He).
    exists (c :: cs1), c', cs2, (b :: blocks), s2.
    split; [done|]. split; [by econstructor|done]. }
  assert (forall c cs seen e,
            recur c seen = Err e ->
            exists cs1 c' cs2 blocks s2,
              c :: cs = cs1 ++ c' :: cs2 /\
              RunChildren recur cs1 seen blocks s2 /\ recur c' s2 = Err e) as Hhead.
  { intros c cs seen e He. exists [], c, cs, [], seen.
    split; [done|]. split; [constructor|done]. }
  induction logs as [|l logs IHlogs]; intros i childSpans;
    induction childSpans as [|c cs IHcs]; intros seen e H.
  - discriminate.
  - rewrite mergeLogs_only_children in H.
    destruct (maxTime <? StartTime (sw_span c)); [discriminate|].
    apply bind_Err in H as [H | ([b s1] & Hc & H)]; [by apply Hhead|].
    apply bind_Err in H as [H | ([rows s2] & _ & H)]; [|discriminate].
    eapply Hcons; eauto.
  - rewrite mergeLogs_only_logs in H.
    destruct (Time l <? maxTime); [|discriminate].
    apply bind_Err in H as [H | ([rows s2] & _ & H)]; [|discriminate].
    by eapply IHlogs.
  - rewrite mergeLogs_both in H.
    destruct (Time l <? StartTime (sw_span c)).
    + apply bind_Err in H as [H | ([rows s2] & _ & H)]; [|discriminate].
      by eapply IHlogs.
    + apply bind_Err in H as [H | ([b s1] & Hc & H)]; [by apply Hhead|].
      apply bind_Err in H as [H | ([rows s2] & _ & H)]; [|discriminate].
      eapply Hcons; eauto.
Qed.

(** A merge that panics has met a log entry at or after the sentinel, or a
    child that starts after it, or a child whose expansion panics. *)
Lemma mergeLogs_Panic_inv recur span logs : forall i childSpans seen,
  mergeLogs recur span logs i childSpans seen = Panic ->
  (exists l, l ∈ logs /\ maxTime <= Time l) \/
  (exists c, c ∈ childSpans /\ maxTime < StartTime (sw_span c)) \/
  (exists c s, c ∈ childSpans /\ recur c s = Panic).
Proof.
  assert (forall (l : RecordedSpan_LogRecord) logs (cs : list spanWithIndex),
    ((exists l', l' ∈ logs /\ maxTime <= Time l') \/
     (exists c, c ∈ cs /\ maxTime < StartTime (sw_span c)) \/
     (exists c s, c ∈ cs /\ recur c s = Panic)) ->
    (exists l', l' ∈ l :: logs /\ maxTime <= Time l') \/
    (exists c, c ∈ cs /\ maxTime < StartTime (sw_span c)) \/
    (exists c s, c ∈ cs /\ recur c s = Panic)) as Hlog.
  { intros l0 logs0 cs0 [(l' & ? & ?)|[?|?]]; [left|by right; left|by right; right].
    exists l'. split; [by right|done]. }
  assert (forall (c : spanWithIndex) (logs : list RecordedSpan_LogRecord) cs,
    ((exists l', l' ∈ logs /\ maxTime <= Time l') \/
     (exists c', c' ∈ cs /\ maxTime < StartTime (sw_span c')) \/
     (exists c' s, c' ∈ cs /\ recur c' s = Panic)) ->
    (exists l', l' ∈ logs /\ maxTime <= Time l') \/
    (exists c', c' ∈ c :: cs /\ maxTime < StartTime (sw_span c')) \/
    (exists c' s, c' ∈ c :: cs /\ recur c' s = Panic)) as Hchild.
  { intros c0 logs0 cs0 [?|[(c' & ? & ?)|(c' & s & ? & ?)]];
      [by left|right; left|right; right].
    - exists c'. split; [by right|done].
    - exists c', s. split; [by right|done]. }
  induction logs as [|l logs IHlogs]; intros i childSpans;
    induction childSpans as [|c cs IHcs]; intros seen H.
  - discriminate.
  - rewrite mergeLogs_only_children in H.
    destruct (maxTime <? StartTime (sw_span c)) eqn:Hc.
    { apply Z.ltb_lt in Hc. right; left. exists c. split; [by left|done]. }
    apply bind_Panic in H as [H | ([b s1] & _ & H)].
    { right; right. exists c, seen. split; [by left|done]. }
    apply bind_Panic in H as [H | ([rows s2] & _ & H)]; [|discriminate].
    by apply Hchild, (IHcs s1).
  - rewrite mergeLogs_only_logs in H.
    destruct (Time l <? maxTime) eqn:Hl.
    2:{ apply Z.ltb_ge in Hl. left. exists l. split; [by left|done]. }
    apply bind_Panic in H as [H | ([rows s2] & _ & H)]; [|discriminate].
    by apply Hlog, (IHlogs (S i) [] seen).
  - rewrite mergeLogs_both in H.
    destruct (Time l <? StartTime (sw_span c)).
    + apply bind_Panic in H as [H | ([rows s2] & _ & H)]; [|discriminate].
      by apply Hlog, (IHlogs (S i) (c :: cs) seen).
    + apply bind_Panic in H as [H | ([b s1] & _ & H)].
      { right; right. exists c, seen. split; [by left|done]. }
      apply bind_Panic in H as [H | ([rows s2] & _ & H)]; [|discriminate].
      by apply Hchild, (IHcs s1).
Qed.

Lemma wf_span_elem_of allSpans span : wf_span allSpans span -> sw_span span ∈ allSpans.
Proof. unfold wf_span. apply list_elem_of_lookup_2. Qed.

(** *** Panics *)

Lemma getMessagesForSubtrace_no_Panic fuel : forall allSpans span seen,
  timesBounded allSpans -> wf_span allSpans span ->
  getMessagesForSubtrace fuel allSpans span seen <> Panic.
Proof.
  induction fuel as [|fuel IH]; intros allSpans span seen Hb Hwf H; [discriminate|].
  rewrite getMessagesForSubtrace_unfold in H.
  destruct (decide (SpanID (sw_span span) ∈ seen)); [discriminate|].
  apply bind_Panic in H as [H | ([rows s2] & _ & H)]; [|discriminate].
  apply mergeLogs_Panic_inv in H as [(l & Hl & Ht)|[(c & Hc & Ht)|(c & s & Hc & Hp)]].
  - destruct (Hb _ (wf_span_elem_of _ _ Hwf)) as [_ Hlogs].
    specialize (Hlogs _ Hl). lia.
  - apply getOrderedChildSpans_spec in Hc as [Hc _].
    destruct (Hb _ (wf_span_elem_of _ _ Hc)) as [Hs _]. lia.
  - apply getOrderedChildSpans_spec in Hc as [Hc _]. by eapply IH.
Qed.

Lemma collectLogs_no_Panic fuel allSpans spans : forall spanIdx seen,
  timesBounded allSpans ->
  (forall k sp, spans !! k = Some sp -> allSpans !! (spanIdx + k)%nat = Some sp) ->
  collectLogs fuel allSpans spans spanIdx seen <> Panic.
Proof.
  induction spans as [|span rest IH]; intros spanIdx seen Hb Hidx H; simpl in H;
    [discriminate|].
  assert (forall k sp, rest !! k = Some sp ->
                       allSpans !! (S spanIdx + k)%nat = Some sp) as Hrest.
  { intros k sp Hk. specialize (Hidx (S k) sp Hk).
    by replace (spanIdx + S k)%nat with (S spanIdx + k)%nat in Hidx by lia. }
  destruct (decide (SpanID span ∈ seen)); [by eapply IH|].
  apply bind_Panic in H as [H | ([msgs s1] & _ & H)].
  - eapply getMessagesForSubtrace_no_Panic; [exact Hb| |exact H].
    unfold wf_span. simpl. specialize (Hidx 0%nat span eq_refl).
    by rewrite Nat.add_0_r in Hidx.
  - apply bind_Panic in H as [H | (rows & _ & H)]; [by eapply IH|discriminate].
Qed.

Lemma mergeLogs_late_log recur span logs : forall i seen,
  (exists l, l ∈ logs /\ maxTime <= Time l) ->
  mergeLogs recur span logs i [] seen = Panic.
Proof.
  induction logs as [|l logs IH]; intros i seen (l' & Hl' & Ht).
  - by apply elem_of_nil in Hl'.
  - rewrite mergeLogs_only_logs.
    destruct (Time l <? maxTime) eqn:Hl; [|done].
    apply Z.ltb_lt in Hl. apply elem_of_cons in Hl' as [->|Hl']; [lia|].
    rewrite IH; [done|]. by exists l'.
Qed.

(** *** Errors *)

Lemma getMessagesForSubtrace_Err_child fuel : forall allSpans span seen e,
  wf_span allSpans span -> SpanID (sw_span span) ∉ seen ->
  getMessagesForSubtrace fuel allSpans span seen = Err e -> namesChild allSpans e.
Proof.
  induction fuel as [|fuel IH]; intros allSpans span seen e Hwf Hn H; [discriminate|].
  rewrite getMessagesForSubtrace_unfold in H.
  destruct (decide (SpanID (sw_span span) ∈ seen)); [done|].
  apply bind_Err in H as [H | ([rows s2] & _ & H)]; [|discriminate].
  apply mergeLogs_Err_inv in H as (cs1 & c & cs2 & blocks & s1 & Hcs & _ & Hc).
  assert (c ∈ getOrderedChildSpans (SpanID (sw_span span)) allSpans) as Hin.
  { rewrite Hcs. apply elem_of_app. right. by left. }
  apply getOrderedChildSpans_spec in Hin as [Hcwf Hpar].
  destruct (decide (SpanID (sw_span c) ∈ s1)) as [Hseen|Hseen].
  - destruct fuel as [|fuel]; [discriminate|].
    rewrite getMessagesForSubtrace_unfold in Hc.
    destruct (decide (SpanID (sw_span c) ∈ s1)); [|done].
    injection Hc as <-. exists (sw_span c), (sw_span span).
    split; [by apply wf_span_elem_of|]. split; [by apply wf_span_elem_of|done].
  - by eapply IH.
Qed.

Lemma collectLogs_Err_child fuel allSpans spans : forall spanIdx seen e,
  (forall k sp, spans !! k = Some sp -> allSpans !! (spanIdx + k)%nat = Some sp) ->
  collectLogs fuel allSpans spans spanIdx seen = Err e -> namesChild allSpans e.
Proof.
  induction spans as [|span rest IH]; intros spanIdx seen e Hidx H; simpl in H;
    [discriminate|].
  assert (forall k sp, rest !! k = Some sp ->
                       allSpans !! (S spanIdx + k)%nat = Some sp) as Hrest.
  { intros k sp Hk. specialize (Hidx (S k) sp Hk).
    by replace (spanIdx + S k)%nat with (S spanIdx + k)%nat in Hidx by lia. }
  destruct (decide (SpanID span ∈ seen)) as [|Hn]; [by eapply IH|].
  apply bind_Err in H as [H | ([msgs s1] & _ & H)].
  - refine (getMessagesForSubtrace_Err_child fuel allSpans
              (mkSpanWithIndex span spanIdx) seen e _ Hn H).
    unfold wf_span. simpl. specialize (Hidx 0%nat span eq_refl).
    by rewrite Nat.add_0_r in Hidx.
  - apply bind_Err in H as [H | (rows & _ & H)]; [by eapply IH|discriminate].
Qed.

(** *** The rows of one span *)

Lemma Interleave_filter {A} (P : A -> Prop) `{!forall x, Decision (P x)}
    (own : list A) blocks out :
  Interleave own blocks out ->
  (forall x, x ∈ own -> P x) ->
  (forall b x, b ∈ blocks -> x ∈ b -> ~ P x) ->
  filter P out = own.
Proof.
  induction 1 as [|x own blocks out _ IH|own b blocks out _ IH]; intros Hown Hblk.
  - done.
  - rewrite filter_cons_True by (apply Hown; by left).
    f_equal. apply IH; [|done]. intros y Hy. apply Hown. by right.
  - rewrite filter_app, IH; [|done|].
    + rewrite (filter_nil_intro P b); [done|].
      intros x Hx. apply (Hblk b); [by left|done].
    + intros b' x Hb'. apply Hblk. by right.
Qed.

Lemma Forall2_filter {A B} (R : A -> B -> Prop) (P : A -> Prop) (Q : B -> Prop)
    `{!forall x, Decision (P x)} `{!forall y, Decision (Q y)} l1 l2 :
  Forall2 R l1 l2 ->
  (forall x y, x ∈ l1 -> R x y -> (P x <-> Q y)) ->
  Forall2 R (filter P l1) (filter Q l2).
Proof.
  induction 1 as [|x y l1 l2 Hxy _ IH]; intros HPQ; [constructor|].
  assert (Forall2 R (filter P l1) (filter Q l2)) as IH'.
  { apply IH. intros x' y' Hx'. apply HPQ. by right. }
  destruct (decide (P x)) as [HP|HP].
  - rewrite filter_cons_True by done.
    rewrite filter_cons_True by (by apply (HPQ x y); [left|..]).
    by constructor.
  - rewrite filter_cons_False by done.
    rewrite filter_cons_False; [done|].
    intros HQ. apply HP. by apply (HPQ x y); [left|..].
Qed.

Lemma toTraceRows_of_Forall2 allLogs res :
  Forall2 (λ lrr row, toTraceRow lrr = Ok row) allLogs res ->
  toTraceRows allLogs = Ok res.
Proof.
  induction 1 as [|lrr row allLogs res Hrow _ IH]; [done|].
  simpl. rewrite Hrow. simpl. by rewrite IH.
Qed.

(** The rows of the span at position [k] among the rows of a successful
    first loop: the start row and the rows of the log entries, in the order
    of the log. *)
Lemma collectLogs_span_rows fuel allSpans rows seen' lrr :
  collectLogs fuel allSpans allSpans 0 ∅ = Ok rows ->
  Good allSpans ∅ rows seen' ->
  lrr ∈ rows ->
  filter (λ r, sw_index (lrr_span r) = sw_index (lrr_span lrr)) rows =
  spanStartRow (lrr_span lrr) ::
    logRows (lrr_span lrr) 0 (Logs (sw_span (lrr_span lrr))).
Proof.
  intros Hcollect Hgood Hin.
  set (span := lrr_span lrr).
  set (P := λ r : logRecordRow, sw_index (lrr_span r) = sw_index span).
  destruct (collectLogs_row_block fuel allSpans allSpans 0 ∅ rows
              (λ k sp Hk, Hk) Hcollect lrr Hin)
    as (pre & blk & post & fuel1 & s1 & s2 & Hrows & Hblk & Hdis).
  fold span in Hblk.
  pose proof (good_wf _ _ _ _ Hgood _ Hin) as Hwf. fold span in Hwf.
  pose proof (getMessagesForSubtrace_Good _ _ _ _ _ _ Hwf Hblk) as Hgblk.
  apply getMessagesForSubtrace_Ok in Hblk
    as (fuel' & rows0 & -> & Hfresh & -> & Hmerge).
  apply mergeLogs_Ok in Hmerge as (blocks & Hrun & Hint).
  assert (forall x, x ∈ rows -> P x -> lrr_span x = span) as Hsame.
  { intros x Hx HPx. by apply (Good_same_index _ _ _ _ _ _ Hgood Hx Hin). }
  assert (forall x, x ∈ pre ++ post -> ~ P x) as Hout.
  { intros x Hx HPx.
    apply (Hdis x (spanStartRow span) Hx); [by left|].
    unfold rowID. rewrite (Hsame x); [done| |done].
    rewrite Hrows. apply elem_of_app in Hx as [Hx|Hx].
    - apply elem_of_app. by left.
    - apply elem_of_app. right. apply elem_of_app. by right. }
  assert (Good allSpans ({[SpanID (sw_span span)]} ∪ s1) (concat blocks) s2) as Hgch.
  { eapply RunChildren_Good; [| |exact Hrun].
    - intros c s b s' Hc Hrec. by eapply getMessagesForSubtrace_Good.
    - apply Forall_forall. intros c Hc.
      by apply getOrderedChildSpans_spec in Hc as [Hc _]. }
  rewrite Hrows, !filter_app.
  rewrite (filter_nil_intro P pre), (filter_nil_intro P post); cycle 1.
  { intros x Hx. apply Hout, elem_of_app. by right. }
  { intros x Hx. apply Hout, elem_of_app. by left. }
  rewrite app_nil_r. cbn [app].
  rewrite filter_cons_True by done. f_equal.
  apply (Interleave_filter P _ _ _ Hint).
  - intros x Hx. apply elem_of_logRows in Hx as (k & l & -> & _). done.
  - intros b x Hb Hx HPx.
    assert (x ∈ concat blocks) as Hxc by (apply elem_of_concat; eauto).
    apply (good_fresh _ _ _ _ Hgch x Hxc).
    apply elem_of_union. left. apply elem_of_singleton.
    unfold rowID. rewrite (Hsame x); [done| |done].
    rewrite Hrows. apply elem_of_app. right. apply elem_of_app. left. right.
    rewrite (Interleave_Permutation _ _ _ Hint). apply elem_of_app. by right.
Qed.

(** *** The number of rows *)

Lemma length_logRows span logs : forall i, length (logRows span i logs) = length logs.
Proof. induction logs as [|l logs IH]; intros i; simpl; [done|by rewrite IH]. Qed.

Lemma RunChildren_length recur cs seen blocks seen' :
  (forall c s b s', recur c s = Ok (b, s') ->
                    length b = sum_list_with rowsOfSpan (filter isStart b)) ->
  RunChildren recur cs seen blocks seen' ->
  length (concat blocks) = sum_list_with rowsOfSpan (filter isStart (concat blocks)).
Proof.
  intros Hrec. induction 1 as [|c cs seen b seen1 blocks seen' Hc _ IH]; [done|].
  simpl. rewrite length_app, filter_app, sum_list_with_app, IH.
  by rewrite (Hrec _ _ _ _ Hc).
Qed.

Lemma getMessagesForSubtrace_length fuel : forall allSpans span seen rows seen',
  getMessagesForSubtrace fuel allSpans span seen = Ok (rows, seen') ->
  length rows = sum_list_with rowsOfSpan (filter isStart rows).
Proof.
  induction fuel as [|fuel IH]; intros allSpans span seen rows seen' H; [discriminate|].
  apply getMessagesForSubtrace_Ok in H as (fuel' & rows0 & [= <-] & _ & -> & Hmerge).
  apply mergeLogs_Ok in Hmerge as (blocks & Hrun & Hint).
  apply Interleave_Permutation in Hint.
  rewrite filter_cons_True by done. cbn [length sum_list_with].
  rewrite Hint, length_app, filter_app, sum_list_with_app.
  rewrite filter_isStart_logRows, length_logRows. cbn [sum_list_with].
  rewrite <- (RunChildren_length _ _ _ _ _ (IH allSpans) Hrun).
  unfold rowsOfSpan. cbn [spanStartRow lrr_span]. lia.
Qed.

Lemma collectLogs_length fuel allSpans spans : forall spanIdx seen rows,
  collectLogs fuel allSpans spans spanIdx seen = Ok rows ->
  length rows = sum_list_with rowsOfSpan (filter isStart rows).
Proof.
  induction spans as [|span rest IH]; intros spanIdx seen rows H; simpl in H.
  - by injection H as <-.
  - destruct (decide (SpanID span ∈ seen)); [by eapply IH|].
    apply bind_pair_Ok in H as (msgs & seen1 & Hmsgs & H).
    apply bind_Ok in H as (rows' & Hrows' & H). injection H as <-.
    rewrite length_app, filter_app, sum_list_with_app.
    by rewrite (getMessagesForSubtrace_length _ _ _ _ _ _ Hmsgs), (IH _ _ _ Hrows').
Qed.

(** With distinct identifiers, the spans that have a start row are the
    spans of the input. *)
Lemma started_spans_Permutation allSpans rows seen' :
  NoDup (SpanID <$> allSpans) ->
  Good allSpans ∅ rows seen' ->
  (forall sp, sp ∈ allSpans -> SpanID sp ∈ seen') ->
  (λ r, sw_span (lrr_span r)) <$> filter isStart rows ≡ₚ allSpans.
Proof.
  intros Hnd Hgood Hall. apply NoDup_Permutation.
  - apply (NoDup_fmap_1 SpanID). rewrite <- list_fmap_compose.
    exact (good_nodup _ _ _ _ Hgood).
  - by apply (NoDup_fmap_1 SpanID).
  - intros sp. split.
    + intros Hsp. apply list_elem_of_fmap in Hsp as (r & -> & Hr).
      apply list_elem_of_filter in Hr as [_ Hr].
      apply wf_span_elem_of, (good_wf _ _ _ _ Hgood _ Hr).
    + intros Hsp. pose proof (Hall _ Hsp) as Hseen.
      apply (good_seen _ _ _ _ Hgood) in Hseen as [Hin|(r & Hr & Hid)];
        [by apply elem_of_empty in Hin|].
      apply list_elem_of_fmap. exists (spanStartRow (lrr_span r)). split.
      * cbn [spanStartRow lrr_span].
        apply (NoDup_fmap_elem_inj SpanID allSpans); [done|done| |done].
        apply wf_span_elem_of, (good_wf _ _ _ _ Hgood _ Hr).
      * apply list_elem_of_filter. split; [done|].
        by apply (good_start _ _ _ _ Hgood).
Qed.

(** *** Descendants *)

Section forest.
Variable spans : list RecordedSpan.
Hypothesis Hnd : NoDup (SpanID <$> spans).
Hypothesis Hpf : parentsFirst spans.

Lemma Reach_trans a b x : Reach spans a b -> Reach spans b x -> Reach spans a x.
Proof. intros Hab. induction 1; [done|]. by constructor. Qed.

Lemma same_ID_same_index i j a b :
  spans !! i = Some a -> spans !! j = Some b -> SpanID a = SpanID b -> i = j.
Proof.
  intros Hi Hj Hab. apply (NoDup_lookup _ _ _ (SpanID a) Hnd).
  - by rewrite list_lookup_fmap, Hi.
  - by rewrite list_lookup_fmap, Hj, Hab.
Qed.

Lemma same_ID_same_span a b : a ∈ spans -> b ∈ spans -> SpanID a = SpanID b -> a = b.
Proof. intros Ha Hb. by apply (NoDup_fmap_elem_inj SpanID spans). Qed.

Lemma Reach_is_ID a x :
  a ∈ spans -> Reach spans (SpanID a) x -> exists d, d ∈ spans /\ SpanID d = x.
Proof. intros Ha. destruct 1 as [|d Hd _]; eauto. Qed.

(** A descendant does not come before its ancestor. *)
Lemma Reach_index ia a x :
  spans !! ia = Some a -> Reach spans (SpanID a) x ->
  forall j d, spans !! j = Some d -> SpanID d = x -> (ia <= j)%nat.
Proof.
  intros Ha. induction 1 as [|d0 Hd0 Hreach IH]; intros j d Hj Hd.
  - by rewrite (same_ID_same_index _ _ _ _ Hj Ha Hd).
  - assert (d = d0) as -> by (apply same_ID_same_span; [by eapply list_elem_of_lookup_2|done..]).
    destruct (Reach_is_ID _ _ (list_elem_of_lookup_2 _ _ _ Ha) Hreach) as (p & Hp & Hpid).
    apply list_elem_of_lookup_1 in Hp as [ip Hip].
    specialize (IH ip p Hip Hpid).
    pose proof (Hpf ip j p d0 Hip Hj (eq_sym Hpid)). lia.
Qed.

(** The ancestors of an identifier are in line. *)
Lemma Reach_chain a b x :
  Reach spans a x -> Reach spans b x -> Reach spans a b \/ Reach spans b a.
Proof.
  intros Ha. revert b. induction Ha as [|d Hd Ha IH]; intros b Hb; [by right|].
  remember (SpanID d) as y eqn:Hy. destruct Hb as [|d' Hd' Hb].
  - left. subst. by constructor.
  - apply same_ID_same_span in Hy; [|done..]. subst d'. by apply IH.
Qed.

Lemma Reach_closed (S : gset N) y x :
  (forall d, d ∈ spans -> ParentSpanID d ∈ S -> SpanID d ∈ S) ->
  y ∈ S -> Reach spans y x -> x ∈ S.
Proof. intros Hcl Hy. induction 1; [done|]. by apply Hcl. Qed.

Lemma child_Reach span c :
  c ∈ getOrderedChildSpans (SpanID (sw_span span)) spans ->
  Reach spans (SpanID (sw_span span)) (SpanID (sw_span c)).
Proof.
  intros Hc. apply getOrderedChildSpans_spec in Hc as [Hwf Hpar].
  constructor; [by apply wf_span_elem_of|]. rewrite Hpar. constructor.
Qed.

(** A child does not reach its parent. *)
Lemma child_not_above span c :
  wf_span spans span ->
  c ∈ getOrderedChildSpans (SpanID (sw_span span)) spans ->
  ~ Reach spans (SpanID (sw_span c)) (SpanID (sw_span span)).
Proof.
  intros Hwf Hc Hreach. apply getOrderedChildSpans_spec in Hc as [Hcwf Hpar].
  pose proof (Reach_index _ _ _ Hcwf Hreach _ _ Hwf eq_refl).
  pose proof (Hpf _ _ _ _ Hwf Hcwf Hpar). lia.
Qed.

(** The subtrees of two children of a span have no span in common. *)
Lemma siblings_disjoint span c c' x :
  wf_span spans span ->
  c ∈ getOrderedChildSpans (SpanID (sw_span span)) spans ->
  c' ∈ getOrderedChildSpans (SpanID (sw_span span)) spans ->
  c <> c' ->
  Reach spans (SpanID (sw_span c)) x -> Reach spans (SpanID (sw_span c')) x -> False.
Proof.
  assert (forall c c',
            wf_span spans span ->
            c ∈ getOrderedChildSpans (SpanID (sw_span span)) spans ->
            c' ∈ getOrderedChildSpans (SpanID (sw_span span)) spans ->
            c <> c' ->
            ~ Reach spans (SpanID (sw_span c)) (SpanID (sw_span c'))) as Hone.
  { clear c c' x. intros c c' Hwf Hc Hc' Hne Hreach.
    pose proof Hc as Hc0. pose proof Hc' as Hc0'.
    apply getOrderedChildSpans_spec in Hc as [Hcwf Hpar].
    apply getOrderedChildSpans_spec in Hc' as [Hcwf' Hpar'].
    remember (SpanID (sw_span c')) as y eqn:Hy. destruct Hreach as [|d Hd Hreach].
    - apply Hne. pose proof (same_ID_same_index _ _ _ _ Hcwf Hcwf' Hy) as Hidx.
      unfold wf_span in Hcwf, Hcwf'. rewrite Hidx, Hcwf' in Hcwf.
      destruct c, c'. simpl in *. by simplify_eq.
    - apply same_ID_same_span in Hy; [|done|by apply wf_span_elem_of]. subst d.
      rewrite Hpar' in Hreach. by apply (child_not_above span c). }
  intros Hwf Hc Hc' Hne Hx Hx'.
  destruct (Reach_chain _ _ _ Hx Hx') as [H|H].
  - by apply (Hone c c').
  - by apply (Hone c' c).
Qed.

Lemma NoDup_childSpansFrom spanID l : forall i, NoDup (childSpansFrom spanID i l).
Proof.
  induction l as [|sp l IH]; intros i; simpl; [constructor|].
  destruct (N.eqb (ParentSpanID sp) spanID); [|apply IH].
  constructor; [|apply IH]. intros Hin.
  apply elem_of_childSpansFrom in Hin as [Hle _]. simpl in Hle. lia.
Qed.

(** The rows of an expansion belong to descendants of the span. *)
Lemma getMessagesForSubtrace_Reach fuel : forall span seen rows seen',
  getMessagesForSubtrace fuel spans span seen = Ok (rows, seen') ->
  forall r, r ∈ rows -> Reach spans (SpanID (sw_span span)) (rowID r).
Proof.
  induction fuel as [|fuel IH]; intros span seen rows seen' H r Hr; [discriminate|].
  apply getMessagesForSubtrace_Ok in H as (fuel' & rows0 & [= <-] & _ & -> & Hmerge).
  apply mergeLogs_Ok in Hmerge as (blocks & Hrun & Hint).
  apply elem_of_cons in Hr as [->|Hr]; [constructor|].
  rewrite (Interleave_Permutation _ _ _ Hint) in Hr.
  apply elem_of_app in Hr as [Hr|Hr].
  - apply elem_of_logRows in Hr as (k & l & -> & _). constructor.
  - apply elem_of_concat in Hr as (b & Hb & Hr).
    destruct (RunChildren_block _ _ _ _ _ _ Hrun Hb) as (c & s1 & s2 & Hc & Hrec).
    eapply Reach_trans; [by apply child_Reach|]. by eapply IH.
Qed.

(** What a run of children has added to the seen identifiers belongs to
    their subtrees. *)
Lemma RunChildren_seen fuel cs seen blocks seen' :
  Forall (wf_span spans) cs ->
  RunChildren (getMessagesForSubtrace fuel spans) cs seen blocks seen' ->
  forall x, x ∈ seen' ->
    x ∈ seen \/ exists c, c ∈ cs /\ Reach spans (SpanID (sw_span c)) x.
Proof.
  intros Hwf Hrun. induction Hrun as [|c cs seen b seen1 blocks seen' Hc _ IH];
    intros x Hx; [by left|].
  apply Forall_cons in Hwf as [Hcwf Hwf].
  destruct (IH Hwf x Hx) as [Hx1|(c' & Hc' & Hreach)].
  - pose proof (getMessagesForSubtrace_Good _ _ _ _ _ _ Hcwf Hc) as Hgood.
    apply (good_seen _ _ _ _ Hgood) in Hx1 as [?|(r & Hr & <-)]; [by left|right].
    exists c. split; [by left|]. by eapply getMessagesForSubtrace_Reach.
  - right. exists c'. split; [by right|done].
Qed.

(** An expansion that starts with none of the descendants of its span seen
    does not return an error. *)
Lemma getMessagesForSubtrace_no_Err fuel : forall span seen e,
  wf_span spans span ->
  (forall x, Reach spans (SpanID (sw_span span)) x -> x ∉ seen) ->
  getMessagesForSubtrace fuel spans span seen <> Err e.
Proof.
  induction fuel as [|fuel IH]; intros span seen e Hwf Hpre H; [discriminate|].
  rewrite getMessagesForSubtrace_unfold in H.
  destruct (decide (SpanID (sw_span span) ∈ seen)) as [Hin|_].
  { by apply (Hpre _ (Reach_refl _ _)). }
  apply bind_Err in H as [H | ([rows s2] & _ & H)]; [|discriminate].
  apply mergeLogs_Err_inv in H as (cs1 & c & cs2 & blocks & s1 & Hcs & Hrun & Hc).
  set (children := getOrderedChildSpans (SpanID (sw_span span)) spans) in *.
  assert (forall c', c' ∈ cs1 ++ c :: cs2 -> c' ∈ children) as Hsub
    by (intros c'; by rewrite Hcs).
  assert (c ∈ children) as Hcin by (apply Hsub, elem_of_app; right; by left).
  assert (NoDup (cs1 ++ c :: cs2)) as Hnd'
    by (rewrite <- Hcs; apply NoDup_childSpansFrom).
  apply (IH c s1 e); [by apply getOrderedChildSpans_spec in Hcin as [? _]| |done].
  assert (Forall (wf_span spans) cs1) as Hwfcs.
  { apply Forall_forall. intros c' Hc'.
    assert (c' ∈ children) as Hin' by (apply Hsub, elem_of_app; by left).
    by apply getOrderedChildSpans_spec in Hin' as [? _]. }
  intros x Hx Hx1.
  destruct (RunChildren_seen _ _ _ _ _ Hwfcs Hrun x Hx1) as [Hx2|(c' & Hc' & Hx')].
  - rename Hx2 into Hx0. clear Hx1. rename Hx0 into Hx1. apply elem_of_union in Hx1 as [Hx1|Hx1].
    + apply elem_of_singleton in Hx1. subst x. by apply (child_not_above span c).
    + apply (Hpre x); [|done]. eapply Reach_trans; [by apply child_Reach|done].
  - apply (siblings_disjoint span c' c x); [done| |done| |done|done].
    + apply Hsub, elem_of_app. by left.
    + intros ->. apply NoDup_app in Hnd' as (_ & Hdis & _).
      apply (Hdis c Hc'). by left.
Qed.

(** The first loop, from position [k] on: what is seen descends from a
    span before [k] that is seen, and is closed under children. *)
Lemma collectLogs_no_Err fuel rest : forall k seen e,
  (forall j sp, rest !! j = Some sp -> spans !! (k + j)%nat = Some sp) ->
  (forall x, x ∈ seen ->
     exists i r, (i < k)%nat /\ spans !! i = Some r /\ SpanID r ∈ seen /\
                 Reach spans (SpanID r) x) ->
  (forall d, d ∈ spans -> ParentSpanID d ∈ seen -> SpanID d ∈ seen) ->
  collectLogs fuel spans rest k seen <> Err e.
Proof.
  induction rest as [|span rest IH]; intros k seen e Hidx Hroots Hclosed H;
    simpl in H; [discriminate|].
  assert (forall j sp, rest !! j = Some sp -> spans !! (S k + j)%nat = Some sp) as Hrest.
  { intros j sp Hj. specialize (Hidx (S j) sp Hj).
    by replace (k + S j)%nat with (S k + j)%nat in Hidx by lia. }
  assert (spans !! k = Some span) as Hk.
  { specialize (Hidx 0%nat span eq_refl). by rewrite Nat.add_0_r in Hidx. }
  destruct (decide (SpanID span ∈ seen)) as [Hin|Hn].
  { apply (IH (S k) seen e Hrest); [|done|done].
    intros x Hx. destruct (Hroots x Hx) as (i & r & ? & ? & ? & ?).
    exists i, r. split; [lia|done]. }
  assert (wf_span spans (mkSpanWithIndex span k)) as Hwf by done.
  apply bind_Err in H as [H | ([msgs seen1] & Hmsgs & H)].
  - revert H. apply getMessagesForSubtrace_no_Err; [done|].
    cbn [sw_span]. intros x Hx Hseen.
    destruct (Hroots x Hseen) as (i & r & Hi & Hr & Hrseen & Hrx).
    destruct (Reach_chain _ _ _ Hx Hrx) as [Hsr|Hrs].
    + pose proof (Reach_index _ _ _ Hk Hsr _ _ Hr eq_refl). lia.
    + apply Hn. by apply (Reach_closed seen (SpanID r)).
  - apply bind_Err in H as [H | (rows & _ & H)]; [|discriminate].
    pose proof (getMessagesForSubtrace_Good _ _ _ _ _ _ Hwf Hmsgs) as Hgood.
    pose proof (Good_subseteq _ _ _ _ Hgood) as Hmono.
    revert H. apply IH; [done| |].
    + intros x Hx. apply (good_seen _ _ _ _ Hgood) in Hx as [Hx|(r & Hr & <-)].
      * destruct (Hroots x Hx) as (i & r & ? & ? & ? & ?).
        exists i, r. split; [lia|]. split; [done|]. split; [by apply Hmono|done].
      * exists k, span. split; [lia|]. split; [done|]. split.
        -- apply (good_seen _ _ _ _ Hgood). right.
           exists (spanStartRow (mkSpanWithIndex span k)). split; [|done].
           apply getMessagesForSubtrace_Ok in Hmsgs as (? & ? & _ & _ & -> & _).
           by left.
        -- by apply (getMessagesForSubtrace_Reach _ _ _ _ _ Hmsgs).
    + intros d Hd Hpar.
      apply (good_seen _ _ _ _ Hgood) in Hpar as [Hpar|(r & Hr & Hid)].
      * by apply Hmono, Hclosed.
      * apply list_elem_of_lookup_1 in Hd as [j Hj].
        assert (mkSpanWithIndex d j ∈ getOrderedChildSpans (rowID r) spans) as Hc
          by (by apply getOrderedChildSpans_spec).
        apply (getMessagesForSubtrace_ChildrenStarted _ _ _ _ _ _ Hmsgs r _ Hr) in Hc.
        apply (good_seen _ _ _ _ Hgood). right. by eexists.
Qed.

End forest.

(** Below the sentinel the reduction returns the table or the duplicate-span
    error. *)
Lemma bounded_Ok_or_duplicate spans :
  timesBounded spans ->
  (exists res, generateSessionTraceVTable spans = Ok res) \/
  (exists id, generateSessionTraceVTable spans = Err (ErrDuplicateSpan id)).
Proof.
  intros Hb.
  destruct (generateSessionTraceVTable spans) as [res|e| |] eqn:H.
  - left. by exists res.
  - right. apply generateWithFuel_Err in H as [id ->]. by exists id.
  - exfalso. unfold generateSessionTraceVTable, generateWithFuel in H.
    apply bind_Panic in H as [H | (allLogs & _ & H)].
    + eapply collectLogs_no_Panic; [exact Hb| |exact H]. by intros k sp Hk.
    + destruct (toTraceRows_Ok allLogs) as [res Hres]. congruence.
  - exfalso. eapply generateWithFuel_fuel; [|exact H]. lia.
Qed.

(** *** The children of a span *)

Lemma childSpansFrom_filter spanID l : forall i,
  sw_span <$> childSpansFrom spanID i l = filter (λ sp, ParentSpanID sp = spanID) l.
Proof.
  induction l as [|sp l IH]; intros i; simpl; [done|].
  destruct (N.eqb_spec (ParentSpanID sp) spanID) as [Heq|Hne].
  - rewrite filter_cons_True by done. simpl. by rewrite IH.
  - rewrite filter_cons_False by done. apply IH.
Qed.

Lemma childSpansFrom_indexes spanID l : forall i,
  StronglySorted lt (sw_index <$> childSpansFrom spanID i l).
Proof.
  induction l as [|sp l IH]; intros i; simpl; [constructor|].
  destruct (N.eqb (ParentSpanID sp) spanID); [|apply IH].
  simpl. constructor; [apply IH|].
  apply Forall_forall. intros k Hk.
  apply list_elem_of_fmap in Hk as (c & -> & Hc).
  apply elem_of_childSpansFrom in Hc as [Hle _]. lia.
Qed.

Lemma childSpansFrom_sorted spanID l : forall i,
  StronglySorted byStartTime l -> StronglySorted byStart (childSpansFrom spanID i l).
Proof.
  induction l as [|sp l IH]; intros i Hs; simpl; [constructor|].
  apply StronglySorted_inv in Hs as [Hs Hall].
  destruct (N.eqb (ParentSpanID sp) spanID); [|by apply IH].
  constructor; [by apply IH|].
  apply Forall_forall. intros c Hc.
  apply elem_of_childSpansFrom in Hc as (_ & Hc & _).
  apply list_elem_of_lookup_2 in Hc.
  by apply (proj1 (Forall_forall _ _) Hall).
Qed.

(** *** The order of the merge *)

Lemma logRows_lookup span logs : forall i k l,
  logs !! k = Some l -> logRow span (i + k) l ∈ logRows span i logs.
Proof.
  induction logs as [|l0 logs IH]; intros i k l Hk; [done|].
  destruct k as [|k]; simpl in *.
  - injection Hk as ->. rewrite Nat.add_0_r. by left.
  - right. replace (i + S k)%nat with (S i + k)%nat by lia. by apply IH.
Qed.

(** In a successful merge of sorted log entries with sorted children, the
    block of each child comes after the rows of the entries that are before
    the start of the child, and before the rows of the others. *)
Lemma mergeLogs_order recur span logs : forall i childSpans seen rows seen',
  mergeLogs recur span logs i childSpans seen = Ok (rows, seen') ->
  StronglySorted byTime logs -> StronglySorted byStart childSpans ->
  forall cs1 c cs2, childSpans = cs1 ++ c :: cs2 ->
  exists pre b post s1 s2,
    rows = pre ++ b ++ post /\ recur c s1 = Ok (b, s2) /\
    forall k l, logs !! k = Some l ->
      (Time l < StartTime (sw_span c) -> logRow span (i + k) l ∈ pre) /\
      (StartTime (sw_span c) <= Time l -> logRow span (i + k) l ∈ post).
Proof.
  assert (forall (logs : list RecordedSpan_LogRecord) i seen rows seen' c b s1
                 (cs' : list spanWithIndex),
    recur c seen = Ok (b, s1) ->
    mergeLogs recur span logs i cs' s1 = Ok (rows, seen') ->
    (forall l, l ∈ logs -> StartTime (sw_span c) <= Time l) ->
    exists pre b' post s1' s2,
      b ++ rows = pre ++ b' ++ post /\ recur c s1' = Ok (b', s2) /\
      forall k l, logs !! k = Some l ->
        (Time l < StartTime (sw_span c) -> logRow span (i + k) l ∈ pre) /\
        (StartTime (sw_span c) <= Time l -> logRow span (i + k) l ∈ post)) as Hhere.
  { intros logs0 i seen rows seen' c b s1 cs' Hc Hrest Hlate.
    exists [], b, rows, seen, s1. split; [done|]. split; [done|].
    intros k l Hk. split.
    - intros Hlt. specialize (Hlate l (list_elem_of_lookup_2 _ _ _ Hk)). lia.
    - intros _. apply mergeLogs_Ok in Hrest as (blocks & _ & Hint).
      rewrite (Interleave_Permutation _ _ _ Hint). apply elem_of_app. left.
      by apply logRows_lookup. }
  induction logs as [|l0 logs IHlogs]; intros i childSpans;
    induction childSpans as [|c0 cs IHcs];
    intros seen rows seen' H Hlogs Hcs cs1 c cs2 Heq.
  - by destruct cs1.
  - rewrite mergeLogs_only_children in H.
    destruct (maxTime <? StartTime (sw_span c0)); [discriminate|].
    apply bind_pair_Ok in H as (b & s1 & Hc0 & H).
    apply bind_pair_Ok in H as (rest & s2 & Hrest & H). injection H as <- <-.
    apply StronglySorted_inv in Hcs as [Hcs _].
    destruct cs1 as [|c1 cs1]; injection Heq as <- ->.
    + exists [], b, rest, seen, s1. by repeat split.
    + destruct (IHcs _ _ _ Hrest Hlogs Hcs cs1 c cs2 eq_refl)
        as (pre & b' & post & s1' & s2' & -> & Hc & Hk).
      exists (b ++ pre), b', post, s1', s2'.
      split; [by rewrite <- app_assoc|]. split; [done|]. by intros k l Hl.
  - by destruct cs1.
  - rewrite mergeLogs_both in H.
    pose proof Hlogs as Hlogs0. pose proof Hcs as Hcs0.
    apply StronglySorted_inv in Hlogs as [Hlogs Hl0].
    apply StronglySorted_inv in Hcs as [Hcs Hc0].
    destruct (Time l0 <? StartTime (sw_span c0)) eqn:Hcmp.
    + apply Z.ltb_lt in Hcmp.
      apply bind_pair_Ok in H as (rest & s2 & Hrest & H). injection H as <- <-.
      destruct (IHlogs _ _ _ _ _ Hrest Hlogs Hcs0 cs1 c cs2 Heq)
        as (pre & b' & post & s1' & s2' & -> & Hc & Hk).
      exists (logRow span i l0 :: pre), b', post, s1', s2'.
      split; [done|]. split; [done|].
      assert (StartTime (sw_span c0) <= StartTime (sw_span c)) as Hle.
      { destruct cs1 as [|c1 cs1]; injection Heq as <- ->; [lia|].
        apply (proj1 (Forall_forall _ _) Hc0). apply elem_of_app. right. by left. }
      intros [|k] l Hl; simpl in Hl.
      * injection Hl as <-. rewrite Nat.add_0_r. split; [intros _; by left|lia].
      * destruct (Hk k l Hl) as [Hk1 Hk2].
        replace (i + S k)%nat with (S i + k)%nat by lia.
        split; [intros ?; right; by apply Hk1|done].
    + apply Z.ltb_ge in Hcmp.
      apply bind_pair_Ok in H as (b & s1 & Hc0' & H).
      apply bind_pair_Ok in H as (rest & s2 & Hrest & H). injection H as <- <-.
      destruct cs1 as [|c1 cs1]; injection Heq as <- ->.
      * eapply Hhere; [done|done|].
        intros l Hl. apply elem_of_cons in Hl as [->|Hl]; [done|].
        pose proof (proj1 (Forall_forall _ _) Hl0 l Hl) as Hle.
        unfold byTime in Hle. lia.
      * destruct (IHcs _ _ _ Hrest Hlogs0 Hcs cs1 c cs2 eq_refl)
          as (pre & b' & post & s1' & s2' & -> & Hc & Hk).
        exists (b ++ pre), b', post, s1', s2'.
        split; [by rewrite <- app_assoc|]. split; [done|].
        intros k l Hl. destruct (Hk k l Hl) as [Hk1 Hk2].
        split; [|done]. intros Hlt. apply elem_of_app. right. by apply Hk1.
Qed.

(** *** A span that comes before its parent *)

(** The first loop from position [k] on, when the root [p] at position [j]
    is still to come and not seen, and its child at position [i] is seen as
    soon as the loop is past it: the loop does not succeed. *)
Lemma collectLogs_late_parent fuel spans i j c p :
  NoDup (SpanID <$> spans) ->
  spans !! i = Some c -> spans !! j = Some p -> (i < j)%nat ->
  ParentSpanID c = SpanID p ->
  (forall q, q ∈ spans -> SpanID q <> ParentSpanID p) ->
  forall rest k seen rows,
    (forall n sp, rest !! n = Some sp -> spans !! (k + n)%nat = Some sp) ->
    (k <= j)%nat -> rest !! (j - k)%nat = Some p ->
    SpanID p ∉ seen -> ((i < k)%nat -> SpanID c ∈ seen) ->
    collectLogs fuel spans rest k seen <> Ok rows.
Proof.
  intros Hnd Hi Hj Hij Hpar Hroot.
  induction rest as [|s rest IH]; intros k seen rows Hidx Hkj Hp Hunseen Hc H;
    [done|].
  simpl in H.
  assert (forall n sp, rest !! n = Some sp -> spans !! (S k + n)%nat = Some sp) as Hrest.
  { intros n sp Hn. specialize (Hidx (S n) sp Hn).
    by replace (k + S n)%nat with (S k + n)%nat in Hidx by lia. }
  assert (spans !! k = Some s) as Hk.
  { specialize (Hidx 0%nat s eq_refl). by rewrite Nat.add_0_r in Hidx. }
  destruct (decide (k = j)) as [->|Hne].
  - rewrite Nat.sub_diag in Hp. injection Hp as ->.
    destruct (decide (SpanID p ∈ seen)); [done|].
    apply bind_pair_Ok in H as (msgs & seen1 & Hmsgs & _).
    apply getMessagesForSubtrace_Ok in Hmsgs as (fuel' & rows0 & -> & _ & -> & Hmerge).
    apply mergeLogs_Ok in Hmerge as (blocks & Hrun & _). cbn [sw_span] in Hrun.
    assert (mkSpanWithIndex c i ∈ getOrderedChildSpans (SpanID p) spans) as Hin
      by (by apply getOrderedChildSpans_spec).
    apply list_elem_of_split in Hin as (cs1 & cs2 & Heq). rewrite Heq in Hrun.
    apply RunChildren_split in Hrun
      as (bs1 & b & bs2 & s1 & s2 & _ & Hrec & _ & _ & Hg1 & _).
    + apply getMessagesForSubtrace_Ok in Hrec as (_ & _ & _ & Hfresh & _).
      apply Hfresh, (Good_subseteq _ _ _ _ Hg1), elem_of_union. right.
      apply Hc. lia.
    + rewrite <- Heq. apply Forall_forall. intros c' Hc'.
      by apply getOrderedChildSpans_spec in Hc' as [? _].
  - assert (rest !! (j - S k)%nat = Some p) as Hp'.
    { replace (j - k)%nat with (S (j - S k)) in Hp by lia. done. }
    destruct (decide (SpanID s ∈ seen)) as [Hin|Hn].
    + revert H. apply IH; [done|lia|done|done|].
      intros Hlt. destruct (decide (i = k)) as [->|]; [|apply Hc; lia].
      rewrite Hi in Hk. by injection Hk as <-.
    + apply bind_pair_Ok in H as (msgs & seen1 & Hmsgs & H).
      apply bind_Ok in H as (rows' & Hrows' & _).
      assert (wf_span spans (mkSpanWithIndex s k)) as Hwf by done.
      pose proof (getMessagesForSubtrace_Good _ _ _ _ _ _ Hwf Hmsgs) as Hgood.
      revert Hrows'. apply IH; [done|lia|done| |].
      * intros Hseen.
        apply (good_seen _ _ _ _ Hgood) in Hseen as [?|(r & Hr & Hid)]; [done|].
        pose proof (getMessagesForSubtrace_Reach _ _ _ _ _ _ Hmsgs r Hr) as Hreach.
        rewrite Hid in Hreach. cbn [sw_span] in Hreach.
        remember (SpanID p) as y eqn:Hy. destruct Hreach as [|d Hd Hreach].
        -- apply Hne. by apply (same_ID_same_index spans Hnd _ _ s p).
        -- apply (same_ID_same_span spans Hnd) in Hy;
             [|done|by eapply list_elem_of_lookup_2]. subst d.
           destruct (Reach_is_ID spans s _ (list_elem_of_lookup_2 _ _ _ Hk) Hreach)
             as (q & Hq & Hqid).
           by apply (Hroot q).
      * intros Hlt. destruct (decide (i = k)) as [->|].
        -- rewrite Hi in Hk. injection Hk as <-.
           apply (good_seen _ _ _ _ Hgood). right.
           exists (spanStartRow (mkSpanWithIndex c k)). split; [|done].
           apply getMessagesForSubtrace_Ok in Hmsgs as (? & ? & _ & _ & -> & _).
           by left.
        -- apply (Good_subseteq _ _ _ _ Hgood), Hc. lia.
Qed.

(** X6: the only error of the reduction is the duplicate-span error, and
    it names a span whose parent is in the input: a span is never rejected
    where the top-level loop meets it, only where the expansion of its
    parent reaches it. *)
Theorem error_names_a_child spans e :
  generateSessionTraceVTable spans = Err e ->
  exists c p, c ∈ spans /\ p ∈ spans /\ ParentSpanID c = SpanID p /\
              e = ErrDuplicateSpan (SpanID c).
Proof.
  unfold generateSessionTraceVTable, generateWithFuel. intros H.
  apply bind_Err in H as [H | (allLogs & _ & H)].
  - eapply collectLogs_Err_child; [|exact H]. by intros k sp Hk.
  - destruct (toTraceRows_Ok allLogs) as [res Hres]. congruence.
Qed.

(** X7: when no span starts after the sentinel time of the merge and
    every log entry is before it, the reduction does not panic: it returns
    the table or the duplicate-span error. *)
Theorem no_panic_below_sentinel spans :
  timesBounded spans ->
  (exists res, generateSessionTraceVTable spans = Ok res) \/
  (exists id, generateSessionTraceVTable spans = Err (ErrDuplicateSpan id)).
Proof. apply bounded_Ok_or_duplicate. Qed.



(** X8: a first span without children that has a log entry at or after
    the sentinel time makes the reduction panic: with the cursor of the
    children exhausted the entry is not before the sentinel, and the merge
    indexes the children out of range. *)
Theorem late_log_entry_panics sp rest l :
  (forall x, x ∈ sp :: rest -> ParentSpanID x <> SpanID sp) ->
  l ∈ Logs sp -> maxTime <= Time l ->
  generateSessionTraceVTable (sp :: rest) = Panic.
Proof.
  intros Hnone Hl Ht.
  unfold generateSessionTraceVTable, generateWithFuel. cbn [collectLogs length].
  destruct (decide (SpanID sp ∈ (∅ : gset N))) as [Hin|_]; [by apply elem_of_empty in Hin|].
  rewrite getMessagesForSubtrace_unfold. cbn [sw_span].
  destruct (decide (SpanID sp ∈ (∅ : gset N))) as [Hin|_]; [by apply elem_of_empty in Hin|].
  assert (getOrderedChildSpans (SpanID sp) (sp :: rest) = []) as ->.
  { destruct (getOrderedChildSpans (SpanID sp) (sp :: rest)) as [|c cs] eqn:Hcs; [done|].
    assert (c ∈ getOrderedChildSpans (SpanID sp) (sp :: rest)) as Hc
      by (rewrite Hcs; by left).
    apply getOrderedChildSpans_spec in Hc as [Hwf Hpar].
    by destruct (Hnone _ (wf_span_elem_of _ _ Hwf)). }
  rewrite mergeLogs_late_log; [done|]. by exists l.
Qed.

(** X9: in the table, the rows of a span are its start row followed by
    one row for each of its log entries, in the order of the log: no entry
    is lost, repeated or moved before another of the same span. *)
Theorem span_rows_in_log_order spans res row :
  generateSessionTraceVTable spans = Ok res -> row ∈ res ->
  exists k sp,
    span_idx row = DInt (Z.of_nat k) /\ spans !! k = Some sp /\
    toTraceRows (spanStartRow (mkSpanWithIndex sp k) ::
                 logRows (mkSpanWithIndex sp k) 0 (Logs sp))
      = Ok (filter (λ r, span_idx r = DInt (Z.of_nat k)) res).
Proof.
  intros H Hrow.
  apply generateWithFuel_Ok in H as (rows & seen' & Hcollect & Hres & Hgood & _).
  destruct (toTraceRows_elem_of _ _ _ Hres Hrow) as (lrr & Hin & Hlrr).
  pose proof (good_wf _ _ _ _ Hgood _ Hin) as Hwf.
  destruct (toTraceRow_inv _ _ Hlrr) as (Hidx & _).
  exists (sw_index (lrr_span lrr)), (sw_span (lrr_span lrr)).
  split; [done|]. split; [done|].
  replace (mkSpanWithIndex (sw_span (lrr_span lrr)) (sw_index (lrr_span lrr)))
    with (lrr_span lrr) by (by destruct (lrr_span lrr)).
  rewrite <- (collectLogs_span_rows _ _ _ _ _ Hcollect Hgood Hin).
  apply toTraceRows_of_Forall2, Forall2_filter; [by apply toTraceRows_Forall2|].
  intros x y _ Hxy. destruct (toTraceRow_inv _ _ Hxy) as (-> & _).
  split; [by intros ->|]. intros [= Heq]. by apply Nat2Z.inj.
Qed.

(** X10: when the identifiers of the input are distinct, the table has
    one row for every span and one for every log entry. *)
Theorem row_count spans res :
  NoDup (SpanID <$> spans) ->
  generateSessionTraceVTable spans = Ok res ->
  length res = sum_list_with (λ sp, S (length (Logs sp))) spans.
Proof.
  intros Hnd H.
  apply generateWithFuel_Ok in H as (rows & seen' & Hcollect & Hres & Hgood & _ & Hall).
  rewrite <- (Forall2_length _ _ _ (toTraceRows_Forall2 _ _ Hres)).
  rewrite (collectLogs_length _ _ _ _ _ _ Hcollect).
  rewrite <- (started_spans_Permutation _ _ _ Hnd Hgood Hall).
  unfold rowsOfSpan. generalize (filter isStart rows). intros l.
  induction l as [|r l IH]; [done|]. cbn. by rewrite IH.
Qed.

(** X11: on a recording in which the identifiers are distinct, every
    span comes after its parent and the times are below the sentinel, the
    reduction succeeds. *)
Theorem well_formed_trace_succeeds spans :
  NoDup (SpanID <$> spans) -> parentsFirst spans -> timesBounded spans ->
  exists res, generateSessionTraceVTable spans = Ok res.
Proof.
  intros Hnd Hpf Hb.
  destruct (bounded_Ok_or_duplicate spans Hb) as [?|[id H]]; [done|exfalso].
  unfold generateSessionTraceVTable, generateWithFuel in H.
  apply bind_Err in H as [H | (allLogs & _ & H)].
  - revert H. apply collectLogs_no_Err; [done|done|by intros j sp Hj| |].
    + intros x Hx. by apply elem_of_empty in Hx.
    + intros d _ Hx. by apply elem_of_empty in Hx.
  - destruct (toTraceRows_Ok allLogs) as [res Hres]. congruence.
Qed.

(** X12: the children of a span are the spans of the input with that
    parent, in the order of the input, each with its position. *)
Theorem children_in_input_order spanID allSpans :
  sw_span <$> getOrderedChildSpans spanID allSpans
    = filter (λ sp, ParentSpanID sp = spanID) allSpans /\
  StronglySorted lt (sw_index <$> getOrderedChildSpans spanID allSpans) /\
  (forall c, c ∈ getOrderedChildSpans spanID allSpans ->
             allSpans !! sw_index c = Some (sw_span c)).
Proof.
  split; [apply childSpansFrom_filter|]. split; [apply childSpansFrom_indexes|].
  intros c Hc. by apply getOrderedChildSpans_spec in Hc as [Hc _].
Qed.

(** X13: when the input is ordered by start time, so are the children
    of every span. *)
Theorem children_keep_start_order spanID allSpans :
  StronglySorted byStartTime allSpans ->
  StronglySorted byStart (getOrderedChildSpans spanID allSpans).
Proof. apply childSpansFrom_sorted. Qed.

(** X14: in the rows of a span whose log entries are ordered by time and
    whose children are ordered by start time, the block of each child comes
    after the rows of the log entries that are before the start of the child
    and before the rows of the log entries that are not. *)
Theorem merge_follows_time fuel allSpans span seen rows seen' c :
  getMessagesForSubtrace fuel allSpans span seen = Ok (rows, seen') ->
  StronglySorted byTime (Logs (sw_span span)) ->
  StronglySorted byStart (getOrderedChildSpans (SpanID (sw_span span)) allSpans) ->
  c ∈ getOrderedChildSpans (SpanID (sw_span span)) allSpans ->
  exists pre b post fuel' s1 s2,
    rows = pre ++ b ++ post /\
    getMessagesForSubtrace fuel' allSpans c s1 = Ok (b, s2) /\
    forall k l, Logs (sw_span span) !! k = Some l ->
      (Time l < StartTime (sw_span c) -> logRow span k l ∈ pre) /\
      (StartTime (sw_span c) <= Time l -> logRow span k l ∈ post).
Proof.
  intros H Hlogs Hcs Hc.
  apply getMessagesForSubtrace_Ok in H as (fuel' & rows0 & -> & _ & -> & Hmerge).
  apply list_elem_of_split in Hc as (cs1 & cs2 & Heq).
  destruct (mergeLogs_order _ _ _ _ _ _ _ _ Hmerge Hlogs Hcs cs1 c cs2 Heq)
    as (pre & b & post & s1 & s2 & -> & Hb & Hk).
  exists (spanStartRow span :: pre), b, post, fuel', s1, s2.
  split; [done|]. split; [done|].
  intros k l Hl. destruct (Hk k l Hl) as [Hk1 Hk2].
  split; [|done]. intros Hlt. right. by apply Hk1.
Qed.

(** X15: the reduction relies on the order of the recording: when a
    span comes before its parent and the parent is a root, the top-level
    loop has seen the span by the time it expands the parent, and the
    reduction fails. *)
Theorem span_before_its_root_fails spans i j c p :
  NoDup (SpanID <$> spans) ->
  spans !! i = Some c -> spans !! j = Some p -> (i < j)%nat ->
  ParentSpanID c = SpanID p ->
  (forall q, q ∈ spans -> SpanID q <> ParentSpanID p) ->
  (exists id, generateSessionTraceVTable spans = Err (ErrDuplicateSpan id)) \/
  generateSessionTraceVTable spans = Panic.
Proof.
  intros Hnd Hi Hj Hij Hpar Hroot.
  destruct (generateSessionTraceVTable spans) as [res|e| |] eqn:H.
  - exfalso. apply generateWithFuel_Ok in H as (rows & _ & Hcollect & _).
    revert Hcollect.
    apply (collectLogs_late_parent _ spans i j c p Hnd Hi Hj Hij Hpar Hroot
             spans 0%nat ∅ rows);
      [by intros n sp Hn|lia|by rewrite Nat.sub_0_r|apply not_elem_of_empty|lia].
  - left. apply generateWithFuel_Err in H as [id ->]. by exists id.
  - by right.
  - exfalso. eapply generateWithFuel_fuel; [|exact H]. lia.
Qed.

Lemma timesBounded_openSpans : timesBounded openSpans.
Proof.
  intros sp Hsp. apply list_elem_of_In in Hsp.
  destruct Hsp as [<-|[<-|[]]]; (split; [by vm_compute|]);
    intros l Hl; apply list_elem_of_In in Hl.
  - destruct Hl as [<-|[]]. by vm_compute.
  - destruct Hl.
Qed.

Lemma parentsFirst_openSpans : parentsFirst openSpans.
Proof.
  intros i j si sj Hi Hj Hpar.
  destruct i as [|[|i]]; [| |done]; injection Hi as <-;
    (destruct j as [|[|j]]; [| |done]); injection Hj as <-;
    simpl in Hpar; try discriminate; lia.
Qed.

Lemma NoDup_openSpans : NoDup (SpanID <$> openSpans).
Proof. apply (bool_decide_unpack _). by vm_compute. Qed.

Lemma error_names_a_child_witness :
  exists c p, c ∈ dupChildren /\ p ∈ dupChildren /\ ParentSpanID c = SpanID p /\
              ErrDuplicateSpan 2 = ErrDuplicateSpan (SpanID c).
Proof.
  apply (error_names_a_child dupChildren (ErrDuplicateSpan 2)).
  vm_compute. reflexivity.
Defined.

Lemma no_panic_below_sentinel_witness :
  (exists res, generateSessionTraceVTable openSpans = Ok res) \/
  (exists id, generateSessionTraceVTable openSpans = Err (ErrDuplicateSpan id)).
Proof. exact (no_panic_below_sentinel openSpans timesBounded_openSpans). Defined.

Lemma late_log_entry_panics_witness : generateSessionTraceVTable lateSpans = Panic.
Proof.
  apply (late_log_entry_panics _ [] (mkLogRecord maxTime [mkField "event" "late"])).
  - intros x Hx. apply list_elem_of_singleton in Hx as ->. discriminate.
  - by left.
  - reflexivity.
Defined.

Lemma span_rows_in_log_order_witness :
  exists k sp,
    DInt 0 = DInt (Z.of_nat k) /\ openSpans !! k = Some sp /\
    toTraceRows (spanStartRow (mkSpanWithIndex sp k) ::
                 logRows (mkSpanWithIndex sp k) 0 (Logs sp))
      = Ok (filter (λ r, span_idx r = DInt (Z.of_nat k)) openRows).
Proof.
  assert (generateSessionTraceVTable openSpans = Ok openRows) as H
    by (vm_compute; reflexivity).
  exact (span_rows_in_log_order openSpans openRows _ H (list_elem_of_here _ _)).
Defined.

Lemma row_count_witness :
  length openRows = sum_list_with (λ sp, S (length (Logs sp))) openSpans.
Proof.
  apply row_count; [exact NoDup_openSpans|]. vm_compute. reflexivity.
Defined.

Lemma well_formed_trace_succeeds_witness :
  exists res, generateSessionTraceVTable openSpans = Ok res.
Proof.
  exact (well_formed_trace_succeeds openSpans NoDup_openSpans parentsFirst_openSpans
           timesBounded_openSpans).
Defined.

Lemma children_keep_start_order_witness :
  StronglySorted byStart (getOrderedChildSpans 1 dupChildren).
Proof.
  apply children_keep_start_order. unfold dupChildren.
  apply SSorted_cons;
    [apply SSorted_cons; [apply SSorted_cons; [apply SSorted_nil|apply Forall_nil_2]|]|].
  - apply Forall_cons_2; [|apply Forall_nil_2]. unfold byStartTime. simpl. lia.
  - apply Forall_cons_2; [unfold byStartTime; simpl; lia|].
    apply Forall_cons_2; [unfold byStartTime; simpl; lia|]. apply Forall_nil_2.
Defined.

Lemma merge_follows_time_witness :
  exists pre b post fuel' s1 s2,
    openLogRows = pre ++ b ++ post /\
    getMessagesForSubtrace fuel' openSpans openChild s1 = Ok (b, s2) /\
    forall k l, Logs (sw_span openRoot) !! k = Some l ->
      (Time l < StartTime (sw_span openChild) -> logRow openRoot k l ∈ pre) /\
      (StartTime (sw_span openChild) <= Time l -> logRow openRoot k l ∈ post).
Proof.
  apply (merge_follows_time 3 openSpans openRoot ∅ openLogRows {[ 7%N; 8%N ]} openChild).
  - vm_compute. reflexivity.
  - apply SSorted_cons; [apply SSorted_nil|apply Forall_nil_2].
  - change (StronglySorted byStart [openChild]).
    apply SSorted_cons; [apply SSorted_nil|apply Forall_nil_2].
  - change (openChild ∈ [openChild]). apply list_elem_of_here.
Defined.

Lemma span_before_its_root_fails_witness :
  (exists id, generateSessionTraceVTable childFirst = Err (ErrDuplicateSpan id)) \/
  generateSessionTraceVTable childFirst = Panic.
Proof.
  apply (span_before_its_root_fails childFirst 0 1
           (mkSpan 2 1 "child" 20 5 []) (mkSpan 1 0 "root" 10 50 [])).
  - apply (bool_decide_unpack _). by vm_compute.
  - reflexivity.
  - reflexivity.
  - lia.
  - reflexivity.
  - intros q Hq. apply list_elem_of_In in Hq.
    destruct Hq as [<-|[<-|[]]]; discriminate.
Defined.

(** * Cancellation through the registry *)

Section registry_more.
Import Registry.
Context `{Env}.

(** The loop of [CancelSession] finds the session with the identifier when
    it may look at it, and cancels it. *)
Lemma cancelSessionLoop_found entries sessionID username s : forall r,
  NoDup entries.*1 -> (sessionID, s) ∈ entries -> authorized username s = true ->
  cancelSessionLoop entries sessionID username r
    = (true, <[sessionID := cancelSession s]> r).
Proof.
  induction entries as [|[id0 s0] rest IH]; intros r Hnd Hin Hauth; [by inversion Hin|].
  simpl in Hnd. apply NoDup_cons in Hnd as [Hhead Hnd].
  simpl. apply elem_of_cons in Hin as [[= <- <-]|Hin].
  - rewrite Hauth. simpl. by rewrite decide_True.
  - destruct (authorized username s0); simpl; [|by apply IH].
    destruct (decide (id0 = sessionID)) as [->|]; [|by apply IH].
    exfalso. apply Hhead. apply list_elem_of_fmap. by exists (sessionID, s).
Qed.

(** The loop of [CancelQuery] finds the query when a session that it may
    look at holds it. *)
Lemma cancelQueryLoop_found entries queryID username : forall r,
  (exists id s, (id, s) ∈ entries /\ authorized username s = true /\
                holdsQuery s queryID) ->
  (cancelQueryLoop entries queryID username r).1 = true.
Proof.
  induction entries as [|[id0 s0] rest IH]; intros r (id & s & Hin & Hauth & Hholds);
    [by inversion Hin|].
  simpl. destruct (authorized username s0) eqn:Hauth0; simpl.
  - destruct (cancelQuery s0 queryID) as [found s0'] eqn:Hcq.
    destruct found; [done|]. apply IH.
    apply elem_of_cons in Hin as [[= -> ->]|Hin]; [|by eauto].
    unfold holdsQuery in Hholds. by rewrite Hcq in Hholds.
  - apply IH. apply elem_of_cons in Hin as [[= -> ->]|Hin]; [congruence|by eauto].
Qed.

Lemma cancelQueryLoop_true_inv entries queryID username : forall r,
  (cancelQueryLoop entries queryID username r).1 = true ->
  exists id s, (id, s) ∈ entries /\ authorized username s = true /\
               holdsQuery s queryID.
Proof.
  induction entries as [|[id0 s0] rest IH]; intros r Hres; simpl in Hres; [done|].
  destruct (authorized username s0) eqn:Hauth; simpl in Hres.
  - destruct (cancelQuery s0 queryID) as [found s0'] eqn:Hcq.
    destruct found.
    + exists id0, s0. split; [by left|]. split; [done|].
      unfold holdsQuery. by rewrite Hcq.
    + destruct (IH _ Hres) as (id & s & ? & ? & ?). exists id, s.
      split; [by right|done].
  - destruct (IH _ Hres) as (id & s & ? & ? & ?). exists id, s.
    split; [by right|done].
Qed.

(** The loop of [CancelQuery] keeps the identifiers of the store and the
    sessions that it may not look at. *)
Lemma cancelQueryLoop_frame entries queryID username : forall r,
  (forall id s, (id, s) ∈ entries -> is_Some (r !! id)) ->
  forall id,
    (is_Some ((cancelQueryLoop entries queryID username r).2 !! id)
       <-> is_Some (r !! id)) /\
    ((forall s, (id, s) ∈ entries -> authorized username s = false) ->
     (cancelQueryLoop entries queryID username r).2 !! id = r !! id).
Proof.
  induction entries as [|[id0 s0] rest IH]; intros r Hkeys id; simpl; [done|].
  assert (forall id' s', (id', s') ∈ rest -> is_Some (r !! id')) as Hrest.
  { intros id' s' Hin. apply (Hkeys id' s'). by right. }
  assert (is_Some (r !! id0)) as Hid0 by (apply (Hkeys id0 s0); by left).
  destruct (authorized username s0) eqn:Hauth; simpl.
  2:{ destruct (IH r Hrest id) as [IH1 IH2]. split; [done|].
      intros Hun. apply IH2. intros s Hin. apply Hun. by right. }
  destruct (cancelQuery s0 queryID) as [found s0'].
  assert (forall id', is_Some (<[id0 := s0']> r !! id') <-> is_Some (r !! id')) as Hdom.
  { intros id'. destruct (decide (id0 = id')) as [->|Hne].
    - rewrite lookup_insert_eq. by split.
    - by rewrite lookup_insert_ne. }
  assert ((forall s, (id, s) ∈ (id0, s0) :: rest -> authorized username s = false) ->
          id0 <> id) as Hne.
  { intros Hun ->. rewrite (Hun s0) in Hauth; [done|by left]. }
  destruct found; simpl.
  - split; [apply Hdom|]. intros Hun. by rewrite lookup_insert_ne by by apply Hne.
  - destruct (IH (<[id0 := s0']> r)) with (id := id) as [IH1 IH2].
    { intros id' s' Hin. apply Hdom. by eapply Hrest. }
    split; [by rewrite IH1|].
    intros Hun. rewrite IH2; [by rewrite lookup_insert_ne by by apply Hne|].
    intros s Hin. apply Hun. by right.
Qed.

(** X17: whatever the order in which the store is ranged over,
    [CancelSession] cancels the session with the identifier when the user
    is the superuser or its owner, and changes no other session; in every
    other case it returns the not-found error and changes nothing. *)
Theorem CancelSession_spec (r : gmap ClusterWideID registrySession)
    (entries : list (ClusterWideID * registrySession)) (username : string)
    (sessionIDBytes : list Byte.byte) :
  entries ≡ₚ map_to_list r ->
  CancelSession entries r sessionIDBytes username =
  let sessionID := BytesToClusterWideID sessionIDBytes in
  match r !! sessionID with
  | Some s =>
      if authorized username s
      then ((true, None), <[sessionID := cancelSession s]> r)
      else ((false, Some (ErrSessionNotFound sessionID)), r)
  | None => ((false, Some (ErrSessionNotFound sessionID)), r)
  end.
Proof.
  intros Hperm. cbv zeta. unfold CancelSession.
  assert (forall id s, (id, s) ∈ entries <-> r !! id = Some s) as Hentries.
  { intros id s. rewrite Hperm. apply elem_of_map_to_list. }
  assert (NoDup entries.*1) as Hnd.
  { rewrite Hperm. apply NoDup_fst_map_to_list. }
  destruct (r !! BytesToClusterWideID sessionIDBytes) as [s|] eqn:Hr.
  - destruct (authorized username s) eqn:Hauth.
    + rewrite (cancelSessionLoop_found _ _ _ s); [done|done| |done].
      by apply Hentries.
    + rewrite cancelSessionLoop_not_found; [done|].
      intros s' Hin%Hentries. rewrite Hr in Hin. by injection Hin as <-.
  - rewrite cancelSessionLoop_not_found; [done|].
    intros s' Hin%Hentries. by rewrite Hr in Hin.
Qed.

(** X18: whatever the order in which the store is ranged over,
    [CancelQuery] with a well-formed identifier reports success exactly when
    a session that the user is the superuser for or the owner of holds the
    query. *)
Theorem CancelQuery_found_iff (r : gmap ClusterWideID registrySession)
    (entries : list (ClusterWideID * registrySession)) (username : string)
    (queryIDStr : string) (queryID : ClusterWideID) :
  entries ≡ₚ map_to_list r ->
  StringToClusterWideID queryIDStr = (queryID, None) ->
  ((CancelQuery entries r queryIDStr username).1 = (true, None) <->
   exists id s, r !! id = Some s /\ authorized username s = true /\
                holdsQuery s queryID) /\
  ((CancelQuery entries r queryIDStr username).1 = (true, None) \/
   (CancelQuery entries r queryIDStr username).1
     = (false, Some (ErrQueryNotFound queryID))).
Proof.
  intros Hperm Hparse.
  assert (forall id s, (id, s) ∈ entries <-> r !! id = Some s) as Hentries.
  { intros id s. rewrite Hperm. apply elem_of_map_to_list. }
  unfold CancelQuery. rewrite Hparse.
  pose proof (cancelQueryLoop_found entries queryID username r) as Hfound.
  destruct (cancelQueryLoop entries queryID username r) as [[] r'] eqn:Hloop;
    simpl in *.
  - split; [|by left]. split; [intros _|done].
    destruct (cancelQueryLoop_true_inv entries queryID username r)
      as (id & s & Hin & ? & ?); [by rewrite Hloop|].
    exists id, s. by rewrite <- Hentries.
  - split; [|by right]. split; [done|].
    intros (id & s & Hin & Hauth & Hholds).
    discriminate Hfound. exists id, s. by rewrite Hentries.
Qed.

End registry_more.

Section registry_trip.
Import Registry.
Context `{Env}.

(** X19: whatever it returns, [CancelQuery] registers and
    deregisters nothing and leaves every session of another user as it is;
    with a malformed identifier it changes nothing at all. *)
Theorem CancelQuery_frame (r : gmap ClusterWideID registrySession)
    (entries : list (ClusterWideID * registrySession)) (username : string)
    (queryIDStr : string) :
  entries ≡ₚ map_to_list r ->
  (forall id, is_Some ((CancelQuery entries r queryIDStr username).2 !! id)
              <-> is_Some (r !! id)) /\
  (forall id s, r !! id = Some s -> authorized username s = false ->
     (CancelQuery entries r queryIDStr username).2 !! id = Some s) /\
  (forall queryID err,
     StringToClusterWideID queryIDStr = (queryID, Some err) ->
     CancelQuery entries r queryIDStr username
       = ((false, Some (ErrQueryIDMalformed queryID err)), r)).
Proof.
  intros Hperm.
  assert (forall id s, (id, s) ∈ entries <-> r !! id = Some s) as Hentries.
  { intros id s. rewrite Hperm. apply elem_of_map_to_list. }
  assert (forall id s, (id, s) ∈ entries -> is_Some (r !! id)) as Hkeys.
  { intros id s Hin%Hentries. by exists s. }
  unfold CancelQuery.
  destruct (StringToClusterWideID queryIDStr) as [queryID [err|]] eqn:Hparse.
  { split; [done|]. split; [done|]. by intros ? ? [= <- <-]. }
  pose proof (cancelQueryLoop_frame entries queryID username r Hkeys) as Hframe.
  destruct (cancelQueryLoop entries queryID username r) as [[] r']; simpl in *.
  - split; [intros id; apply Hframe|]. split; [|done].
    intros id s Hr Hauth. rewrite (proj2 (Hframe id)); [done|].
    intros s' Hin%Hentries. rewrite Hr in Hin. by injection Hin as <-.
  - split; [intros id; apply Hframe|]. split; [|done].
    intros id s Hr Hauth. rewrite (proj2 (Hframe id)); [done|].
    intros s' Hin%Hentries. rewrite Hr in Hin. by injection Hin as <-.
Qed.

(** X20: a session that was registered is found and cancelled by
    its owner or the superuser under its identifier; once it is
    deregistered, the identifier is not found any more and the registry is
    as it was without the session.  In a registry that was just made no
    identifier is found. *)
Theorem register_deregister_round_trip (r : gmap ClusterWideID registrySession)
    (s : registrySession) (sessionIDBytes : list Byte.byte) (username : string)
    (entries1 entries2 : list (ClusterWideID * registrySession)) :
  let id := BytesToClusterWideID sessionIDBytes in
  authorized username s = true ->
  entries1 ≡ₚ map_to_list (register id s r) ->
  entries2 ≡ₚ map_to_list (deregister id (register id s r)) ->
  CancelSession entries1 (register id s r) sessionIDBytes username
    = ((true, None), register id (cancelSession s) r) /\
  CancelSession entries2 (deregister id (register id s r)) sessionIDBytes username
    = ((false, Some (ErrSessionNotFound id)), deregister id r) /\
  CancelSession (map_to_list MakeSessionRegistry) MakeSessionRegistry
      sessionIDBytes username
    = ((false, Some (ErrSessionNotFound id)), MakeSessionRegistry).
Proof.
  intros id Hauth Hperm1 Hperm2. unfold CancelSession, register, deregister in *.
  fold id. split; [|split; [|by unfold MakeSessionRegistry; rewrite map_to_list_empty]].
  - assert (NoDup entries1.*1) as Hnd
      by (rewrite Hperm1; apply NoDup_fst_map_to_list).
    assert ((id, s) ∈ entries1) as Hin.
    { rewrite Hperm1. apply elem_of_map_to_list. apply lookup_insert_eq. }
    rewrite (cancelSessionLoop_found _ _ _ s _ Hnd Hin Hauth).
    by rewrite insert_insert_eq.
  - rewrite cancelSessionLoop_not_found; [by rewrite delete_insert_eq|].
    intros s' Hin. rewrite Hperm2 in Hin. apply elem_of_map_to_list in Hin.
    by rewrite lookup_delete_eq in Hin.
Qed.

End registry_trip.

Lemma CancelSession_spec_witness :
  Registry.CancelSession (H := demoRegistry)
    (map_to_list demoStore) demoStore [Byte.x00] "alice"
  = ((true, None), <[1%N := demoCancelSession (mkDemoSession "alice" [7%N] false)]> demoStore).
Proof.
  exact (CancelSession_spec (H := demoRegistry) demoStore (map_to_list demoStore)
           "alice" [Byte.x00] (reflexivity _)).
Defined.

Lemma CancelQuery_found_iff_witness :
  ((Registry.CancelQuery (H := demoRegistry)
      (map_to_list demoStore) demoStore "7" "alice").1 = (true, None) <->
   exists id s, demoStore !! id = Some s /\
                Registry.authorized (H := demoRegistry) "alice" s = true /\
                Registry.holdsQuery (H := demoRegistry) s 7%N) /\
  ((Registry.CancelQuery (H := demoRegistry)
      (map_to_list demoStore) demoStore "7" "alice").1 = (true, None) \/
   (Registry.CancelQuery (H := demoRegistry)
      (map_to_list demoStore) demoStore "7" "alice").1
     = (false, Some (Registry.ErrQueryNotFound 7%N))).
Proof.
  apply (CancelQuery_found_iff (H := demoRegistry) demoStore (map_to_list demoStore)
           "alice" "7" 7%N); reflexivity.
Defined.

Lemma CancelQuery_frame_witness :
  (forall id, is_Some ((Registry.CancelQuery (H := demoRegistry)
                          (map_to_list demoStore) demoStore "9" "root").2 !! id)
              <-> is_Some (demoStore !! id)) /\
  (forall id s, demoStore !! id = Some s ->
     Registry.authorized (H := demoRegistry) "root" s = false ->
     (Registry.CancelQuery (H := demoRegistry)
        (map_to_list demoStore) demoStore "9" "root").2 !! id = Some s) /\
  (forall queryID err,
     demoParse "9" = (queryID, Some err) ->
     Registry.CancelQuery (H := demoRegistry) (map_to_list demoStore) demoStore "9" "root"
       = ((false, Some (Registry.ErrQueryIDMalformed queryID err)), demoStore)).
Proof.
  exact (CancelQuery_frame (H := demoRegistry) demoStore (map_to_list demoStore)
           "root" "9" (reflexivity _)).
Defined.

Lemma register_deregister_round_trip_witness :
  Registry.CancelSession (H := demoRegistry)
    (map_to_list (Registry.register (H := demoRegistry) 3%N
                    (mkDemoSession "carol" [] false) demoStore))
    (Registry.register (H := demoRegistry) 3%N (mkDemoSession "carol" [] false) demoStore)
    [Byte.x00; Byte.x01; Byte.x02] "carol"
    = ((true, None),
       Registry.register (H := demoRegistry) 3%N (mkDemoSession "carol" [] true) demoStore) /\
  Registry.CancelSession (H := demoRegistry)
    (map_to_list (Registry.deregister (H := demoRegistry) 3%N
                    (Registry.register (H := demoRegistry) 3%N
                       (mkDemoSession "carol" [] false) demoStore)))
    (Registry.deregister (H := demoRegistry) 3%N
       (Registry.register (H := demoRegistry) 3%N (mkDemoSession "carol" [] false) demoStore))
    [Byte.x00; Byte.x01; Byte.x02] "carol"
    = ((false, Some (Registry.ErrSessionNotFound 3%N)),
       Registry.deregister (H := demoRegistry) 3%N demoStore) /\
  Registry.CancelSession (H := demoRegistry)
    (map_to_list (Registry.MakeSessionRegistry (H := demoRegistry)))
    (Registry.MakeSessionRegistry (H := demoRegistry))
    [Byte.x00; Byte.x01; Byte.x02] "carol"
    = ((false, Some (Registry.ErrSessionNotFound 3%N)),
       Registry.MakeSessionRegistry (H := demoRegistry)).
Proof.
  exact (register_deregister_round_trip (H := demoRegistry) demoStore
           (mkDemoSession "carol" [] false) [Byte.x00; Byte.x01; Byte.x02] "carol"
           _ _ eq_refl (reflexivity _) (reflexivity _)).
Defined.

(** * Starting and stopping a trace *)

Section tracing_more.
Import Tracing.
Context `{Lib}.

(** X21: [StartTracing] while tracing is off fails exactly when a
    transaction is open and its context carries no span; the call that
    fails changes nothing: tracing stays off, nothing is recorded and the
    connection context is not hijacked.  Every other call returns nil, turns
    tracing on with the given settings and hijacks the connection context
    with the new connection span. *)
Theorem StartTracing_fails_iff s e t recType kv :
  enabled s = false ->
  let a := StartTracing s e t recType kv in
  (ret a = Err ErrNoTxnSpan <-> inTxn e = true /\ txnCtxSpan e = None) /\
  (ret a = Err ErrNoTxnSpan -> st a = s /\ ex a = e /\ tr a = t) /\
  (ret a <> Err ErrNoTxnSpan ->
   ret a = Ok () /\ enabled (st a) = true /\
   kvTracingEnabled (st a) = kv /\ recordingType (st a) = recType /\
   lastRecording (st a) = lastRecording s /\
   is_Some (connSpan (st a)) /\ hijacked (ex a) = connSpan (st a)).
Proof.
  intros Hoff. cbv zeta. unfold StartTracing. rewrite Hoff.
  destruct (inTxn e) eqn:Htxn; [destruct (txnCtxSpan e) as [sp|] eqn:Hsp|].
  - destruct (StartSpan (connCtxSpan e) (StartRecording sp recType t)) as [conn t'].
    simpl. split; [split; [done|by intros [_ ?]]|]. split; [done|].
    intros _. by repeat split.
  - simpl. by repeat split.
  - destruct (StartSpan (connCtxSpan e) t) as [conn t'].
    simpl. split; [split; [done|by intros [? _]]|]. split; [done|].
    intros _. by repeat split.
Qed.

(** X22: [StopTracing] while tracing is on turns tracing off and gives
    the connection context back, whether the reduction of the recording
    succeeds or not.  What it stores is what [getRecording] returns from
    then on, whatever the tracer records later: the table when the
    reduction succeeded; after a failed reduction, whose only error is the
    duplicate-span error, the previous recording is gone. *)
Theorem StopTracing_stores_recording s e t conn :
  enabled s = true -> connSpan s = Some conn ->
  let a := StopTracing s e t in
  let spans :=
    match firstTxnSpan s with
    | Some sp => GetRecording sp t ++ GetRecording conn (Finish conn (StopRecording sp t))
    | None => GetRecording conn (Finish conn t)
    end in
  enabled (st a) = false /\ hijacked (ex a) = None /\
  (forall t', getRecording (st a) t' = Ok (lastRecording (st a))) /\
  ret a = (_ ← generateSessionTraceVTable spans; Ok ()) /\
  (forall rows, generateSessionTraceVTable spans = Ok rows ->
                ret a = Ok () /\ lastRecording (st a) = rows) /\
  (forall err, ret a = Err err ->
               isDuplicateSpan err /\ lastRecording (st a) = []).
Proof.
  intros Hon Hconn. cbv zeta. unfold StopTracing. rewrite Hon, Hconn. simpl.
  destruct (firstTxnSpan s) as [sp|]; simpl.
  - split; [done|]. split; [done|]. split; [done|]. split; [done|]. split.
    + by intros rows ->.
    + intros err Herr.
      destruct (generateSessionTraceVTable _) as [rows|e'| |] eqn:Hgen;
        simpl in Herr; try discriminate.
      injection Herr as ->. split; [|done]. by eapply generateWithFuel_Err.
  - split; [done|]. split; [done|]. split; [done|]. split; [done|]. split.
    + by intros rows ->.
    + intros err Herr.
      destruct (generateSessionTraceVTable _) as [rows|e'| |] eqn:Hgen;
        simpl in Herr; try discriminate.
      injection Herr as ->. split; [|done]. by eapply generateWithFuel_Err.
Qed.

End tracing_more.

Lemma StartTracing_fails_iff_witness :
  let a := Tracing.StartTracing (H := demoTracer) idle inTransaction 1%nat
             Tracing.SnowballRecording true in
  (Tracing.ret a = Err ErrNoTxnSpan <->
   Tracing.inTxn inTransaction = true /\ Tracing.txnCtxSpan inTransaction = None) /\
  (Tracing.ret a = Err ErrNoTxnSpan ->
   Tracing.st a = idle /\ Tracing.ex a = inTransaction /\ Tracing.tr a = 1%nat) /\
  (Tracing.ret a <> Err ErrNoTxnSpan ->
   Tracing.ret a = Ok () /\ Tracing.enabled (Tracing.st a) = true /\
   Tracing.kvTracingEnabled (Tracing.st a) = true /\
   Tracing.recordingType (Tracing.st a) = Tracing.SnowballRecording /\
   Tracing.lastRecording (Tracing.st a) = Tracing.lastRecording idle /\
   is_Some (Tracing.connSpan (Tracing.st a)) /\
   Tracing.hijacked (Tracing.ex a) = Tracing.connSpan (Tracing.st a)).
Proof.
  exact (StartTracing_fails_iff (H := demoTracer) idle inTransaction 1%nat
           Tracing.SnowballRecording true eq_refl).
Defined.

Lemma StopTracing_stores_recording_witness :
  let a := Tracing.StopTracing (H := demoTracer) started noTransaction 2%nat in
  let spans :=
    Tracing.GetRecording (Lib := demoTracer) 100%nat 2%nat ++
    Tracing.GetRecording (Lib := demoTracer) 1%nat 2%nat in
  Tracing.enabled (Tracing.st a) = false /\ Tracing.hijacked (Tracing.ex a) = None /\
  (forall t', Tracing.getRecording (H := demoTracer) (Tracing.st a) t'
              = Ok (Tracing.lastRecording (Tracing.st a))) /\
  Tracing.ret a = (_ ← generateSessionTraceVTable spans; Ok ()) /\
  (forall rows, generateSessionTraceVTable spans = Ok rows ->
                Tracing.ret a = Ok () /\ Tracing.lastRecording (Tracing.st a) = rows) /\
  (forall err, Tracing.ret a = Err err ->
               isDuplicateSpan err /\ Tracing.lastRecording (Tracing.st a) = []).
Proof.
  exact (StopTracing_stores_recording (H := demoTracer) started noTransaction 2%nat
           1%nat eq_refl eq_refl).
Defined.

(** * Errors and composition of schema-change runs *)

Section schema_more.
Import SchemaChange.
Context `{Env}.

Lemma permanentOf_Some final e :
  permanentOf final = Some e ->
  final = Some e /\ e <> ErrDescriptorNotFound /\ isPermanentSchemaChangeError e = true.
Proof.
  destruct final as [e'|]; simpl; [|done].
  destruct (decide (e' = ErrDescriptorNotFound)); [done|].
  destruct (isPermanentSchemaChangeError e') eqn:Hp; [|done].
  by intros [= <-].
Qed.

Lemma permanentOf_None final :
  terminal final -> permanentOf final = None ->
  final = None \/ final = Some ErrDescriptorNotFound.
Proof.
  destruct final as [e|]; simpl; [|by left].
  destruct (decide (e = ErrDescriptorNotFound)) as [->|]; [by right|].
  destruct (isPermanentSchemaChangeError e); [done|]. by intros [?|?].
Qed.

Lemma firstPermanent_Some finals e :
  firstPermanent finals = Some e -> exists final, final ∈ finals /\ permanentOf final = Some e.
Proof.
  induction finals as [|r finals IH]; simpl; [done|].
  destruct (permanentOf r) as [e'|] eqn:Hr.
  - intros [= <-]. exists r. split; [by left|done].
  - intros Hf. destruct (IH Hf) as (final & ? & ?). exists final. split; [by right|done].
Qed.

Lemma firstPermanent_None finals final :
  firstPermanent finals = None -> final ∈ finals -> permanentOf final = None.
Proof.
  induction finals as [|r finals IH]; simpl; intros Hf Hin; [by inversion Hin|].
  destruct (permanentOf r) eqn:Hr; [done|].
  apply elem_of_cons in Hin as [->|Hin]; [done|by apply IH].
Qed.

Lemma Forall3_jobRun_final queue runs finals final :
  Forall3 jobRun queue runs finals -> final ∈ finals ->
  exists sc, sc ∈ queue /\ (sc, final) ∈ concat runs /\ terminal final.
Proof.
  induction 1 as [|sc run final0 queue runs finals Hjob _ IH]; intros Hin;
    [by inversion Hin|].
  simpl. apply elem_of_cons in Hin as [->|Hin].
  - destruct Hjob as (retries & -> & _ & Hterm). exists sc.
    split; [by left|]. split; [|done].
    apply elem_of_app. left. apply elem_of_app. right. by left.
  - destruct (IH Hin) as (sc' & ? & ? & ?). exists sc'.
    split; [by right|]. split; [|done]. apply elem_of_app. by right.
Qed.

Lemma Forall3_jobRun_attempt queue runs finals sc r :
  Forall3 jobRun queue runs finals -> (sc, r) ∈ concat runs ->
  (exists e, r = Some e /\ retryable e) \/ (r ∈ finals /\ terminal r).
Proof.
  induction 1 as [|sc0 run final0 queue runs finals Hjob _ IH]; intros Hin;
    [by inversion Hin|].
  simpl in Hin. apply elem_of_app in Hin as [Hin|Hin].
  - destruct Hjob as (retries & -> & Hretries & Hterm).
    apply elem_of_app in Hin as [Hin|Hin].
    + left. apply list_elem_of_fmap in Hin as (e & [= -> ->] & He).
      exists e. split; [done|]. by apply (proj1 (Forall_forall _ _) Hretries).
    + right. apply list_elem_of_singleton in Hin as [= -> ->].
      split; [by left|done].
  - destruct (IH Hin) as [?|[? ?]]; [by left|right]. split; [by right|done].
Qed.

(** X23: the error that [execSchemaChanges] returns is the error
    of an attempt that it made, a permanent one, and never the
    descriptor-not-found error; it returns nil only when every failed
    attempt was retried or found its descriptor missing. *)
Theorem execSchemaChanges_error_is_permanent fuel schemaChangers w ret q w' log :
  execSchemaChanges fuel schemaChangers w = Some (ret, q, w', log) ->
  q = [] /\
  (forall e, ret = Some e ->
     isPermanentSchemaChangeError e = true /\ e <> ErrDescriptorNotFound /\
     exists sc, sc ∈ filteredQueue schemaChangers /\ (sc, Some e) ∈ log) /\
  (ret = None ->
   forall sc e, (sc, Some e) ∈ log -> retryable e \/ e = ErrDescriptorNotFound).
Proof.
  unfold execSchemaChanges. intros Hrun.
  destruct (runQueue fuel (filteredQueue schemaChangers) w None [])
    as [[[fe w1] log1]|] eqn:Hq; simpl in Hrun; [|discriminate].
  injection Hrun as <- <- <- <-.
  apply runQueue_Some in Hq as (runs & finals & -> & Hall & ->). simpl.
  split; [done|]. split.
  - intros e He. apply firstPermanent_Some in He as (final & Hin & Hperm).
    apply permanentOf_Some in Hperm as (-> & Hne & Hp).
    destruct (Forall3_jobRun_final _ _ _ _ Hall Hin) as (sc & ? & ? & _).
    split; [done|]. split; [done|]. by exists sc.
  - intros Hnone sc e Hin.
    destruct (Forall3_jobRun_attempt _ _ _ _ _ Hall Hin) as [(e' & [= <-] & ?)|[Hf Hterm]];
      [by left|right].
    pose proof (firstPermanent_None _ _ Hnone Hf) as Hp.
    by destruct (permanentOf_None _ Hterm Hp) as [?|[= ->]].
Qed.

(** The accumulators of the loops: a run that starts with a first error and
    a log is the run that starts with none, after them. *)
Lemma retryLoop_acc fuel sc : forall w firstError log,
  retryLoop fuel sc w firstError log =
  '(r, w', run) ← retryLoop fuel sc w None [];
  Some (orElse firstError r, w', log ++ run).
Proof.
  induction fuel as [|fuel IH]; intros w firstError log; simpl; [done|].
  destruct (exec sc w) as [[e|] w1].
  - destruct (decide (e = ErrDescriptorNotFound)).
    + simpl. by destruct firstError.
    + destruct (isPermanentSchemaChangeError e).
      * simpl. by destruct firstError.
      * rewrite (IH w1 firstError (log ++ [(sc, Some e)])).
        rewrite (IH w1 None [(sc, Some e)]).
        destruct (retryLoop fuel sc w1 None []) as [[[r w2] run]|]; simpl; [|done].
        by rewrite <- (assoc app).
  - simpl. by destruct firstError.
Qed.

Lemma runQueue_acc fuel queue : forall w firstError log,
  runQueue fuel queue w firstError log =
  '(r, w', run) ← runQueue fuel queue w None [];
  Some (orElse firstError r, w', log ++ run).
Proof.
  induction queue as [|sc rest IH]; intros w firstError log; simpl.
  - rewrite app_nil_r. by destruct firstError.
  - rewrite (retryLoop_acc fuel sc w firstError log).
    destruct (retryLoop fuel sc w None []) as [[[r1 w1] run1]|]; simpl; [|done].
    rewrite (IH w1 (orElse firstError r1) (log ++ run1)).
    rewrite (IH w1 r1 run1).
    destruct (runQueue fuel rest w1 None []) as [[[r2 w2] run2]|]; simpl; [|done].
    rewrite <- (assoc app). by destruct firstError, r1.
Qed.

Lemma runQueue_app fuel q1 q2 : forall w firstError log,
  runQueue fuel (q1 ++ q2) w firstError log =
  '(fe, w', log') ← runQueue fuel q1 w firstError log;
  runQueue fuel q2 w' fe log'.
Proof.
  induction q1 as [|sc q1 IH]; intros w firstError log; simpl; [done|].
  destruct (retryLoop fuel sc w firstError log) as [[[fe1 w1] log1]|]; simpl; [|done].
  apply IH.
Qed.

(** X24: without the testing filter, running a collection is
    running its schema changers in the order in which they were queued: the
    run of a collection that was extended is the run of what it held
    followed by the run of what was added, with the attempts of both and the
    first error of the two; and since a run empties the collection, running
    it again attempts nothing. *)
Theorem execSchemaChanges_in_queue_order fuel q1 q2 w r1 w1 log1 r2 w2 log2 :
  SyncFilter = None ->
  execSchemaChanges fuel q1 w = Some (r1, [], w1, log1) ->
  execSchemaChanges fuel q2 w1 = Some (r2, [], w2, log2) ->
  execSchemaChanges fuel (q1 ++ q2) w
    = Some (orElse r1 r2, [], w2, log1 ++ log2) /\
  (forall sc, execSchemaChanges fuel (queueSchemaChanger sc q1) w
              = execSchemaChanges fuel (q1 ++ [sc]) w) /\
  execSchemaChanges fuel (reset q1) w2 = Some (None, [], w2, []) /\
  execSchemaChanges fuel [] w2 = Some (None, [], w2, []).
Proof.
  intros Hnone. unfold execSchemaChanges, filteredQueue, queueSchemaChanger, reset.
  rewrite Hnone. intros H1 H2.
  destruct (runQueue fuel q1 w None []) as [[[fe1 w1'] l1]|] eqn:Hq1;
    simpl in H1; [|discriminate].
  injection H1 as -> -> ->.
  destruct (runQueue fuel q2 w1 None []) as [[[fe2 w2'] l2]|] eqn:Hq2;
    simpl in H2; [|discriminate].
  injection H2 as -> -> ->.
  split; [|by repeat split].
  rewrite runQueue_app, Hq1. simpl. rewrite runQueue_acc, Hq2. done.
Qed.

End schema_more.

Lemma execSchemaChanges_error_is_permanent_witness :
  [] = @nil nat /\
  (forall e, Some "constraint violation" = Some e ->
     String.eqb e "constraint violation" = true /\ e <> "descriptor not found" /\
     exists sc, sc ∈ SchemaChange.filteredQueue (H := demoSchema) demoQueue /\
                (sc, Some e) ∈ [(1%nat, None); (2%nat, Some "constraint violation");
                                (3%nat, Some "transient"); (3%nat, Some "transient"); (3%nat, None)]) /\
  (Some "constraint violation" = None ->
   forall sc e, (sc, Some e) ∈ [(1%nat, None); (2%nat, Some "constraint violation");
                                (3%nat, Some "transient"); (3%nat, Some "transient"); (3%nat, None)] ->
     SchemaChange.retryable (H := demoSchema) e \/ e = "descriptor not found").
Proof.
  apply (execSchemaChanges_error_is_permanent (H := demoSchema) 5 demoQueue 0%nat
           (Some "constraint violation") [] 5%nat).
  vm_compute. reflexivity.
Defined.

Lemma execSchemaChanges_in_queue_order_witness :
  SchemaChange.execSchemaChanges (H := demoSchema) 5 ([1%nat; 2%nat] ++ [3%nat]) 0%nat
    = Some (orElse (Some "constraint violation") None, [], 5%nat,
            [(1%nat, None); (2%nat, Some "constraint violation")] ++
            [(3%nat, Some "transient"); (3%nat, Some "transient"); (3%nat, None)]) /\
  (forall sc, SchemaChange.execSchemaChanges (H := demoSchema) 5
                (SchemaChange.queueSchemaChanger (H := demoSchema) sc [1%nat; 2%nat]) 0%nat
              = SchemaChange.execSchemaChanges (H := demoSchema) 5
                  ([1%nat; 2%nat] ++ [sc]) 0%nat) /\
  SchemaChange.execSchemaChanges (H := demoSchema) 5
    (SchemaChange.reset (H := demoSchema) [1%nat; 2%nat]) 5%nat = Some (None, [], 5%nat, []) /\
  SchemaChange.execSchemaChanges (H := demoSchema) 5 [] 5%nat = Some (None, [], 5%nat, []).
Proof.
  apply (execSchemaChanges_in_queue_order (H := demoSchema) 5 [1%nat; 2%nat] [3%nat]
           0%nat (Some "constraint violation") 2%nat
           [(1%nat, None); (2%nat, Some "constraint violation")]
           None 5%nat [(3%nat, Some "transient"); (3%nat, Some "transient"); (3%nat, None)]);
    vm_compute; reflexivity.
Defined.

(** * Reports of panics *)

Lemma length_append (s t : string) :
  String.length (s ++ t)%string = (String.length s + String.length t)%nat.
Proof. induction s as [|a s IH]; simpl; [done|by rewrite IH]. Qed.

Lemma length_substring_0 n : forall s,
  (n <= String.length s)%nat -> String.length (substring 0 n s) = n.
Proof.
  induction n as [|n IH]; intros [|a s] Hn; simpl in *; try done; try lia.
  rewrite IH; [done|lia].
Qed.

Lemma substring_0_length s : substring 0 (String.length s) s = s.
Proof. induction s as [|a s IH]; simpl; [done|by rewrite IH]. Qed.

Lemma substring_0_split n : forall s,
  (n <= String.length s)%nat ->
  s = (substring 0 n s ++ substring n (String.length s - n) s)%string.
Proof.
  induction n as [|n IH]; intros s Hn.
  - rewrite Nat.sub_0_r, substring_0_length. by destruct s.
  - destruct s as [|a s]; simpl in *; [lia|]. change (String a s = String a (substring 0 n s +:+ substring n (String.length s - n) s)). f_equal. apply IH. lia.
Qed.

Section reporting_facts.
Import Reporting.
Context `{Parser}.

(** X25: the report of a panic is the fixed frame around the action,
    the number of statements that were parsed and the anonymous statements
    joined with semicolons.  The joined text is reported unchanged up to 500
    characters; a longer text is reported as its first 500 characters and
    the mark " [...]", so the reported text has at most 506 characters,
    while the number counts every statement.  Statements that do not parse
    are reported as 0 statements and the empty text; the cause is kept. *)
Theorem report_is_cut_at_500 {R : Type} (action sqlStmts : string) (r : R) :
  let e := AnonymizeStatementsForReporting action sqlStmts r in
  let joined := String.concat "; " (anonymizedStatements sqlStmts) in
  exists text,
    message e = ("panic while " ++ action ++ " "
                   ++ decimal (length (anonymizedStatements sqlStmts))
                   ++ " statements: " ++ text)%string /\
    cause e = r /\
    (String.length text <= 506)%nat /\
    ((String.length joined <= 500)%nat -> text = joined) /\
    ((500 < String.length joined)%nat ->
     exists rest, rest <> "" /\
                  joined = (substring 0 500 joined ++ rest)%string /\
                  text = (substring 0 500 joined ++ " [...]")%string) /\
    (Parse sqlStmts = None ->
     length (anonymizedStatements sqlStmts) = 0%nat /\ text = "") /\
    (forall stmts, Parse sqlStmts = Some stmts ->
     length (anonymizedStatements sqlStmts) = length stmts).
Proof.
  intros e joined. exists (cutOff joined).
  split; [reflexivity|]. split; [reflexivity|].
  unfold cutOff, panicLogOutputCutoffChars.
  destruct (Nat.ltb 500%nat (String.length joined)) eqn:Hlt.
  - apply Nat.ltb_lt in Hlt.
    split; [rewrite length_append, length_substring_0 by lia; simpl; lia|].
    split; [intros; lia|].
    split.
    + intros _. exists (substring 500 (String.length joined - 500) joined).
      split; [|split; [apply substring_0_split; lia|done]].
      intros Hempty.
      pose proof (f_equal String.length (substring_0_split 500%nat joined ltac:(lia))) as Hlen.
      rewrite length_append, length_substring_0, Hempty in Hlen by lia.
      simpl in Hlen. lia.
    + subst joined. unfold anonymizedStatements in *. split.
      * intros HP. rewrite HP in *. simpl in Hlt. lia.
      * intros stmts HP. rewrite HP. by rewrite length_fmap.
  - apply Nat.ltb_ge in Hlt.
    split; [lia|]. split; [done|]. split; [intros; lia|].
    subst joined. unfold anonymizedStatements in *. split.
    + intros HP. by rewrite HP.
    + intros stmts HP. rewrite HP. by rewrite length_fmap.
Qed.

End reporting_facts.
